(** * Donation-fulfilment backend: a shallow embedding and its properties

    The development follows three source modules of the backend:

    - [utils/locationFilter] (the recency filter, [filterRecentLocations]);
    - [utils/notificationStream] (the SSE hub, [addClient], [removeClient],
      [broadcastNotification]);
    - [routes/markDonation] (the [POST /mark-donation] handler, called
      [confirmDonation] here after the operation it implements).

    Mongo collections are finite maps keyed by the document [_id]; the
    process-wide [Set] and [Map] objects are [gset] and [gmap]; dates are
    integers (milliseconds since the epoch), the Invalid Date being
    [None]; the numbers of the date arithmetic are binary64 values; the
    counters of a blood request are integers; strings are held as their
    UTF-8 bytes. *)

From Stdlib Require Import ZArith String Ascii Floats.SpecFloat.
From stdpp Require Import gmap strings list fin_maps sorting.

Local Open Scope string_scope.
Local Open Scope Z_scope.

(** ** Generic collection queries *)

Module Collection.

(** [coll.findOne(filter)]: the first document, in the collection's
    natural order, that satisfies the filter, with its [_id]. *)
Definition findOne {A : Type} (p : A → bool) (c : gmap string A)
  : option (string * A) :=
  head (filter (λ kv, p kv.2 = true) (map_to_list c)).

(** Keys of a descending sort: a missing field sorts below every value. *)
Definition key_lt (a b : option Z) : bool :=
  match a, b with
  | None, Some _ => true
  | Some x, Some y => bool_decide (x < y)
  | _, _ => false
  end.

(** Scan for a document with the greatest sort key; among equal keys the
    earliest in natural order is kept. *)
Fixpoint pickLatest {A : Type} (key : A → option Z)
         (best : string * A) (l : list (string * A)) : string * A :=
  match l with
  | [] => best
  | kv :: l' =>
      if key_lt (key best.2) (key kv.2)
      then pickLatest key kv l'
      else pickLatest key best l'
  end.

(** [coll.findOne(filter).sort({field: -1})]. *)
Definition findOneSortDesc {A : Type} (p : A → bool) (key : A → option Z)
           (c : gmap string A) : option (string * A) :=
  match filter (λ kv, p kv.2 = true) (map_to_list c) with
  | [] => None
  | kv :: l => Some (pickLatest key kv l)
  end.

End Collection.

(** ** JavaScript numbers and dates *)

Module JsNumber.

(** A JavaScript number is an IEEE 754 binary64 value; its operations
    are those of the reference specification [SpecFloat], with the
    precision and the exponent range of binary64. *)
Definition prec : Z := 53.
Definition emax : Z := 1024.

(** The number an integer literal or an integer-valued field denotes. *)
Definition ofZ (z : Z) : spec_float := binary_normalize prec emax z 0 false.

Definition fmul : spec_float → spec_float → spec_float := SFmul prec emax.
Definition fadd : spec_float → spec_float → spec_float := SFadd prec emax.
Definition fsub : spec_float → spec_float → spec_float := SFsub prec emax.
Definition fdiv : spec_float → spec_float → spec_float := SFdiv prec emax.

(** [x % y]: the remainder of the truncated division, which is exact and
    takes the sign of [x]. *)
Definition frem (x y : spec_float) : spec_float :=
  match x, y with
  | S754_nan, _ | _, S754_nan => S754_nan
  | S754_infinity _, _ => S754_nan
  | _, S754_zero _ => S754_nan
  | S754_zero _, _ => x
  | S754_finite _ _ _, S754_infinity _ => x
  | S754_finite sx mx ex, S754_finite _ my ey =>
      let ez := Z.min ex ey in
      binary_normalize prec emax
        (cond_Zopp sx (Z.rem (Zpos (fst (shl_align mx ex ez)))
                             (Zpos (fst (shl_align my ey ez)))))
        ez sx
  end.

(** [Math.floor(x)] *)
Definition floor (x : spec_float) : spec_float :=
  match x with
  | S754_finite s m (Zneg k) =>
      binary_normalize prec emax
        (Z.shiftr (cond_Zopp s (Zpos m)) (Zpos k)) 0 s
  | _ => x
  end.

(** The integer part of a finite number, towards zero. *)
Definition truncate (x : spec_float) : option Z :=
  match x with
  | S754_zero _ => Some 0
  | S754_finite s m e => Some (cond_Zopp s (Z.shiftl (Zpos m) e))
  | _ => None
  end.

(** The largest time value of a [Date], in milliseconds. *)
Definition MAX_TIME : Z := 8640000000000000.

(** [new Date(x)] on a number: the time value is the integer part of
    [x]; the date is invalid ([None]) when [x] is not finite or beyond
    [MAX_TIME] in size (a number of that size has no fraction, so the
    test on its integer part is the test on [x]). *)
Definition timeClip (x : spec_float) : option Z :=
  match truncate x with
  | Some z => if bool_decide (Z.abs z ≤ MAX_TIME) then Some z else None
  | None => None
  end.

(** The [Date] read from a stored date: dates are written by
    [new Date()], so that a stored value beyond [MAX_TIME] does not
    occur; it would be read as an Invalid Date. *)
Definition readDate (t : Z) : option Z :=
  if bool_decide (Z.abs t ≤ MAX_TIME) then Some t else None.

(** [date.getTime()], and the number a date takes in arithmetic. *)
Definition getTime (d : option Z) : spec_float :=
  match d with
  | Some t => ofZ t
  | None => S754_nan
  end.

(** An integer that every operation above handles exactly: below
    [2^53] in size. *)
Definition safe (v : Z) : Prop := Z.abs v < 2 ^ 53.

(** The number of sign [s] and of size [p], for [p] of at most 53 bits:
    the mantissa is [p] shifted to 53 bits. *)
Definition norm (s : bool) (p : positive) : spec_float :=
  S754_finite s (Z.to_pos (Zpos p * 2 ^ (prec - Zpos (digits2_pos p))))
              (Zpos (digits2_pos p) - prec).

End JsNumber.

(** ** Recency filter ([utils/locationFilter]) *)

Module LocationFilter.

Import JsNumber.

(** A location entry as the read paths see it.  Only the fields the
    filter reads are kept, plus the [_id] and [userName] that identify
    an entry. *)
Record Entry := mkEntry {
  entryId : string;
  entryUserName : option string;
  timestamp : option Z;
  responseTime : option Z;
  createdAt : option Z
}.

(** [a || b] on date-valued fields: a stored date is an object, hence
    truthy; a missing field is [undefined]. *)
Definition orElse (a b : option Z) : option Z :=
  match a with Some t => Some t | None => b end.

(** [location.timestamp || location.responseTime || location.createdAt] *)
Definition effectiveTime (e : Entry) : option Z :=
  orElse (orElse (timestamp e) (responseTime e)) (createdAt e).

(** [new Date(location.timestamp || ...)]; [new Date(undefined)] is an
    Invalid Date. *)
Definition locationTime (e : Entry) : option Z :=
  effectiveTime e ≫= readDate.

Definition ONE_HOUR_MS : Z := 60 * 60 * 1000.

(** [maxAgeHours * 60 * 60 * 1000] *)
Definition maxAgeMs (maxAgeHours : spec_float) : spec_float :=
  fmul (fmul (fmul maxAgeHours (ofZ 60)) (ofZ 60)) (ofZ 1000).

(** [new Date(Date.now() - maxAgeMs)] *)
Definition cutoffTime (now : Z) (maxAgeHours : spec_float) : option Z :=
  timeClip (fsub (ofZ now) (maxAgeMs maxAgeHours)).

(** [locationTime >= cutoffTime]: an Invalid Date compares false with
    everything. *)
Definition isRecent (now : Z) (maxAgeHours : spec_float) (e : Entry) : bool :=
  match locationTime e, cutoffTime now maxAgeHours with
  | Some t, Some cutoff => bool_decide (cutoff ≤ t)
  | _, _ => false
  end.

Fixpoint filterRecentLocations (now : Z) (locations : list Entry)
         (maxAgeHours : spec_float) : list Entry :=
  match locations with
  | [] => []
  | e :: rest =>
      if isRecent now maxAgeHours e
      then e :: filterRecentLocations now rest maxAgeHours
      else filterRecentLocations now rest maxAgeHours
  end.

(** The default argument [maxAgeHours = 1]. *)
Definition filterRecentLocations_default (now : Z) (locations : list Entry)
  : list Entry :=
  filterRecentLocations now locations (ofZ 1).

(** An entry is live at [now] for a window [w] when the cut-off date of
    the window is valid and the entry has a valid effective timestamp
    at or after it. *)
Definition live (now : Z) (w : spec_float) (e : Entry) : Prop :=
  ∃ cutoff t, cutoffTime now w = Some cutoff ∧ locationTime e = Some t ∧
              cutoff ≤ t.

End LocationFilter.

(** ** Notification hub ([utils/notificationStream]) *)

Module NotificationStream.

(** A subscriber connection (an Express response object), by identity. *)
Definition Conn := nat.

(** [const clients = new Map(); // hospitalId -> Set(res)] *)
Definition Clients := gmap string (gset nat).

Record Notification := mkNotification {
  hospitalId : option string;     (* [notification.hospitalId?.toString()] *)
  body : string                   (* the rest of the JSON document *)
}.

(** One [res.write(payload)]. *)
Definition Write := (Conn * string)%type.

Definition addClient (h : string) (res : Conn) (clients : gmap string (gset nat))
  : gmap string (gset nat) :=
  let clients1 :=
    match clients !! h with
    | Some _ => clients
    | None => <[h := ∅]> clients
    end in
  alter (λ s, s ∪ {[res]}) h clients1.

Definition removeClient (h : string) (res : Conn) (clients : gmap string (gset nat))
  : gmap string (gset nat) :=
  match clients !! h with
  | Some s =>
      let s' := s ∖ {[res]} in
      if bool_decide (size s' = 0%nat) then delete h clients
      else <[h := s']> clients
  | None => clients
  end.

(** [`data: ${JSON.stringify({ type: 'notification', notification })}\n\n`] *)
Definition payloadOf (n : Notification) : string :=
  "data: {type:notification,notification:" +:+ body n +:+ "}".

(** [for (const res of set) res.write(payload)] *)
Definition writeAll (payload : string) (s : gset nat) : list Write :=
  (λ res, (res, payload)) <$> elements s.

(** [!hospitalId]: [undefined] and the empty string are falsy. *)
Definition falsy (h : option string) : bool :=
  match h with
  | None => true
  | Some s => bool_decide (s = "")
  end.

(** The writes [broadcastNotification] performs, in order. *)
Definition broadcastNotification (clients : gmap string (gset nat))
           (n : Notification) : list Write :=
  if falsy (hospitalId n) then
    mbind (λ kv : string * gset nat, writeAll (payloadOf n) kv.2)
          (map_to_list clients)
  else
    match clients !! default "" (hospitalId n) with
    | None => []
    | Some s =>
        if bool_decide (size s = 0%nat) then []
        else writeAll (payloadOf n) s
    end.

(** The connections registered for hospital [h]. *)
Definition subscribers (clients : gmap string (gset nat)) (h : string)
  : gset nat :=
  default ∅ (clients !! h).

End NotificationStream.

(** ** The donation handler ([routes/markDonation]) *)

Module MarkDonation.

Import Collection.

(** *** Documents *)

(** Modelled from the spec: the status enumeration of the BloodRequest
    schema ([models/BloodRequest], not among the sources), as the data
    model lists it. *)
Inductive RequestStatus := active | fulfilled | cancelled | expired.

Global Instance RequestStatus_eq_dec : EqDecision RequestStatus.
Proof. solve_decision. Defined.

(** A blood request, with the fields the routes read and write; its
    [_id] is the key under which it is stored. *)
Record BloodRequest := mkBloodRequest {
  hospitalId : string;
  bloodGroup : string;
  quantity : Z;
  urgency : string;
  status : RequestStatus;
  requiredBy : option Z;
  confirmedUnits : Z;
  activeTokens : list string;
  fulfilledAt : option Z;
  batchInProgress : bool;
  createdAt : option Z
}.

(** The [LocationSchema] of the route file. *)
Record Location := mkLocation {
  address : option string;
  latitude : option Z;
  longitude : option Z;
  userName : option string;
  rollNumber : option string;
  mobileNumber : option string;
  donorId : option string;
  requestId : option string;
  token : option string;
  accuracy : option Z;
  timestamp : option Z
}.

(** A registered donor, stored under its [_id.toString()]. *)
Record Donor := mkDonor {
  uniqueId : option string;
  name : string;
  phone : string;
  donorBloodGroup : option string;
  lastDonationDate : option Z
}.

(** The two statuses the routes give a history record. *)
Inductive DonationStatus := accepted | completed.

Global Instance DonationStatus_eq_dec : EqDecision DonationStatus.
Proof. solve_decision. Defined.

(** A history record, with the fields [DonationHistory.create] is given. *)
Record DonationHistory := mkDonationHistory {
  dhDonorId : string;
  bloodRequestId : string;
  dhHospitalId : string;
  dhDonorName : string;
  dhDonorPhone : string;
  dhDonorBloodGroup : string;
  dhStatus : DonationStatus;
  completedAt : option Z;
  dhLat : Z;
  dhLng : Z;
  dhAddress : string;
  notes : string
}.

(** The process and the database the handler runs against. *)
Record World := mkWorld {
  processingLock : gset string;
  histories : gmap string DonationHistory;
  locations : gmap string Location;
  donors : gmap string Donor;
  requests : gmap string BloodRequest
}.

Definition withLock (l : gset string) (w : World) : World :=
  mkWorld l (histories w) (locations w) (donors w) (requests w).
Definition withHistories (h : gmap string DonationHistory) (w : World) : World :=
  mkWorld (processingLock w) h (locations w) (donors w) (requests w).
Definition withLocations (l : gmap string Location) (w : World) : World :=
  mkWorld (processingLock w) (histories w) l (donors w) (requests w).
Definition withDonors (d : gmap string Donor) (w : World) : World :=
  mkWorld (processingLock w) (histories w) (locations w) d (requests w).
Definition withRequests (r : gmap string BloodRequest) (w : World) : World :=
  mkWorld (processingLock w) (histories w) (locations w) (donors w) r.

(** [req.body] *)
Record Body := mkBody {
  bodyDonorId : option string;
  bodyDonorName : option string;
  bodyRequestId : option string
}.

(** Every awaited database call of the handler; each may reject. *)
Inductive DbOp :=
| HistoryFindOne | LocationFindOne | LocationFindDirect
| DonorFindByUniqueId | DonorFindByPhone | DonorFindByName
| RequestFindById | RequestFindMatching | RequestCreate
| HistoryCreate | DonorSave | DonorRefind | DonorRefindSave
| RequestSaveExpired | RequestFindOneAndUpdate | RequestSaveFulfilled
| LocationRefind | LocationDeleteOne.

(** What one call gets from outside the handler: the clock (the reads
    of [Date.now()] and [new Date()] within one call are taken at one
    instant), the object ids minted for the documents it creates, and
    which database calls reject. *)
Record Env := mkEnv {
  now : Z;
  newRequestId : string;
  newHospitalId : string;
  newDonationId : string;
  faults : DbOp → bool
}.

(** What the caller of the route observes. *)
Inductive Outcome :=
| DonorIdRequired                    (* 400 'Donor ID required' *)
| AlreadyProcessing                  (* 400 'Processing in progress' *)
| AlreadyDonated                     (* 400 'Already donated' *)
| DonorNotFound                      (* 404 not found on live map *)
| RequestExpired                     (* 400 'Blood request has expired.' *)
| ReservationConflict                (* 400 status 'closed' *)
| DatabaseUpdateFailed               (* 500 'Database update failed' *)
| Completed (d : DonationHistory)    (* 200 success *)
| Unhandled.                         (* the handler's promise rejects *)

(** *** Control flow of an async handler body *)

Inductive Flow (A : Type) :=
| Next (a : A)          (* go on with the next statement *)
| Reply (o : Outcome)   (* [return res.status(..).json(..)] *)
| Throw.                (* an exception is propagating *)
Global Arguments Next {A} a.
Global Arguments Reply {A} o.
Global Arguments Throw {A}.

Definition Handler (A : Type) : Type := World → World * Flow A.

Global Instance Handler_ret : MRet Handler := λ A a w, (w, Next a).
Global Instance Handler_bind : MBind Handler := λ A B k m w,
  match m w with
  | (w', Next a) => k a w'
  | (w', Reply o) => (w', Reply o)
  | (w', Throw) => (w', Throw)
  end.

Definition reply {A} (o : Outcome) : Handler A := λ w, (w, Reply o).
Definition throw {A} : Handler A := λ w, (w, Throw).
Definition gets {A} (f : World → A) : Handler A := λ w, (w, Next (f w)).
Definition modify (f : World → World) : Handler unit := λ w, (f w, Next ()).

(** [try { body } catch (err) { handler }] *)
Definition tryCatch {A} (body handler : Handler A) : Handler A := λ w,
  match body w with
  | (w', Throw) => handler w'
  | r => r
  end.

(** *** JavaScript values *)

(** Truthiness of an optional string: [undefined] and [''] are falsy. *)
Definition truthy (s : option string) : option string :=
  match s with
  | Some s' => if bool_decide (s' = "") then None else Some s'
  | None => None
  end.

(** [a || b] on optional strings. *)
Definition orString (a b : option string) : option string :=
  match truthy a with Some s => Some s | None => b end.

(** [x || 0] on optional numbers. *)
Definition orZero (x : option Z) : Z := default 0 x.

(** The white space of [\s] and of [trim] within ASCII: space, tab,
    line feed, vertical tab, form feed, carriage return. *)
Definition isSpace (c : ascii) : bool :=
  let n := nat_of_ascii c in
  ((n =? 32) || ((9 <=? n) && (n <=? 13)))%nat.

(** Their other white-space characters, by the bytes of their UTF-8
    encoding: U+00A0 on two bytes; U+1680, U+2000 to U+200A, U+2028,
    U+2029, U+202F, U+205F, U+3000 and U+FEFF on three. *)
Definition isSpace2 (b1 b2 : nat) : bool :=
  ((b1 =? 194) && (b2 =? 160))%nat.

Definition isSpace3 (b1 b2 b3 : nat) : bool :=
  (((b1 =? 225) && (b2 =? 154) && (b3 =? 128)) ||
   ((b1 =? 226) && (b2 =? 128) &&
    (((128 <=? b3) && (b3 <=? 138)) || (b3 =? 168) || (b3 =? 169) ||
     (b3 =? 175))) ||
   ((b1 =? 226) && (b2 =? 129) && (b3 =? 159)) ||
   ((b1 =? 227) && (b2 =? 128) && (b3 =? 128)) ||
   ((b1 =? 239) && (b2 =? 187) && (b3 =? 191)))%nat.

(** The number of bytes of the white-space character [s] starts with;
    0 when it starts with none. *)
Definition spaceLength (s : string) : nat :=
  match s with
  | String c1 rest =>
      if isSpace c1 then 1%nat
      else
        match rest with
        | String c2 rest' =>
            if isSpace2 (nat_of_ascii c1) (nat_of_ascii c2) then 2%nat
            else
              match rest' with
              | String c3 _ =>
                  if isSpace3 (nat_of_ascii c1) (nat_of_ascii c2)
                              (nat_of_ascii c3)
                  then 3%nat else 0%nat
              | EmptyString => 0%nat
              end
        | EmptyString => 0%nat
        end
  | EmptyString => 0%nat
  end.

(** [s.replace(/\s+/g, '')], byte by byte: [skip] bytes of a
    white-space character are still to be dropped. *)
Fixpoint stripFrom (skip : nat) (s : string) : string :=
  match s with
  | EmptyString => EmptyString
  | String c s' =>
      match skip with
      | S n => stripFrom n s'
      | O =>
          match spaceLength s with
          | S n => stripFrom n s'
          | O => String c (stripFrom 0 s')
          end
      end
  end.

Definition stripSpaces (s : string) : string := stripFrom 0 s.

Fixpoint trimStartFrom (skip : nat) (s : string) : string :=
  match s with
  | EmptyString => EmptyString
  | String c s' =>
      match skip with
      | S n => trimStartFrom n s'
      | O =>
          match spaceLength s with
          | S n => trimStartFrom n s'
          | O => s
          end
      end
  end.

Definition trimStart (s : string) : string := trimStartFrom 0 s.

(** The string up to the white space it ends with: cut at the first
    position from which only white space follows. *)
Fixpoint trimEnd (s : string) : string :=
  match s with
  | EmptyString => EmptyString
  | String c s' =>
      match trimStart s with
      | EmptyString => EmptyString
      | String _ _ => String c (trimEnd s')
      end
  end.

(** [s.trim()] *)
Definition trim (s : string) : string := trimEnd (trimStart s).

(** [token && !token.startsWith('DIRECT_')]: the reservation checks the
    token only in this case. *)
Definition tokenChecked (tok : option string) : option string :=
  match truthy tok with
  | Some t => if String.prefix "DIRECT_" t then None else Some t
  | None => None
  end.

(** *** The handler *)

Section Handler.

(** [compileNameRegex u] stands for
    [new RegExp('^' + u + '$', 'i')]: [None] when the constructor
    raises a syntax error, else the test the query applies to a
    donor's [name]. *)
Variable compileNameRegex : string → option (string → bool).

Variable env : Env.

(** [await op]: the call rejects, or runs. *)
Definition db {A} (op : DbOp) (m : Handler A) : Handler A := λ w,
  if faults env op then (w, Throw) else m w.

(** Modelled from the spec: the BloodRequest schema
    ([models/BloodRequest]) is not among the sources; the fields the
    handler does not pass to [BloodRequest.create] take the values the
    data model gives a new request: no confirmed unit, no active
    token, no fulfilment time, no batch running, created now. *)
Definition newRequest (bg : string) : BloodRequest :=
  {| hospitalId := newHospitalId env;
     bloodGroup := bg;
     quantity := 1;
     urgency := "medium";
     status := active;
     requiredBy := Some (now env + 24 * 60 * 60 * 1000);
     confirmedUnits := 0;
     activeTokens := [];
     fulfilledAt := None;
     batchInProgress := false;
     createdAt := Some (now env) |}.

(** What [newRequest] fixes whatever the blood group. *)
Definition created (r : BloodRequest) : Prop :=
  hospitalId r = newHospitalId env ∧ quantity r = 1 ∧ status r = active ∧
  requiredBy r = Some (now env + 24 * 60 * 60 * 1000) ∧
  confirmedUnits r = 0 ∧ activeTokens r = [].

Definition unlock (d : string) (w : World) : World :=
  withLock (processingLock w ∖ {[d]}) w.

(** The world once the guard is taken for [d]. *)
Definition locked (d : string) (w : World) : World :=
  withLock ({[d]} ∪ processingLock w) w.

(** Lines 44-52: the in-memory lock. *)
Definition acquireLock (d : string) : Handler unit :=
  held ← gets (λ w, bool_decide (d ∈ processingLock w));
  if held : bool then reply AlreadyProcessing
  else modify (λ w, withLock ({[d]} ∪ processingLock w) w).

Definition isCompletedBy (d : string) (h : DonationHistory) : bool :=
  bool_decide (dhDonorId h = d) && bool_decide (dhStatus h = completed).

(** Lines 54-65: any completed donation of this donor id ends the
    call; the lock is kept.  [existingDonation.completedAt.getTime()]
    raises when the record has no completion date. *)
Definition checkExistingDonation (d : string) : Handler unit :=
  existingDonation ←
    db HistoryFindOne
       (gets (λ w, findOneSortDesc (isCompletedBy d) completedAt (histories w)));
  match existingDonation with
  | Some (_, h) =>
      match completedAt h with
      | Some _ => reply AlreadyDonated
      | None => throw
      end
  | None => mret ()
  end.

Definition hasDonorId (d : string) (l : Location) : bool :=
  bool_decide (donorId l = Some d).

(** Lines 67-87: the location record, through the model and then
    through the raw collection. *)
Definition findLocation (d : string) : Handler (string * Location) :=
  first ← db LocationFindOne (gets (λ w, findOne (hasDonorId d) (locations w)));
  locationRecord ←
    match first with
    | Some _ => mret first
    | None =>
        db LocationFindDirect (gets (λ w, findOne (hasDonorId d) (locations w)))
    end;
  match locationRecord with
  | Some l => mret l
  | None => modify (unlock d);; reply DonorNotFound
  end.

Definition hasUniqueId (d : string) (x : Donor) : bool :=
  bool_decide (uniqueId x = Some d).

Definition hasPhone (m : string) (x : Donor) : bool :=
  bool_decide (phone x = m) || bool_decide (phone x = stripSpaces m).

(** Lines 95-115: the donor profile, by unique id, else by phone, else
    by name. *)
Definition resolveDonor (d : string) (l : Location)
  : Handler (option (string * Donor)) :=
  byId ← db DonorFindByUniqueId (gets (λ w, findOne (hasUniqueId d) (donors w)));
  byPhone ←
    match byId, truthy (mobileNumber l) with
    | None, Some m =>
        db DonorFindByPhone (gets (λ w, findOne (hasPhone m) (donors w)))
    | _, _ => mret byId
    end;
  match byPhone, truthy (userName l) with
  | None, Some u =>
      match compileNameRegex (trim u) with
      | Some test =>
          db DonorFindByName (gets (λ w, findOne (λ x, test (name x)) (donors w)))
      | None => throw
      end
  | _, _ => mret byPhone
  end.

(** [donorRecord?.bloodGroup], when truthy. *)
Definition bloodGroupOf (donorRecord : option (string * Donor)) : option string :=
  match donorRecord with
  | Some (_, x) => truthy (donorBloodGroup x)
  | None => None
  end.

Definition isActiveFor (bg : string) (r : BloodRequest) : bool :=
  bool_decide (bloodGroup r = bg) && bool_decide (status r = active).

(** [BloodRequest.create]: the insert is refused on a duplicate key. *)
Definition createRequest (bg : string) : Handler (string * BloodRequest) :=
  db RequestCreate
     (taken ← gets (λ w, requests w !! newRequestId env);
      match taken with
      | Some _ => throw
      | None =>
          modify (λ w, withRequests (<[newRequestId env := newRequest bg]> (requests w)) w);;
          mret (newRequestId env, newRequest bg)
      end).

(** Lines 119-152: the target request. *)
Definition resolveRequest (explicit : option string) (l : Location)
           (donorRecord : option (string * Donor))
  : Handler (string * BloodRequest) :=
  let actualRequestId := orString explicit (requestId l) in
  byId ←
    match truthy actualRequestId with
    | Some rid =>
        db RequestFindById (gets (λ w, (λ r, (rid, r)) <$> requests w !! rid))
    | None => mret None
    end;
  matching ←
    match byId, bloodGroupOf donorRecord with
    | None, Some bg =>
        db RequestFindMatching
           (gets (λ w, findOneSortDesc (isActiveFor bg) createdAt (requests w)))
    | _, _ => mret byId
    end;
  match matching with
  | Some r => mret r
  | None => createRequest (default "O+" (bloodGroupOf donorRecord))
  end.

(** Lines 154-170: the history record, written before the request is
    touched. *)
Definition donationOf (d : string) (donorName : option string) (l : Location)
           (donorRecord : option (string * Donor)) (rid : string)
           (r : BloodRequest) : DonationHistory :=
  {| dhDonorId := match donorRecord with Some (k, _) => k | None => d end;
     bloodRequestId := rid;
     dhHospitalId := hospitalId r;
     dhDonorName :=
       match donorRecord with
       | Some (_, x) => name x
       | None =>
           default "Unknown Donor" (orString (userName l) (truthy donorName))
       end;
     dhDonorPhone :=
       match donorRecord with
       | Some (_, x) => phone x
       | None => default "0000000000" (truthy (mobileNumber l))
       end;
     dhDonorBloodGroup :=
       match donorRecord with
       | Some (_, x) => default "" (donorBloodGroup x)
       | None => "Unknown"
       end;
     dhStatus := completed;
     completedAt := Some (now env);
     dhLat := orZero (latitude l);
     dhLng := orZero (longitude l);
     dhAddress := default "Location Shared" (truthy (address l));
     notes := "Manual Entry: " +:+ d |}.

Definition createDonation (donation : DonationHistory) : Handler DonationHistory :=
  db HistoryCreate
     (taken ← gets (λ w, histories w !! newDonationId env);
      match taken with
      | Some _ => throw
      | None =>
          modify (λ w, withHistories (<[newDonationId env := donation]> (histories w)) w);;
          mret donation
      end).

Definition stampDonor (x : Donor) : Donor :=
  mkDonor (uniqueId x) (name x) (phone x) (donorBloodGroup x) (Some (now env)).

(** [doc.lastDonationDate = new Date(); await doc.save()] *)
Definition saveLastDonation (k : string) : Handler unit :=
  modify (λ w, withDonors (alter stampDonor k (donors w)) w).

(** Lines 174-191. *)
Definition updateLastDonation (d : string) (donorRecord : option (string * Donor))
  : Handler unit :=
  match donorRecord with
  | Some (k, _) => db DonorSave (saveLastDonation k)
  | None =>
      tryCatch
        (again ← db DonorRefind (gets (λ w, findOne (hasUniqueId d) (donors w)));
         match again with
         | Some (k, _) => db DonorRefindSave (saveLastDonation k)
         | None => mret ()
         end)
        (mret ())
  end.

Definition expire (r : BloodRequest) : BloodRequest :=
  mkBloodRequest (hospitalId r) (bloodGroup r) (quantity r) (urgency r)
    expired (requiredBy r) (confirmedUnits r) [] (fulfilledAt r)
    (batchInProgress r) (createdAt r).

Definition increment (r : BloodRequest) : BloodRequest :=
  mkBloodRequest (hospitalId r) (bloodGroup r) (quantity r) (urgency r)
    (status r) (requiredBy r) (confirmedUnits r + 1) (activeTokens r)
    (fulfilledAt r) (batchInProgress r) (createdAt r).

Definition fulfil (r : BloodRequest) : BloodRequest :=
  mkBloodRequest (hospitalId r) (bloodGroup r) (quantity r) (urgency r)
    fulfilled (requiredBy r) (confirmedUnits r) [] (Some (now env))
    false (createdAt r).

(** A request after a reservation that passed the filter: incremented,
    and closed when the quota is then met. *)
Definition reserved (r0 : BloodRequest) : BloodRequest :=
  if bool_decide (quantity r0 ≤ confirmedUnits r0 + 1)
  then fulfil (increment r0)
  else increment r0.

(** [status === 'active' && requiredBy && new Date() > requiredBy] *)
Definition pastDeadline (r : BloodRequest) : bool :=
  bool_decide (status r = active) &&
  match requiredBy r with
  | Some deadline => bool_decide (deadline < now env)
  | None => false
  end.

(** The filter of [findOneAndUpdate]. *)
Definition reservable (tok : option string) (r : BloodRequest) : bool :=
  bool_decide (status r = active) &&
  bool_decide (confirmedUnits r < quantity r) &&
  match tokenChecked tok with
  | Some t => bool_decide (t ∈ activeTokens r)
  | None => true
  end.

(** [BloodRequest.findOneAndUpdate({_id, ...}, {$inc: {confirmedUnits: 1}},
    {new: true})], one step of the store. *)
Definition findOneAndUpdate (rid : string) (tok : option string)
  : Handler (option BloodRequest) := λ w,
  match requests w !! rid with
  | Some r =>
      if reservable tok r
      then (withRequests (<[rid := increment r]> (requests w)) w,
            Next (Some (increment r)))
      else (w, Next None)
  | None => (w, Next None)
  end.

(** Lines 193-243. *)
Definition updateRequest (d : string) (l : Location) (rid : string)
           (bloodRequest : BloodRequest) : Handler unit :=
  tryCatch
    ((if pastDeadline bloodRequest then
        db RequestSaveExpired
           (modify (λ w, withRequests (alter expire rid (requests w)) w));;
        modify (unlock d);;
        reply RequestExpired
      else mret ());;
     updatedRequest ← db RequestFindOneAndUpdate (findOneAndUpdate rid (token l));
     match updatedRequest with
     | None => modify (unlock d);; reply ReservationConflict
     | Some u =>
         if bool_decide (quantity u ≤ confirmedUnits u) then
           db RequestSaveFulfilled
              (modify (λ w, withRequests (alter fulfil rid (requests w)) w))
         else mret ()
     end)
    (modify (unlock d);; reply DatabaseUpdateFailed).

(** Lines 245-254. *)
Definition removeFromMap (d : string) : Handler unit :=
  tryCatch
    (locationRecord ←
       db LocationRefind (gets (λ w, findOne (hasDonorId d) (locations w)));
     match locationRecord with
     | Some (k, _) =>
         db LocationDeleteOne
            (modify (λ w, withLocations (delete k (locations w)) w))
     | None => mret ()
     end)
    (mret ()).

(** What lines 36-152 leave in scope for the rest of the body. *)
Record Resolution := mkResolution {
  resDonorId : string;
  resLocation : Location;
  resDonor : option (string * Donor);
  resRequestId : string;
  resRequest : BloodRequest
}.

(** Lines 36-152: guard, history check and the three resolutions. *)
Definition resolve (body : Body) : Handler Resolution :=
  match truthy (bodyDonorId body) with
  | None => reply DonorIdRequired
  | Some d =>
      acquireLock d;;
      checkExistingDonation d;;
      '(_, locationRecord) ← findLocation d;
      donorRecord ← resolveDonor d locationRecord;
      '(rid, bloodRequest) ←
        resolveRequest (bodyRequestId body) locationRecord donorRecord;
      mret (mkResolution d locationRecord donorRecord rid bloodRequest)
  end.

(** Lines 154-268: history record, donor profile, reservation, map. *)
Definition commit (body : Body) (res : Resolution) : Handler Empty_set :=
  donation ←
    createDonation
      (donationOf (resDonorId res) (bodyDonorName body) (resLocation res)
                  (resDonor res) (resRequestId res) (resRequest res));
  updateLastDonation (resDonorId res) (resDonor res);;
  updateRequest (resDonorId res) (resLocation res) (resRequestId res)
                (resRequest res);;
  removeFromMap (resDonorId res);;
  reply (Completed donation).

(** The body of the outer [try]. *)
Definition handlerBody (body : Body) : Handler Empty_set :=
  resolve body ≫= commit body.

(** [POST /mark-donation].  The outer [catch] names [donorId], which
    is declared inside the [try] block: evaluating
    [processingLock.delete(donorId)] there raises a reference error,
    so nothing is released and no response is sent. *)
Definition confirmDonation (body : Body) (w : World) : World * Outcome :=
  match handlerBody body w with
  | (w', Reply o) => (w', o)
  | (w', Throw) => (w', Unhandled)
  | (_, Next impossible) => match impossible with end
  end.

End Handler.

(** A sequence of calls, each with its own environment. *)
Fixpoint confirmDonations (re : string → option (string → bool))
         (calls : list (Env * Body)) (w : World) : World :=
  match calls with
  | [] => w
  | (e, b) :: rest => confirmDonations re rest (confirmDonation re e b w).1
  end.

(** No database call rejects. *)
Definition reliable (e : Env) : Prop := ∀ op, faults e op = false.

(** *** Vocabulary of the statements *)

(** No request has more confirmed units than its quantity. *)
Definition capped (w : World) : Prop :=
  ∀ k r, requests w !! k = Some r → confirmedUnits r ≤ quantity r.

(** The single writes the handler sends to the request collection, each
    of them atomic in the store: the insert of a created request, the
    expiry save, the guarded increment, the fulfilment save.  Calls that
    overlap in time interleave such writes. *)
Inductive ledgerStep : relation (gmap string BloodRequest) :=
| step_create e k r R :
    R !! k = None → created e r → ledgerStep R (<[k := r]> R)
| step_expire k R :
    ledgerStep R (alter expire k R)
| step_reserve tok k r0 R :
    R !! k = Some r0 → reservable tok r0 = true →
    ledgerStep R (<[k := increment r0]> R)
| step_fulfil e k R :
    ledgerStep R (alter (fulfil e) k R).

(** The ledger invariant: [0 <= confirmedUnits <= quantity]. *)
Definition bounded (w : World) : Prop :=
  ∀ k r, requests w !! k = Some r → 0 ≤ confirmedUnits r ≤ quantity r.

(** A closed request holds no active token. *)
Definition closedClean (w : World) : Prop :=
  ∀ k r, requests w !! k = Some r → status r ≠ active → activeTokens r = [].

(** What one call does to the request collection once its target
    [(rid, r)] is resolved: nothing, the expiry save, or the guarded
    increment, alone (the fulfilment save rejected) or with the
    fulfilment save. *)
Definition ledgerMove (e : Env) (tok : option string) (rid : string)
           (r : BloodRequest) (R R' : gmap string BloodRequest) : Prop :=
  R' = R ∨
  (pastDeadline e r = true ∧ R' = alter expire rid R) ∨
  ∃ r0, R !! rid = Some r0 ∧ reservable tok r0 = true ∧
        (R' = <[rid := increment r0]> R ∨ R' = <[rid := reserved e r0]> R).


(** The exits after which the guard still holds the donor id of the call:
    a completed donation, [AlreadyDonated], and the handler's promise
    rejecting (the outer [catch] fails before it releases anything). *)
Definition keepsGuard (o : Outcome) : Prop :=
  match o with
  | Completed _ | AlreadyDonated | Unhandled => True
  | _ => False
  end.

(** The exits that release the guard. *)
Definition releasesGuard (o : Outcome) : Prop :=
  match o with
  | DonorNotFound | RequestExpired | ReservationConflict
  | DatabaseUpdateFailed => True
  | _ => False
  end.

(** The location record as the recency filter reads it. *)
Definition entryOf (k : string) (l : Location) : LocationFilter.Entry :=
  LocationFilter.mkEntry k (userName l) (timestamp l) None None.

(** Within the one-hour freshness window at [t]. *)
Definition isLive (t : Z) (k : string) (l : Location) : bool :=
  LocationFilter.isRecent t (JsNumber.ofZ 1) (entryOf k l).

End MarkDonation.

(** ** The rest of the notification hub ([utils/notificationStream]) *)

Module NotificationRegistry.

Import NotificationStream.

(** [getConnectedClients()]: the number of keys of the map, and for each
    hospital the size of its set, in the map's order. *)
Definition getConnectedClients (clients : gmap string (gset nat))
  : nat * list (string * nat) :=
  (size clients,
   (λ kv : string * gset nat, (kv.1, size kv.2)) <$> map_to_list clients).

(** What happens to the registry: a connection is opened for a hospital
    ([addClient]), or a registered connection emits ['close'], which
    runs the [removeClient] that [addClient] hooked on it. *)
Inductive HubEvent :=
| Connect (h : string) (res : nat)
| Close (h : string) (res : nat).

Definition hubStep (clients : gmap string (gset nat)) (ev : HubEvent)
  : gmap string (gset nat) :=
  match ev with
  | Connect h res => addClient h res clients
  | Close h res => removeClient h res clients
  end.

Definition hubRun (evs : list HubEvent) (clients : gmap string (gset nat))
  : gmap string (gset nat) :=
  foldl hubStep clients evs.

(** No hospital is kept with an empty set of connections. *)
Definition noEmptySet (clients : gmap string (gset nat)) : Prop :=
  ∀ h s, clients !! h = Some s → s ≠ ∅.

End NotificationRegistry.

(** ** The rest of the recency utilities ([utils/locationFilter]) *)

Module LocationExpiry.

Import JsNumber LocationFilter.


Record TimeRemaining := mkTimeRemaining {
  expired : bool;
  minutes : spec_float;
  seconds : spec_float;
  totalMs : option spec_float          (* absent from the expired answer *)
}.

(** [getTimeRemaining(locationTime, maxAgeHours)]; [locationTime] is
    [None] for an Invalid Date, whose [getTime()] is [NaN]; so is the
    expiry time when it leaves the range of [Date]: then
    [remainingMs <= 0] is false and every number derived is [NaN]. *)
Definition getTimeRemaining (now : Z) (locationTime : option Z)
           (maxAgeHours : spec_float) : TimeRemaining :=
  let maxAgeMs := maxAgeMs maxAgeHours in
  let expiryTime := timeClip (fadd (getTime locationTime) maxAgeMs) in
  let remainingMs := fsub (getTime expiryTime) (ofZ now) in
  if SFleb remainingMs (ofZ 0) then
    mkTimeRemaining true (ofZ 0) (ofZ 0) None
  else
    mkTimeRemaining false
      (floor (fdiv remainingMs (fmul (ofZ 60) (ofZ 1000))))
      (floor (fdiv (frem remainingMs (fmul (ofZ 60) (ofZ 1000))) (ofZ 1000)))
      (Some remainingMs).

Record ExpiryInfo := mkExpiryInfo {
  addedAt : option Z;
  expiresAt : option Z;
  timeRemaining : TimeRemaining;
  isExpiringSoon : bool
}.

(** [addExpiryInfo(location, maxAgeHours)]: the location, unchanged, with
    its [expiryInfo]. *)
Definition addExpiryInfo (now : Z) (location : Entry)
           (maxAgeHours : spec_float) : Entry * ExpiryInfo :=
  let locationTime := locationTime location in
  let remaining := getTimeRemaining now locationTime maxAgeHours in
  (location,
   {| addedAt := locationTime;
      expiresAt := timeClip (fadd (getTime locationTime) (maxAgeMs maxAgeHours));
      timeRemaining := remaining;
      isExpiringSoon :=
        negb (expired remaining) && SFltb (minutes remaining) (ofZ 10) |}).

End LocationExpiry.

(** ** The change-stream watcher ([utils/locationWatcher]) *)

Module LocationWatcher.

Import Collection MarkDonation.

Definition isDigit (c : ascii) : bool :=
  let n := nat_of_ascii c in ((48 <=? n) && (n <=? 57))%nat.

(** [s.replace(/\D/g, '')] *)
Fixpoint digitsOnly (s : string) : string :=
  match s with
  | EmptyString => EmptyString
  | String c s' =>
      if isDigit c then String c (digitsOnly s') else digitsOnly s'
  end.

(** The two awaited lookups of the ['change'] handler. *)
Inductive WatchOp := WatchRequestFind | WatchDonorFind.

(** The [$or] of the donor lookup: the number as sent, or its digits
    alone, after [+91] or after [+]. *)
Definition matchesPhone (mobile : string) (x : Donor) : bool :=
  let cleanPhone := digitsOnly mobile in
  bool_decide (phone x = mobile) ||
  bool_decide (phone x = "+91" +:+ cleanPhone) ||
  bool_decide (phone x = cleanPhone) ||
  bool_decide (phone x = "+" +:+ cleanPhone).

(** [status === 'fulfilled' || status === 'cancelled' ||
    confirmedUnits >= quantity] *)
Definition isClosed (r : BloodRequest) : bool :=
  bool_decide (status r = fulfilled) ||
  bool_decide (status r = cancelled) ||
  bool_decide (quantity r ≤ confirmedUnits r).

(** The ephemeral notification: its target and its message (the body
    stands for the serialised object, of which the message is the part
    built from stored data; a donor without blood group prints as
    [undefined]). *)
Definition ephemeralNotification (newLocation : Location) (r : BloodRequest)
           (donor : option (string * Donor)) : NotificationStream.Notification :=
  let donorName :=
    match donor with
    | Some (_, x) => name x
    | None => default "Unknown Donor" (truthy (userName newLocation))
    end in
  let donorBloodGroup :=
    match donor with
    | Some (_, x) => default "undefined" (MarkDonation.donorBloodGroup x)
    | None => "Unknown"
    end in
  NotificationStream.mkNotification
    (Some (hospitalId r))
    (donorName +:+ " (" +:+ donorBloodGroup +:+
     ") has shared their location for your " +:+ bloodGroup r +:+
     " blood request").

(** The ['change'] handler on one inserted location: the writes it makes.
    A lookup that rejects is caught and logged, nothing is written. *)
Definition onChange (rejects : WatchOp → bool) (w : World)
           (clients : gmap string (gset nat)) (newLocation : Location)
  : list (nat * string) :=
  if rejects WatchRequestFind then []
  else
    match requestId newLocation ≫= (λ rid, requests w !! rid) with
    | None => []
    | Some bloodRequest =>
        if isClosed bloodRequest then []
        else
          match truthy (mobileNumber newLocation) with
          | Some m =>
              if rejects WatchDonorFind then []
              else
                NotificationStream.broadcastNotification clients
                  (ephemeralNotification newLocation bloodRequest
                     (findOne (matchesPhone m) (donors w)))
          | None =>
              NotificationStream.broadcastNotification clients
                (ephemeralNotification newLocation bloodRequest None)
          end
    end.

End LocationWatcher.

(** ** The read routes of [routes/markDonation] *)

Module DonationRoutes.

Import Collection MarkDonation.

(** The awaited calls of [GET /verify-location/:donorId]. *)
Inductive VerifyOp := ListLocations | DirectFindOne | ModelFindOne | DonorFindOne.

Inductive Verified :=
| NotOnMap                                      (* 404 *)
| OnMap (l : Location) (donor : option Donor)   (* 200 *)
| VerifyFailed.                                 (* 500 *)

(** [GET /verify-location/:donorId] *)
Definition verifyLocation (rejects : VerifyOp → bool) (d : string) (w : World)
  : Verified :=
  if rejects ListLocations then VerifyFailed
  else if rejects DirectFindOne then VerifyFailed
  else
    let directQuery := findOne (hasDonorId d) (locations w) in
    if rejects ModelFindOne then VerifyFailed
    else
      let locationRecord := findOne (hasDonorId d) (locations w) in
      match locationRecord, directQuery with
      | None, None => NotOnMap
      | Some (_, l), _ | None, Some (_, l) =>
          if rejects DonorFindOne then VerifyFailed
          else OnMap l (snd <$> findOne (hasUniqueId d) (donors w))
      end.

(** The order of [.sort({ completedAt: -1 })]: [a] may come before [b]. *)
Definition notEarlier (a b : string * DonationHistory) : Prop :=
  key_lt (completedAt a.2) (completedAt b.2) = false.

Global Instance notEarlier_dec : RelDecision notEarlier.
Proof. intros a b. unfold notEarlier. apply _. Defined.

(** [GET /recent-donations]:
    [DonationHistory.find({ status: 'completed' }).sort({ completedAt: -1 })
    .limit(50)]; [None] is the 500 answer. *)
Definition recentDonations (rejects : bool) (w : World)
  : option (list (string * DonationHistory)) :=
  if rejects then None
  else
    Some (take 50
            (merge_sort notEarlier
               (filter (λ kv, dhStatus kv.2 = completed)
                       (map_to_list (histories w))))).

End DonationRoutes.

(** ** Sharing a location ([routes/donorResponse], [routes/tokenResponse]) *)

Module DonorResponse.

Import Collection MarkDonation.

(** A response token, with the fields the two token routes read and
    write ([models/ResponseToken] is not among the sources); its [_id]
    is the key under which it is stored. *)
Record ResponseToken := mkResponseToken {
  rtToken : string;
  rtRequestId : string;
  rtDonorId : string;
  isUsed : bool
}.

(** The database of the token routes: the tokens and the collections of
    [World]. *)
Record Store := mkStore {
  responseTokens : gmap string ResponseToken;
  world : World
}.

(** The awaited calls of the three routes. *)
Inductive ShareOp :=
| ViewTokenFind | ViewRequestFind | ViewDonorFind
| TokenFindOne | TokenRequestFind | TokenDonorFind | TokenInsertOne | TokenSave
| DirectRequestFind | DirectDonorFindById | DirectDonorFindByUniqueId
| DirectInsertOne.

(** What one call gets from outside: the clock, the [_id] the driver
    mints for the inserted document, and which awaited calls reject. *)
Record ShareEnv := mkShareEnv {
  shareNow : Z;
  insertedId : string;
  rejects : ShareOp → bool
}.

(** [{ token, isUsed: false }] *)
Definition unusedToken (tok : string) (t : ResponseToken) : bool :=
  bool_decide (rtToken t = tok) && negb (isUsed t).

(** [status === 'fulfilled' || status === 'cancelled' ||
    confirmedUnits >= quantity], the flag of [GET /r/:token]. *)
Definition isFulfilled (r : BloodRequest) : bool :=
  bool_decide (status r = fulfilled) ||
  bool_decide (status r = cancelled) ||
  bool_decide (quantity r ≤ confirmedUnits r).

(** The test of the two [POST] routes: the status alone (the third
    status [/donor-location] names, ['completed'], is none a request
    takes). *)
Definition alreadyFulfilled (r : BloodRequest) : bool :=
  bool_decide (status r = fulfilled) || bool_decide (status r = cancelled).

Inductive TokenView :=
| LinkInvalid                       (* 404 'Invalid or expired response link' *)
| LinkRequestGone                   (* 404 'Blood request no longer exists' *)
| LinkDetails (tok : string) (request : BloodRequest) (donor : option Donor)
              (fulfilledFlag : bool)                          (* 200 *)
| LinkFailed.                       (* 500 *)

(** [GET /r/:token] *)
Definition viewToken (env : ShareEnv) (tok : string) (s : Store) : TokenView :=
  if rejects env ViewTokenFind then LinkFailed
  else
    match findOne (unusedToken tok) (responseTokens s) with
    | None => LinkInvalid
    | Some (_, responseToken) =>
        if rejects env ViewRequestFind then LinkFailed
        else if rejects env ViewDonorFind then LinkFailed
        else
          match requests (world s) !! rtRequestId responseToken with
          | None => LinkRequestGone
          | Some request =>
              LinkDetails (rtToken responseToken) request
                          (donors (world s) !! rtDonorId responseToken)
                          (isFulfilled request)
          end
    end.

Inductive Responded :=
| InvalidLink                               (* 404 *)
| RequestMissing                            (* 404 'Blood request not found' *)
| RequestClosed                             (* 400 'Request already fulfilled' *)
| DonorMissing                              (* 404 'Donor not found' *)
| Recorded (locationId : string) (l : Location)   (* 200 *)
| RespondFailed.                            (* 500 *)

Definition markUsed (t : ResponseToken) : ResponseToken :=
  mkResponseToken (rtToken t) (rtRequestId t) (rtDonorId t) true.

Definition withTokens (t : gmap string ResponseToken) (s : Store) : Store :=
  mkStore t (world s).

(** [collection('locations').insertOne(doc)] under the minted id. *)
Definition insertLocation (k : string) (l : Location) (w : World) : World :=
  withLocations (<[k := l]> (locations w)) w.

Inductive Shared :=
| MissingFields                             (* 400 *)
| ShareRequestMissing                       (* 404 *)
| ShareRequestClosed                        (* 400 'Request already fulfilled' *)
| SharedAs (locationId : string) (l : Location)   (* 200 *)
| ShareFailed.                              (* 500 *)

(** [req.body] of [/donor-location]; the coordinates as JSON numbers. *)
Record ShareBody := mkShareBody {
  shareRequestId : option string;
  shareDonorId : option string;
  lat : option Z;
  lng : option Z
}.

(** Truthiness of an optional number: [undefined] and [0] are falsy. *)
Definition truthyNum (x : option Z) : option Z :=
  match x with
  | Some z => if bool_decide (z = 0) then None else Some z
  | None => None
  end.

(** [`DIRECT_${requestId}_${donorId}`] *)
Definition directToken (rid d : string) : string :=
  "DIRECT_" +:+ rid +:+ "_" +:+ d.

Section Routes.

(** The [rollNumber] of the donor document stored under an id, a field
    the [Donor] record leaves out. *)
Variable rollNumberOf : string → option string.

Variable env : ShareEnv.

(** The document [POST /r/:token/respond] inserts, on the fields of the
    location schema. *)
Definition responseLocation (tok : string) (responseToken : ResponseToken)
           (donor : Donor) (latitude longitude : option Z)
           (address : option string) : Location :=
  {| address :=
       Some (default (name donor +:+ " - Response Location") (truthy address));
     latitude := latitude;
     longitude := longitude;
     accuracy := Some 0;
     userName := Some (name donor);
     rollNumber :=
       Some (default "" (truthy (rollNumberOf (rtDonorId responseToken))));
     mobileNumber := Some (phone donor);
     timestamp := Some (shareNow env);
     requestId := Some (rtRequestId responseToken);
     donorId := Some (rtDonorId responseToken);
     token := Some tok |}.

(** [POST /r/:token/respond]; [latitude] and [longitude] are what
    [parseFloat] makes of the body ([None] for [NaN]). *)
Definition respond (tok : string) (latitude longitude : option Z)
           (address : option string) (s : Store) : Store * Responded :=
  if rejects env TokenFindOne then (s, RespondFailed)
  else
    match findOne (unusedToken tok) (responseTokens s) with
    | None => (s, InvalidLink)
    | Some (tk, responseToken) =>
        if rejects env TokenRequestFind then (s, RespondFailed)
        else
          match requests (world s) !! rtRequestId responseToken with
          | None => (s, RequestMissing)
          | Some request =>
              if alreadyFulfilled request then (s, RequestClosed)
              else if rejects env TokenDonorFind then (s, RespondFailed)
              else
                match donors (world s) !! rtDonorId responseToken with
                | None => (s, DonorMissing)
                | Some donor =>
                    let locationData :=
                      responseLocation tok responseToken donor latitude
                                       longitude address in
                    if rejects env TokenInsertOne then (s, RespondFailed)
                    else
                      match locations (world s) !! insertedId env with
                      | Some _ => (s, RespondFailed)
                      | None =>
                          let s1 :=
                            mkStore (responseTokens s)
                                    (insertLocation (insertedId env)
                                                    locationData (world s)) in
                          if rejects env TokenSave then (s1, RespondFailed)
                          else
                            (withTokens (alter markUsed tk (responseTokens s1)) s1,
                             Recorded (insertedId env) locationData)
                      end
                end
          end
    end.

(** The donor lookup of [/donor-location], in its own [try]: by [_id],
    then by unique id; a lookup that rejects leaves what was found so
    far, which is nothing. *)
Definition donorInfoOf (d : string) (w : World) : option (string * Donor) :=
  if rejects env DirectDonorFindById then None
  else
    match donors w !! d with
    | Some x => Some (d, x)
    | None =>
        if rejects env DirectDonorFindByUniqueId then None
        else findOne (hasUniqueId d) (donors w)
    end.

(** The document [/donor-location] inserts. *)
Definition directLocation (rid d : string) (la ln : Z)
           (donorInfo : option (string * Donor)) : Location :=
  {| address :=
       Some match donorInfo with
            | Some (_, x) => name x +:+ " - Current Location"
            | None => "Direct location share"
            end;
     latitude := Some la;
     longitude := Some ln;
     accuracy := Some 0;
     userName :=
       Some match donorInfo with
            | Some (_, x) => name x
            | None => "Donor " +:+ d
            end;
     rollNumber :=
       Some match donorInfo with
            | Some (k, _) => default "" (truthy (rollNumberOf k))
            | None => ""
            end;
     mobileNumber :=
       Some match donorInfo with
            | Some (_, x) => phone x
            | None => ""
            end;
     timestamp := Some (shareNow env);
     requestId := Some rid;
     donorId := Some d;
     token := Some (directToken rid d) |}.

(** [POST /donor-location] *)
Definition shareLocation (body : ShareBody) (w : World) : World * Shared :=
  match truthy (shareRequestId body), truthy (shareDonorId body),
        truthyNum (lat body), truthyNum (lng body) with
  | Some rid, Some d, Some la, Some ln =>
      if rejects env DirectRequestFind then (w, ShareFailed)
      else
        match requests w !! rid with
        | None => (w, ShareRequestMissing)
        | Some bloodRequest =>
            if alreadyFulfilled bloodRequest then (w, ShareRequestClosed)
            else
              let locationData := directLocation rid d la ln (donorInfoOf d w) in
              if rejects env DirectInsertOne then (w, ShareFailed)
              else
                match locations w !! insertedId env with
                | Some _ => (w, ShareFailed)
                | None =>
                    (insertLocation (insertedId env) locationData w,
                     SharedAs (insertedId env) locationData)
                end
        end
  | _, _, _, _ => (w, MissingFields)
  end.

End Routes.

(** A sequence of calls of [POST /r/:token/respond]. *)
Record RespondCall := mkRespondCall {
  callEnv : ShareEnv;
  callToken : string;
  callLatitude : option Z;
  callLongitude : option Z;
  callAddress : option string
}.

Definition respondTo (rollNumberOf : string → option string)
           (c : RespondCall) (s : Store) : Store * Responded :=
  respond rollNumberOf (callEnv c) (callToken c) (callLatitude c)
          (callLongitude c) (callAddress c) s.

Definition respondAll (rollNumberOf : string → option string)
           (calls : list RespondCall) (s : Store) : Store :=
  foldl (λ s c, (respondTo rollNumberOf c s).1) s calls.

(** No two stored tokens carry the same string. *)
Definition distinctTokens (s : Store) : Prop :=
  ∀ k1 k2 t1 t2,
    responseTokens s !! k1 = Some t1 → responseTokens s !! k2 = Some t2 →
    rtToken t1 = rtToken t2 → k1 = k2.

(** Every stored token with string [tok] has been used. *)
Definition spent (tok : string) (s : Store) : Prop :=
  ∀ k t, responseTokens s !! k = Some t → rtToken t = tok → isUsed t = true.

End DonorResponse.

(** ** Concrete scenarios

    Small worlds on which the statements below are exercised. *)

Module Scenarios.

Import MarkDonation.

(** A stand-in for the regular-expression engine: exact comparison. *)
Definition exactName : string → option (string → bool) :=
  λ u, Some (String.eqb u).

(** A call at time 10 000 000 ms during which no database call rejects. *)
Definition calm : Env :=
  mkEnv 10000000 "R-new" "H-new" "DH-1" (λ _, false).

(** The same call, with the first history lookup rejected. *)
Definition stormy : Env :=
  mkEnv 10000000 "R-new" "H-new" "DH-1"
        (λ op, match op with HistoryFindOne => true | _ => false end).

Definition callFor (d : string) : Body := mkBody (Some d) None None.

(** Two units wanted, none confirmed, one invited donor. *)
Definition openRequest : BloodRequest :=
  mkBloodRequest "H1" "A+" 2 "high" active (Some 20000000) 0 ["T1"]
                 None false (Some 5).

(** One unit wanted and confirmed. *)
Definition closedRequest : BloodRequest :=
  mkBloodRequest "H1" "A+" 1 "high" fulfilled (Some 20000000) 1 []
                 (Some 9000000) false (Some 5).

(** Still active, deadline passed. *)
Definition lateRequest : BloodRequest :=
  mkBloodRequest "H1" "A+" 2 "high" active (Some 9000000) 0 ["T1"]
                 None false (Some 5).

(** One unit wanted, none confirmed. *)
Definition lastUnitRequest : BloodRequest :=
  mkBloodRequest "H1" "A+" 1 "high" active (Some 20000000) 0 ["T1"]
                 None false (Some 5).

Definition locationOf (d : string) (rid tok : option string) (t : Z)
  : Location :=
  mkLocation None None None (Some "Ann") None None (Some d) rid tok None
             (Some t).

(** Submitted through the SMS link, just now. *)
Definition invited : Location := locationOf "D1" (Some "R1") (Some "T1") 10000000.

(** Submitted with no token at all. *)
Definition tokenless : Location := locationOf "D1" (Some "R1") None 10000000.

(** Submitted two hours ago. *)
Definition stale : Location := locationOf "D1" (Some "R1") (Some "T1") 2800000.

Definition ann : Donor := mkDonor (Some "D1") "Ann" "555" (Some "A+") None.

Definition priorDonation : DonationHistory :=
  mkDonationHistory "D1" "R0" "H1" "Ann" "555" "A+" completed (Some 1000)
                    0 0 "Ward 3" "".

Definition worldWith (l : Location) (r : BloodRequest) : World :=
  mkWorld ∅ ∅ {["L1" := l]} ∅ {["R1" := r]}.

(** The same, with Ann registered as a donor. *)
Definition worldWithAnn (l : Location) (r : BloodRequest) : World :=
  mkWorld ∅ ∅ {["L1" := l]} {["A1" := ann]} {["R1" := r]}.

(** Ann has a completed donation on record. *)
Definition worldAfterDonation : World :=
  mkWorld ∅ {["DH-0" := priorDonation]} {["L1" := invited]} ∅
          {["R1" := openRequest]}.

(** Two connections on hospital H1, one on H2. *)
Definition wards : gmap string (gset nat) :=
  NotificationStream.addClient "H2" 3%nat
    (NotificationStream.addClient "H1" 2%nat
       (NotificationStream.addClient "H1" 1%nat ∅)).

Definition forH1 : NotificationStream.Notification :=
  NotificationStream.mkNotification (Some "H1") "{title:update}".

Definition entryAt (k : string) (t : Z) : LocationFilter.Entry :=
  LocationFilter.mkEntry k None (Some t) None None.

End Scenarios.

(** More worlds, for the routes around the handler. *)

Module MoreScenarios.

Import MarkDonation DonorResponse Scenarios.

(** A stand-in for the regular-expression engine that refuses an
    unbalanced parenthesis, as [new RegExp('^($', 'i')] does. *)
Definition strictName : string → option (string → bool) :=
  λ u, if String.eqb u "(" then None else Some (String.eqb u).

(** A location whose user name is no valid pattern. *)
Definition oddName : Location :=
  mkLocation None None None (Some "(") None None (Some "D1") (Some "R1")
             (Some "T1") None (Some 10000000).

(** A second donor on the map, for the same request; the user name is
    that of Ann's profile. *)
Definition secondDonor : Location :=
  locationOf "D2" (Some "R1") (Some "T1") 10000000.

Definition laterDonation : DonationHistory :=
  mkDonationHistory "D3" "R0" "H1" "Bob" "556" "O+" completed (Some 2000)
                    0 0 "Ward 4" "".

(** Two donors on the map, Ann registered, one donation on record. *)
Definition worldSecond : World :=
  mkWorld ∅ {["DH-0" := priorDonation]}
          {["L1" := invited; "L2" := secondDonor]} {["A1" := ann]}
          {["R1" := openRequest]}.

(** Two completed donations on record. *)
Definition worldHistories : World :=
  mkWorld ∅ {["DH-0" := priorDonation; "DH-9" := laterDonation]} ∅ ∅ ∅.

(** A later call, with ids of its own. *)
Definition calmAgain : Env :=
  mkEnv 10000500 "R-new2" "H-new" "DH-2" (λ _, false).

(** U+00A0 and U+2009, by their UTF-8 bytes. *)
Definition noBreakSpace : string :=
  String (ascii_of_nat 194) (String (ascii_of_nat 160) EmptyString).

Definition thinSpace : string :=
  String (ascii_of_nat 226)
    (String (ascii_of_nat 128) (String (ascii_of_nat 137) EmptyString)).

(** A phone number typed with such spaces, and a donor registered
    under the bare digits. *)
Definition spacedPhone : string :=
  "98" +:+ noBreakSpace +:+ "76" +:+ thinSpace +:+ "54".

Definition bea : Donor := mkDonor (Some "D5") "Bea" "987654" (Some "B+") None.

Definition spacedLocation : Location :=
  mkLocation None None None (Some "Someone") None (Some spacedPhone)
             (Some "D1") (Some "R1") (Some "T1") None (Some 10000000).

Definition worldWithBea : World :=
  mkWorld ∅ ∅ {["L1" := spacedLocation]} {["B1" := bea]}
          {["R1" := openRequest]}.

Definition steady : LocationWatcher.WatchOp → bool := λ _, false.

Definition steadyRead : DonationRoutes.VerifyOp → bool := λ _, false.

(** No donor document carries a roll number. *)
Definition noRoll : string → option string := λ _, None.

(** A share at time 10 000 000 ms, inserted under [L9], no call
    rejecting. *)
Definition counter : ShareEnv := mkShareEnv 10000000 "L9" (λ _, false).

Definition fromThePage : ShareBody :=
  mkShareBody (Some "R1") (Some "D7") (Some 12) (Some 77).

(** What [/donor-location] stores for that body when it finds no donor. *)
Definition sharedDirectly : Location :=
  directLocation noRoll counter "R1" "D7" 12 77 None.

(** An unused token for request [R1] and the donor stored under [d]. *)
Definition linkFor (d : string) : ResponseToken :=
  mkResponseToken "T1" "R1" d false.

Definition desk (d : string) : Store :=
  mkStore {["TK1" := linkFor d]} (worldWithAnn invited openRequest).

(** What [/r/T1/respond] stores for Ann. *)
Definition sharedByLink : Location :=
  responseLocation noRoll counter "T1" (linkFor "A1") ann (Some 12) (Some 77)
                   None.

Definition again : RespondCall := mkRespondCall counter "T1" None None None.

End MoreScenarios.

(** * Properties *)

(** ** Integer arithmetic in binary64 *)

Module JsNumberFacts.
Import JsNumber.

Lemma digits2_pos_size p : digits2_pos p = Pos.size p.
Proof. induction p; simpl; congruence. Qed.

Lemma digits_bounds p :
  2 ^ (Zpos (digits2_pos p) - 1) ≤ Zpos p < 2 ^ Zpos (digits2_pos p).
Proof.
  rewrite digits2_pos_size. split.
  - pose proof (Pos.size_le p) as H.
    assert (2 ^ Z.pos (Pos.size p) ≤ 2 * Z.pos p) as H'.
    { change 2 with (Z.pos 2) at 1. rewrite <- Pos2Z.inj_pow. 
      change (2 * Z.pos p) with (Z.pos p~0). by apply Pos2Z.pos_le_pos. }
    replace (Z.pos (Pos.size p)) with (Z.succ (Z.pos (Pos.size p) - 1)) in H' by lia.
    rewrite Z.pow_succ_r in H' by lia. lia.
  - pose proof (Pos.size_gt p) as H.
    change 2 with (Z.pos 2). rewrite <- Pos2Z.inj_pow. by apply Pos2Z.pos_lt_pos.
Qed.

Lemma digits_unique p n :
  2 ^ (n - 1) ≤ Zpos p < 2 ^ n → Zpos (digits2_pos p) = n.
Proof.
  intros [Hlo Hhi]. pose proof (digits_bounds p) as [Hlo' Hhi'].
  assert (0 < n) as Hn.
  { destruct (Z.lt_ge_cases 0 n); [done|].
    assert (2 ^ n ≤ 2 ^ 0) by (apply Z.pow_le_mono_r; lia). simpl in *. lia. }
  destruct (Z.lt_trichotomy (Zpos (digits2_pos p)) n) as [Hlt | [Heq | Hgt]];
    [|done|].
  - assert (2 ^ Zpos (digits2_pos p) ≤ 2 ^ (n - 1))
      by (apply Z.pow_le_mono_r; lia). lia.
  - assert (2 ^ n ≤ 2 ^ (Zpos (digits2_pos p) - 1))
      by (apply Z.pow_le_mono_r; lia). lia.
Qed.

Lemma digits_le p n : 0 ≤ n → Zpos p < 2 ^ n → Zpos (digits2_pos p) ≤ n.
Proof.
  intros Hn Hp. pose proof (digits_bounds p) as [Hlo _].
  destruct (Z.le_gt_cases (Zpos (digits2_pos p)) n) as [|Hgt]; [done|].
  assert (2 ^ n ≤ 2 ^ (Zpos (digits2_pos p) - 1))
    by (apply Z.pow_le_mono_r; lia). lia.
Qed.

Lemma digits_shift p k m :
  0 ≤ k → Zpos m = Zpos p * 2 ^ k →
  Zpos (digits2_pos m) = Zpos (digits2_pos p) + k.
Proof.
  intros Hk Hm. apply digits_unique. rewrite Hm.
  pose proof (digits_bounds p) as [Hlo Hhi].
  replace (Zpos (digits2_pos p) + k - 1) with (Zpos (digits2_pos p) - 1 + k) by lia.
  rewrite !Z.pow_add_r by lia.
  assert (0 < 2 ^ k) by (apply Z.pow_pos_nonneg; lia).
  split; nia.
Qed.

Lemma iter_xO m d : Zpos (Pos.iter xO m d) = Zpos m * 2 ^ Zpos d.
Proof.
  revert m. induction d as [d IH | d IH |]; intros m; simpl.
  - rewrite Pos2Z.inj_xO, !IH.
    replace (Zpos d~1) with (Zpos d + Zpos d + 1) by lia.
    rewrite !Z.pow_add_r by lia. change (2 ^ 1) with 2. lia.
  - rewrite !IH. replace (Zpos d~0) with (Zpos d + Zpos d) by lia.
    rewrite Z.pow_add_r by lia. lia.
  - lia.
Qed.

Lemma shr_1_even z :
  0 < z →
  shr_1 {| shr_m := 2 * z; shr_r := false; shr_s := false |} =
  {| shr_m := z; shr_r := false; shr_s := false |}.
Proof. by destruct z. Qed.

Lemma iter_shr_exact q z :
  0 < z →
  SpecFloat.iter_pos shr_1 q {| shr_m := z * 2 ^ Zpos q; shr_r := false; shr_s := false |} =
  {| shr_m := z; shr_r := false; shr_s := false |}.
Proof.
  revert z. induction q as [q IH | q IH |]; intros z Hz.
  - replace (z * 2 ^ Zpos q~1) with (2 * ((z * 2 ^ Zpos q) * 2 ^ Zpos q)).
    2:{ replace (Zpos q~1) with (Zpos q + Zpos q + 1) by lia.
        rewrite !Z.pow_add_r by lia. change (2 ^ 1) with 2. lia. }
    assert (0 < 2 ^ Zpos q) by (apply Z.pow_pos_nonneg; lia).
    change (SpecFloat.iter_pos shr_1 q~1 ?x) with
      (SpecFloat.iter_pos shr_1 q (SpecFloat.iter_pos shr_1 q (shr_1 x))).
    rewrite shr_1_even by nia. rewrite IH by nia. by apply IH.
  - replace (z * 2 ^ Zpos q~0) with ((z * 2 ^ Zpos q) * 2 ^ Zpos q).
    2:{ replace (Zpos q~0) with (Zpos q + Zpos q) by lia.
        rewrite !Z.pow_add_r by lia. lia. }
    assert (0 < 2 ^ Zpos q) by (apply Z.pow_pos_nonneg; lia).
    change (SpecFloat.iter_pos shr_1 q~0 ?x) with
      (SpecFloat.iter_pos shr_1 q (SpecFloat.iter_pos shr_1 q x)).
    rewrite IH by nia. by apply IH.
  - replace (z * 2 ^ 1) with (2 * z) by lia. by apply shr_1_even.
Qed.

(** Rounding a mantissa whose value is an integer of at most 53 bits
    is exact. *)
Lemma binary_round_aux_exact s m k p :
  0 ≤ k → Zpos m = Zpos p * 2 ^ k →
  Zpos (digits2_pos p) ≤ prec →
  prec ≤ Zpos (digits2_pos p) + k →
  binary_round_aux prec emax s (Zpos m) (- k) loc_Exact = norm s p.
Proof.
  intros Hk Hm Hd Hdk.
  pose proof (digits_shift p k m Hk Hm) as Hdm.
  set (d := Zpos (digits2_pos p)) in *.
  assert (0 < d) as Hdpos by (unfold d; lia).
  unfold binary_round_aux, shr_fexp. simpl Zdigits2. rewrite Hdm.
  assert (fexp prec emax (d + k + - k) = d - prec) as ->.
  { unfold fexp, emin, prec, emax in *. lia. }
  set (n := d - prec - - k).
  assert (Zpos m = (Zpos p * 2 ^ (prec - d)) * 2 ^ n) as Hsplit.
  { rewrite Hm, <- Z.mul_assoc, <- Z.pow_add_r by (unfold n; lia).
    f_equal. f_equal. unfold n. lia. }
  assert (0 < Zpos p * 2 ^ (prec - d)) as Hpos.
  { assert (0 < 2 ^ (prec - d)) by (apply Z.pow_pos_nonneg; lia). nia. }
  assert (shr (shr_record_of_loc (Zpos m) loc_Exact) (- k) n =
          ({| shr_m := Zpos p * 2 ^ (prec - d); shr_r := false; shr_s := false |},
           d - prec)) as ->.
  { unfold shr. simpl shr_record_of_loc. destruct n as [|q|q] eqn:Hn.
    - rewrite Hsplit. simpl (2 ^ 0). rewrite Z.mul_1_r. f_equal. lia.
    - rewrite Hsplit. rewrite iter_shr_exact by done. f_equal. lia.
    - unfold n in Hn. lia. }
  simpl shr_m. simpl loc_of_shr_record. simpl round_nearest_even.
  destruct (Zpos p * 2 ^ (prec - d)) as [|mz|mz] eqn:Hmz; [lia| |lia].
  assert (Zpos (digits2_pos mz) = prec) as Hdz.
  { rewrite (digits_shift p (prec - d) mz); [unfold d; lia | lia | done]. }
  simpl Zdigits2. rewrite Hdz.
  assert (fexp prec emax (prec + (d - prec)) - (d - prec) = 0) as ->.
  { unfold fexp, emin, prec, emax in *. lia. }
  simpl shr. simpl shr_m.
  cbv beta iota zeta. simpl shr_m.
  assert ((d - prec <=? emax - prec) = true) as ->.
  { apply Z.leb_le. unfold prec, emax in *. lia. }
  unfold norm. fold d. rewrite Hmz. done.
Qed.

Lemma binary_round_exact s m k p :
  0 ≤ k → Zpos m = Zpos p * 2 ^ k →
  Zpos (digits2_pos p) ≤ prec →
  binary_round prec emax s m (- k) = norm s p.
Proof.
  intros Hk Hm Hd.
  pose proof (digits_shift p k m Hk Hm) as Hdm.
  unfold binary_round. rewrite Hdm.
  set (d := Zpos (digits2_pos p)) in *.
  assert (0 < d) as Hdpos by (unfold d; lia).
  assert (fexp prec emax (d + k + - k) = d - prec) as ->.
  { unfold fexp, emin, prec, emax in *. lia. }
  unfold shl_align. destruct (d - prec - - k) as [|q|q] eqn:Hn.
  - apply binary_round_aux_exact; try done. lia.
  - apply binary_round_aux_exact; try done. lia.
  - replace (d - prec) with (- (prec - d)) by lia.
    apply binary_round_aux_exact; try done; [lia| |unfold d; lia].
    rewrite iter_xO, Hm, <- Z.mul_assoc, <- Z.pow_add_r by lia.
    f_equal. f_equal. lia.
Qed.

Lemma ofZ_pos p :
  Zpos (digits2_pos p) ≤ prec → ofZ (Zpos p) = norm false p.
Proof.
  intros Hd. unfold ofZ. simpl.
  apply (binary_round_exact false p 0 p); [lia | simpl; lia | done].
Qed.

Lemma ofZ_neg p :
  Zpos (digits2_pos p) ≤ prec → ofZ (Zneg p) = norm true p.
Proof.
  intros Hd. unfold ofZ. simpl.
  apply (binary_round_exact true p 0 p); [lia | simpl; lia | done].
Qed.

Lemma safe_digits p : safe (Zpos p) → Zpos (digits2_pos p) ≤ prec.
Proof. intros H. apply digits_le; [done|]. exact H. Qed.

Lemma safe_digits_neg p : safe (Zneg p) → Zpos (digits2_pos p) ≤ prec.
Proof. intros H. apply digits_le; [done|]. exact H. Qed.

Lemma normalize_exact v k :
  0 ≤ k → safe v →
  binary_normalize prec emax (v * 2 ^ k) (- k) false = ofZ v.
Proof.
  intros Hk Hv. assert (0 < 2 ^ k) by (apply Z.pow_pos_nonneg; lia).
  destruct v as [|p|p].
  - done.
  - rewrite ofZ_pos by by apply safe_digits.
    destruct (Zpos p * 2 ^ k) as [|m|m] eqn:Hm; [lia| |lia].
    simpl. apply binary_round_exact; try done. by apply safe_digits.
  - rewrite ofZ_neg by by apply safe_digits_neg.
    destruct (Zneg p * 2 ^ k) as [|m|m] eqn:Hm; [lia|lia|].
    simpl. apply binary_round_exact; try done; [lia | by apply safe_digits_neg].
Qed.

Lemma truncate_ofZ v : safe v → truncate (ofZ v) = Some v.
Proof.
  intros Hv. destruct v as [|p|p]; [done| |].
  - rewrite ofZ_pos by by apply safe_digits. unfold norm, truncate.
    pose proof (safe_digits p Hv) as Hd.
    set (d := Zpos (digits2_pos p)) in *.
    assert (0 < 2 ^ (prec - d)) by (apply Z.pow_pos_nonneg; lia).
    rewrite Z2Pos.id by nia. simpl cond_Zopp.
    replace (d - prec) with (- (prec - d)) by lia.
    rewrite Z.shiftl_opp_r, Z.shiftr_div_pow2 by lia.
    rewrite Z.div_mul by lia. done.
  - rewrite ofZ_neg by by apply safe_digits_neg. unfold norm, truncate.
    pose proof (safe_digits_neg p Hv) as Hd.
    set (d := Zpos (digits2_pos p)) in *.
    assert (0 < 2 ^ (prec - d)) by (apply Z.pow_pos_nonneg; lia).
    rewrite Z2Pos.id by nia. simpl cond_Zopp.
    replace (d - prec) with (- (prec - d)) by lia.
    rewrite Z.shiftl_opp_r, Z.shiftr_div_pow2 by lia.
    rewrite Z.div_mul by lia. done.
Qed.

Lemma timeClip_ofZ v :
  safe v →
  timeClip (ofZ v) = if bool_decide (Z.abs v ≤ MAX_TIME) then Some v else None.
Proof. intros Hv. unfold timeClip. by rewrite truncate_ofZ. Qed.


(** The shape of the double of a non-zero safe integer: a 53-bit
    mantissa [m] and an exponent [- k] with [± m = v * 2^k]. *)
Lemma ofZ_finite v :
  safe v → v ≠ 0 →
  ∃ m k, 0 ≤ k ∧ ofZ v = S754_finite (v <? 0) m (- k) ∧
         cond_Zopp (v <? 0) (Zpos m) = v * 2 ^ k ∧
         Zpos (digits2_pos m) = prec.
Proof.
  intros Hv Hne. destruct v as [|p|p]; [done| |].
  - pose proof (safe_digits p Hv) as Hd.
    rewrite ofZ_pos by done. unfold norm.
    set (d := Zpos (digits2_pos p)) in *.
    assert (0 < 2 ^ (prec - d)) by (apply Z.pow_pos_nonneg; lia).
    destruct (Zpos p * 2 ^ (prec - d)) as [|m|m] eqn:Hm; [lia| |lia].
    exists m, (prec - d). split; [lia|]. split; [f_equal; lia|].
    split; [done|].
    rewrite (digits_shift p (prec - d) m); [unfold d; lia | lia | done].
  - pose proof (safe_digits_neg p Hv) as Hd.
    rewrite ofZ_neg by done. unfold norm.
    set (d := Zpos (digits2_pos p)) in *.
    assert (0 < 2 ^ (prec - d)) by (apply Z.pow_pos_nonneg; lia).
    destruct (Zpos p * 2 ^ (prec - d)) as [|m|m] eqn:Hm; [lia| |lia].
    exists m, (prec - d). split; [lia|]. split; [f_equal; lia|].
    split; [simpl; lia|].
    rewrite (digits_shift p (prec - d) m); [unfold d; lia | lia | done].
Qed.

Lemma shl_align_fst mx ex ez :
  ez ≤ ex → Zpos (fst (shl_align mx ex ez)) = Zpos mx * 2 ^ (ex - ez).
Proof.
  intros Hle. unfold shl_align. destruct (ez - ex) as [|q|q] eqn:Hq.
  - simpl. replace (ex - ez) with 0 by lia. simpl. lia.
  - lia.
  - simpl. rewrite iter_xO. f_equal. f_equal. lia.
Qed.

Lemma cond_Zopp_mul s a b : cond_Zopp s a * b = cond_Zopp s (a * b).
Proof. destruct s; simpl; lia. Qed.

(** The signed, aligned mantissa of a double of shape [ofZ_finite]. *)
Lemma aligned s m k j v :
  0 ≤ k → cond_Zopp s (Zpos m) = v * 2 ^ k →
  cond_Zopp s (Zpos (fst (shl_align m (- k) (Z.min (- k) (- j))))) =
    v * 2 ^ Z.max k j ∧
  cond_Zopp s (Zpos (fst (shl_align m (- k) (Z.min (- j) (- k))))) =
    v * 2 ^ Z.max j k.
Proof.
  intros Hk Hm.
  assert (cond_Zopp s (Zpos (fst (shl_align m (- k) (- Z.max k j)))) =
          v * 2 ^ Z.max k j) as H.
  { rewrite shl_align_fst by lia. rewrite <- cond_Zopp_mul, Hm.
    rewrite <- Z.mul_assoc, <- Z.pow_add_r by lia. f_equal. f_equal. lia. }
  replace (Z.min (- k) (- j)) with (- Z.max k j) by lia.
  replace (Z.min (- j) (- k)) with (- Z.max k j) by lia.
  replace (Z.max j k) with (Z.max k j) by lia. done.
Qed.

(** Sums and differences of safe integers are computed exactly. *)
Lemma add_ofZ a b :
  safe a → safe b → safe (a + b) → fadd (ofZ a) (ofZ b) = ofZ (a + b).
Proof.
  intros Ha Hb Hab.
  destruct (decide (a = 0)) as [-> | Hna].
  { rewrite Z.add_0_l. destruct (decide (b = 0)) as [-> | Hnb]; [done|].
    destruct (ofZ_finite b Hb Hnb) as (mb & kb & _ & -> & _). done. }
  destruct (decide (b = 0)) as [-> | Hnb].
  { rewrite Z.add_0_r. destruct (ofZ_finite a Ha Hna) as (m' & k' & _ & -> & _).
    done. }
  destruct (ofZ_finite a Ha Hna) as (ma & ka & Hka & -> & Hma & _).
  destruct (ofZ_finite b Hb Hnb) as (mb & kb & Hkb & -> & Hmb & _).
  unfold fadd, SFadd.
  destruct (aligned _ _ _ kb _ Hka Hma) as [-> _].
  destruct (aligned _ _ _ ka _ Hkb Hmb) as [_ ->].
  replace (Z.min (- ka) (- kb)) with (- Z.max ka kb) by lia.
  rewrite <- Z.mul_add_distr_r. apply normalize_exact; [lia | done].
Qed.

Lemma safe_opp v : safe v → safe (- v).
Proof. unfold safe. by rewrite Z.abs_opp. Qed.

Lemma sub_ofZ a b :
  safe a → safe b → safe (a - b) → fsub (ofZ a) (ofZ b) = ofZ (a - b).
Proof.
  intros Ha Hb Hab.
  destruct (decide (b = 0)) as [-> | Hnb].
  { rewrite Z.sub_0_r. destruct (decide (a = 0)) as [-> | Hna]; [done|].
    destruct (ofZ_finite a Ha Hna) as (ma & ka & _ & -> & _). done. }
  destruct (decide (a = 0)) as [-> | Hna].
  { destruct b as [|p|p]; [done| |].
    - change (0 - Zpos p) with (Zneg p).
      rewrite ofZ_pos by by apply safe_digits.
      rewrite ofZ_neg by by apply safe_digits. done.
    - change (0 - Zneg p) with (Zpos p).
      rewrite ofZ_neg by by apply safe_digits_neg.
      rewrite ofZ_pos by by apply safe_digits_neg. done. }
  destruct (ofZ_finite a Ha Hna) as (ma & ka & Hka & -> & Hma & _).
  destruct (ofZ_finite b Hb Hnb) as (mb & kb & Hkb & -> & Hmb & _).
  unfold fsub, SFsub.
  destruct (aligned _ _ _ kb _ Hka Hma) as [-> _].
  destruct (aligned _ _ _ ka _ Hkb Hmb) as [_ ->].
  replace (Z.min (- ka) (- kb)) with (- Z.max ka kb) by lia.
  rewrite <- Z.mul_sub_distr_r. apply normalize_exact; [lia | done].
Qed.

(** So is a product. *)
Lemma mul_ofZ a b :
  a ≠ 0 → b ≠ 0 → safe (a * b) → fmul (ofZ a) (ofZ b) = ofZ (a * b).
Proof.
  intros Hna Hnb Hab.
  assert (safe a ∧ safe b) as [Ha Hb].
  { unfold safe in *. rewrite Z.abs_mul in Hab. split; nia. }
  destruct (ofZ_finite a Ha Hna) as (ma & ka & Hka & -> & Hma & Hda).
  destruct (ofZ_finite b Hb Hnb) as (mb & kb & Hkb & -> & Hmb & Hdb).
  assert (a * b ≠ 0) as Hnab by nia.
  pose proof (digits_bounds ma) as [Hla _]. rewrite Hda in Hla.
  pose proof (digits_bounds mb) as [Hlb _]. rewrite Hdb in Hlb.
  assert (0 < 2 ^ ka ∧ 0 < 2 ^ kb) as [H2a H2b]
    by (split; apply Z.pow_pos_nonneg; lia).
  assert (Zpos (ma * mb) = Z.abs (a * b) * 2 ^ (ka + kb)) as Hprod.
  { rewrite Pos2Z.inj_mul, Z.pow_add_r by lia.
    assert (Zpos ma = Z.abs a * 2 ^ ka) as ->.
    { destruct (a <? 0) eqn:E; simpl in Hma; [apply Z.ltb_lt in E | apply Z.ltb_ge in E]; lia. }
    assert (Zpos mb = Z.abs b * 2 ^ kb) as ->.
    { destruct (b <? 0) eqn:E; simpl in Hmb; [apply Z.ltb_lt in E | apply Z.ltb_ge in E]; lia. }
    rewrite Z.abs_mul. lia. }
  assert (xorb (a <? 0) (b <? 0) = (a * b <? 0)) as Hsign.
  { destruct (a <? 0) eqn:Ea, (b <? 0) eqn:Eb; simpl; symmetry;
      repeat match goal with
             | H : (_ <? _) = true |- _ => apply Z.ltb_lt in H
             | H : (_ <? _) = false |- _ => apply Z.ltb_ge in H
             end; [apply Z.ltb_ge | apply Z.ltb_lt | apply Z.ltb_lt | apply Z.ltb_ge]; nia. }
  unfold fmul, SFmul. rewrite Hsign.
  replace (- ka + - kb) with (- (ka + kb)) by lia.
  destruct (Z.abs (a * b)) as [|p|p] eqn:Hp; [lia| |lia].
  assert (Zpos (digits2_pos p) ≤ prec) as Hdp.
  { apply digits_le; [done|]. unfold safe in Hab. by rewrite Hp in Hab. }
  rewrite (binary_round_aux_exact _ (ma * mb) (ka + kb) p); [|lia|done|done|].
  - destruct (a * b) as [|q|q] eqn:Hq; [done| |].
    + simpl in Hp. injection Hp as ->. by rewrite ofZ_pos.
    + simpl in Hp. injection Hp as ->. by rewrite ofZ_neg.
  - rewrite <- (digits_shift p (ka + kb) (ma * mb)) by (done || lia).
    apply Z.lt_pred_le. unfold prec in *.
    pose proof (digits_bounds (ma * mb)) as [_ Hhi].
    destruct (Z.lt_ge_cases (Z.pred 53) (Zpos (digits2_pos (ma * mb)))); [done|].
    assert (2 ^ Zpos (digits2_pos (ma * mb)) ≤ 2 ^ 52)
      by (apply Z.pow_le_mono_r; lia).
    rewrite Pos2Z.inj_mul in Hhi. 
    assert (2 ^ (53 - 1) * 1 ≤ Zpos ma * Zpos mb) by nia. 
    simpl in *. lia.
Qed.

(** [x <= 0] on the double of a safe integer. *)
Lemma leb_ofZ_0 v : safe v → SFleb (ofZ v) (ofZ 0) = bool_decide (v ≤ 0).
Proof.
  intros Hv. destruct (decide (v = 0)) as [-> | Hne]; [done|].
  destruct (ofZ_finite v Hv Hne) as (m & k & _ & -> & _).
  unfold SFleb. simpl. destruct (v <? 0) eqn:E.
  - apply Z.ltb_lt in E. by rewrite bool_decide_eq_true_2 by lia.
  - apply Z.ltb_ge in E. by rewrite bool_decide_eq_false_2 by lia.
Qed.

End JsNumberFacts.

(** ** Collection queries *)

Module CollectionFacts.

Import Collection.

Section Queries.
Context {A : Type}.
Implicit Types (p : A → bool) (c : gmap string A) (key : A → option Z).

Lemma findOne_Some p c k a :
  findOne p c = Some (k, a) → c !! k = Some a ∧ p a = true.
Proof.
  unfold findOne. intros H.
  apply head_Some_elem_of in H.
  apply list_elem_of_filter in H as [Hp Hin].
  by apply elem_of_map_to_list in Hin.
Qed.

Lemma findOne_None p c :
  findOne p c = None ↔ ∀ k a, c !! k = Some a → p a = false.
Proof.
  unfold findOne. rewrite head_None. split.
  - intros H k a Hk. destruct (p a) eqn:Hp; [|done].
    assert ((k, a) ∈ filter (λ kv, p kv.2 = true) (map_to_list c)) as Hin.
    { apply list_elem_of_filter. split; [done|]. by apply elem_of_map_to_list. }
    rewrite H in Hin. by apply not_elem_of_nil in Hin.
  - intros H. destruct (filter _ _) as [|[k a] l] eqn:E; [done|].
    assert ((k, a) ∈ filter (λ kv, p kv.2 = true) (map_to_list c)) as Hin.
    { rewrite E. left. }
    apply list_elem_of_filter in Hin as [Hp Hin].
    apply elem_of_map_to_list in Hin. simpl in Hp.
    rewrite (H k a Hin) in Hp. discriminate.
Qed.

Lemma findOne_is_Some p c k a :
  c !! k = Some a → p a = true → is_Some (findOne p c).
Proof.
  intros Hk Hp. destruct (findOne p c) eqn:E; [by eexists|].
  rewrite findOne_None in E. rewrite (E k a Hk) in Hp. discriminate.
Qed.

Lemma key_lt_irrefl x : key_lt x x = false.
Proof. destruct x; simpl; [|done]. apply bool_decide_eq_false. lia. Qed.

Lemma key_lt_trans_false x y z :
  key_lt x y = false → key_lt y z = false → key_lt x z = false.
Proof.
  destruct x, y, z; simpl; try done.
  rewrite !bool_decide_eq_false. lia.
Qed.

Lemma key_lt_false_of_true x y : key_lt x y = true → key_lt y x = false.
Proof.
  destruct x, y; simpl; try done.
  rewrite bool_decide_eq_true, bool_decide_eq_false. lia.
Qed.

Lemma pickLatest_elem key best l :
  pickLatest key best l = best ∨ pickLatest key best l ∈ l.
Proof.
  revert best. induction l as [|kv l IH]; intros best; simpl; [by left|].
  destruct (key_lt (key best.2) (key kv.2)).
  - destruct (IH kv) as [->|Hin]; right; [left | by right].
  - destruct (IH best) as [->|Hin]; [by left | right; by right].
Qed.

Lemma pickLatest_ge_best key best l :
  key_lt (key (pickLatest key best l).2) (key best.2) = false.
Proof.
  revert best. induction l as [|kv l IH]; intros best; simpl.
  - apply key_lt_irrefl.
  - destruct (key_lt (key best.2) (key kv.2)) eqn:E.
    + eapply key_lt_trans_false; [apply IH|]. by apply key_lt_false_of_true.
    + apply IH.
Qed.

Lemma pickLatest_max key best l kv :
  kv ∈ l → key_lt (key (pickLatest key best l).2) (key kv.2) = false.
Proof.
  revert best. induction l as [|x l IH]; intros best Hin.
  - by apply not_elem_of_nil in Hin.
  - simpl. apply elem_of_cons in Hin as [->|Hin].
    + destruct (key_lt (key best.2) (key x.2)) eqn:E.
      * apply pickLatest_ge_best.
      * eapply key_lt_trans_false; [apply pickLatest_ge_best | done].
    + destruct (key_lt (key best.2) (key x.2)); by apply IH.
Qed.

(** The sorted query returns a stored document that satisfies the
    filter and whose key no other such document exceeds. *)
Lemma findOneSortDesc_Some p key c k a :
  findOneSortDesc p key c = Some (k, a) →
  c !! k = Some a ∧ p a = true ∧
  ∀ k' a', c !! k' = Some a' → p a' = true → key_lt (key a) (key a') = false.
Proof.
  unfold findOneSortDesc.
  destruct (filter _ _) as [|kv l] eqn:E; [done|].
  intros [= H].
  assert (∀ x, x ∈ kv :: l → c !! x.1 = Some x.2 ∧ p x.2 = true) as Hall.
  { intros [k0 a0] Hx. rewrite <- E in Hx.
    apply list_elem_of_filter in Hx as [Hp Hin].
    by apply elem_of_map_to_list in Hin. }
  assert ((k, a) ∈ kv :: l) as Hka.
  { rewrite <- H. destruct (pickLatest_elem key kv l) as [->|Hin];
      [left | by right]. }
  destruct (Hall _ Hka) as [Hk Hp]. split; [done|]. split; [done|].
  intros k' a' Hk' Hp'.
  assert ((k', a') ∈ kv :: l) as Hin'.
  { rewrite <- E. apply list_elem_of_filter. split; [done|].
    by apply elem_of_map_to_list. }
  change a with (k, a).2. rewrite <- H.
  apply elem_of_cons in Hin' as [<-|Hin'].
  - apply (pickLatest_ge_best key (k', a') l).
  - apply (pickLatest_max key kv l (k', a') Hin').
Qed.

Lemma findOneSortDesc_None p key c :
  findOneSortDesc p key c = None ↔ ∀ k a, c !! k = Some a → p a = false.
Proof.
  rewrite <- findOne_None. unfold findOneSortDesc, findOne.
  destruct (filter _ _); simpl; split; done.
Qed.

End Queries.

End CollectionFacts.

(** ** Recency filter *)

Module LocationFilterFacts.

Import JsNumber JsNumberFacts LocationFilter.

Lemma isRecent_live now w e : isRecent now w e = true ↔ live now w e.
Proof.
  unfold isRecent, live.
  destruct (locationTime e) as [t|], (cutoffTime now w) as [c|].
  - rewrite bool_decide_eq_true. split.
    + intros H. by exists c, t.
    + by intros (c' & t' & [= <-] & [= <-] & H).
  - split; [done | by intros (c' & t' & ? & _)].
  - split; [done | by intros (c' & t' & _ & ? & _)].
  - split; [done | by intros (c' & t' & ? & _)].
Qed.

Lemma filterRecentLocations_elem now ls w e :
  e ∈ filterRecentLocations now ls w ↔ e ∈ ls ∧ live now w e.
Proof.
  induction ls as [|x ls IH]; simpl.
  - split; [intros H | intros [H _]]; by apply not_elem_of_nil in H.
  - destruct (isRecent now w x) eqn:E.
    + rewrite !elem_of_cons, IH. split.
      * intros [->|[? ?]]; [split; [by left | by apply isRecent_live] | split; [by right | done]].
      * intros [[->|?] ?]; [by left | by right].
    + rewrite IH, elem_of_cons. split.
      * intros [? ?]. split; [by right | done].
      * intros [[->|?] Hl]; [|done].
        apply isRecent_live in Hl. congruence.
Qed.

Lemma filterRecentLocations_sublist now ls w :
  filterRecentLocations now ls w `sublist_of` ls.
Proof.
  induction ls as [|x ls IH]; simpl; [constructor|].
  destruct (isRecent now w x); by constructor.
Qed.

(** Nothing is recent against an Invalid Date. *)
Lemma filterRecentLocations_invalid now ls w :
  cutoffTime now w = None → filterRecentLocations now ls w = [].
Proof.
  intros Hc. induction ls as [|x ls IH]; simpl; [done|].
  unfold isRecent. rewrite Hc. by destruct (locationTime x).
Qed.

Lemma safe_le a b : Z.abs a ≤ Z.abs b → safe b → safe a.
Proof. unfold safe. lia. Qed.

Lemma safe_time t : Z.abs t ≤ MAX_TIME → safe t.
Proof. unfold safe, MAX_TIME. lia. Qed.

(** A window of a whole number of hours, in milliseconds. *)
Lemma maxAgeMs_hours h :
  safe (h * ONE_HOUR_MS) → maxAgeMs (ofZ h) = ofZ (h * ONE_HOUR_MS).
Proof.
  unfold ONE_HOUR_MS. intros Hs.
  destruct (decide (h = 0)) as [-> | Hne]; [done|].
  assert (safe (h * 60) ∧ safe (h * 60 * 60) ∧ safe (h * 60 * 60 * 1000))
    as (H1 & H2 & H3) by (unfold safe in *; lia).
  unfold maxAgeMs.
  rewrite (mul_ofZ h 60) by done.
  rewrite (mul_ofZ (h * 60) 60) by (done || lia).
  rewrite (mul_ofZ (h * 60 * 60) 1000) by (done || lia).
  f_equal. lia.
Qed.

(** The cut-off date of such a window. *)
Lemma cutoffTime_hours now h :
  safe now → safe (h * ONE_HOUR_MS) → safe (now - h * ONE_HOUR_MS) →
  cutoffTime now (ofZ h) = readDate (now - h * ONE_HOUR_MS).
Proof.
  intros Hn Hh Hc. unfold cutoffTime.
  rewrite maxAgeMs_hours, sub_ofZ, timeClip_ofZ by done. done.
Qed.

(** C9 (amended). [filterRecentLocations] keeps exactly the entries
    whose effective timestamp (the [timestamp] field, else
    [responseTime], else [createdAt]) is a valid date at or after the
    cut-off date [new Date(Date.now() - maxAgeHours * 60 * 60 * 1000)]:
    an entry belongs to the result iff it belongs to the input and is
    live; an entry exactly at the cut-off is kept; an entry strictly
    older is dropped; when the cut-off is an Invalid Date nothing is
    kept.  For a window of a whole number of hours [h] (the arithmetic
    staying below [2^53] milliseconds) the cut-off is [now - h] hours
    when that is within the range of [Date], and invalid otherwise.
    The result is a sublist of the input (entries unmodified, order
    kept), each entry of the input being kept or dropped on its own
    timestamp alone; the default window is one hour. *)
Theorem filterRecentLocations_exact (now : Z) (w : spec_float)
        (ls : list Entry) :
  (∀ e, e ∈ filterRecentLocations now ls w ↔ e ∈ ls ∧ live now w e) ∧
  (∀ e cutoff, e ∈ ls → cutoffTime now w = Some cutoff →
               locationTime e = Some cutoff →
               e ∈ filterRecentLocations now ls w) ∧
  (∀ e cutoff t, cutoffTime now w = Some cutoff → locationTime e = Some t →
                 t < cutoff → e ∉ filterRecentLocations now ls w) ∧
  (cutoffTime now w = None → filterRecentLocations now ls w = []) ∧
  (∀ h, w = ofZ h → safe now → safe (h * ONE_HOUR_MS) →
        safe (now - h * ONE_HOUR_MS) →
        (Z.abs (now - h * ONE_HOUR_MS) ≤ MAX_TIME →
         cutoffTime now w = Some (now - h * ONE_HOUR_MS)) ∧
        (MAX_TIME < Z.abs (now - h * ONE_HOUR_MS) →
         cutoffTime now w = None)) ∧
  filterRecentLocations now ls w `sublist_of` ls ∧
  (∀ l1 l2, filterRecentLocations now (l1 ++ l2)%list w =
            (filterRecentLocations now l1 w ++ filterRecentLocations now l2 w)%list) ∧
  (∀ e, filterRecentLocations now [e] w = [e] ∨
        filterRecentLocations now [e] w = []) ∧
  filterRecentLocations_default now ls = filterRecentLocations now ls (ofZ 1).
Proof.
  split; [intros e; apply filterRecentLocations_elem|].
  split.
  { intros e c Hin Hc Ht. apply filterRecentLocations_elem. split; [done|].
    by exists c, c. }
  split.
  { intros e c t Hc Ht Hlt [_ (c' & t' & Hc' & Ht' & Hle)]%filterRecentLocations_elem.
    rewrite Hc in Hc'. rewrite Ht in Ht'. simplify_eq. lia. }
  split; [apply filterRecentLocations_invalid|].
  split.
  { intros h -> Hn Hh Hc. rewrite cutoffTime_hours by done. unfold readDate.
    split; intros Hr; [by rewrite bool_decide_eq_true_2 |
                       by rewrite bool_decide_eq_false_2 by lia]. }
  split; [apply filterRecentLocations_sublist|].
  split.
  { intros l1 l2. induction l1 as [|x l1 IH]; simpl; [done|].
    destruct (isRecent now w x); simpl; by rewrite IH. }
  split; [|done].
  intros e. simpl. destruct (isRecent now w e); [by left | by right].
Qed.

End LocationFilterFacts.

(** ** Notification hub *)

Module NotificationStreamFacts.

Import NotificationStream.

Lemma writeAll_elem payload (s : gset nat) c p :
  (c, p) ∈ writeAll payload s ↔ p = payload ∧ c ∈ s.
Proof.
  unfold writeAll. rewrite list_elem_of_fmap. split.
  - intros (res & [= -> ->] & Hin). by apply elem_of_elements in Hin.
  - intros [-> Hin]. exists c. by rewrite elem_of_elements.
Qed.

Lemma writeAll_NoDup payload (s : gset nat) : NoDup (writeAll payload s).
Proof.
  unfold writeAll. apply NoDup_fmap_2; [|apply NoDup_elements].
  by intros x y [= ->].
Qed.

(** C8. A notification that carries a (non-empty) hospital id is
    written, with the notification's payload, to each connection
    registered for that hospital, once, and to no other connection;
    with no connection registered for it nothing is written; a
    notification without hospital id is written to every connection
    registered for any hospital. *)
Theorem broadcastNotification_targets
        (clients : gmap string (gset nat)) (n : Notification) :
  (∀ h, hospitalId n = Some h → h ≠ "" →
     (∀ c p, (c, p) ∈ broadcastNotification clients n ↔
             p = payloadOf n ∧ c ∈ subscribers clients h) ∧
     NoDup (broadcastNotification clients n) ∧
     (subscribers clients h = ∅ → broadcastNotification clients n = [])) ∧
  (hospitalId n = None →
     ∀ c p, (c, p) ∈ broadcastNotification clients n ↔
            p = payloadOf n ∧ ∃ h, c ∈ subscribers clients h).
Proof.
  unfold broadcastNotification, subscribers. split.
  - intros h Hh Hne. rewrite Hh. simpl.
    rewrite bool_decide_eq_false_2 by done.
    destruct (clients !! h) as [s|] eqn:Hs; simpl.
    + destruct (bool_decide (size s = 0%nat)) eqn:Hsz.
      * apply bool_decide_eq_true in Hsz. apply size_empty_inv in Hsz.
        apply leibniz_equiv in Hsz. subst s.
        split; [|split; [constructor | done]].
        intros c p. split; [by intros ?%not_elem_of_nil|].
        by intros [_ ?%not_elem_of_empty].
      * apply bool_decide_eq_false in Hsz.
        split; [intros c p; apply writeAll_elem|].
        split; [apply writeAll_NoDup|].
        intros ->. by rewrite size_empty in Hsz.
    + split; [|split; [constructor | done]].
      intros c p. split; [by intros ?%not_elem_of_nil|].
      by intros [_ ?%not_elem_of_empty].
  - intros Hh. rewrite Hh. simpl. intros c p.
    rewrite list_elem_of_bind. split.
    + intros ([h s] & Hw & Hin). simpl in Hw.
      apply writeAll_elem in Hw as [-> Hc].
      apply elem_of_map_to_list in Hin.
      split; [done|]. exists h. by rewrite Hin.
    + intros [-> [h Hc]].
      destruct (clients !! h) as [s|] eqn:Hs; simpl in Hc;
        [|by apply not_elem_of_empty in Hc].
      exists (h, s). split; [by apply writeAll_elem|].
      by apply elem_of_map_to_list.
Qed.

End NotificationStreamFacts.

(** ** The donation handler *)

Module MarkDonationFacts.

Import Collection CollectionFacts MarkDonation.

(** Unfold the control operators of [Handler]. *)
Ltac unfold_handler :=
  unfold mbind, mret, Handler_bind, Handler_ret, gets, modify, reply,
         throw, db, tryCatch in *.

(** Split on every test a small handler makes. *)
Ltac handler_cases :=
  unfold_handler; simpl in *;
  repeat (case_match; simplify_eq; simpl in *).

Section Pieces.

Variable re : string → option (string → bool).
Variable env : Env.

Lemma acquireLock_run d w :
  acquireLock d w =
  if bool_decide (d ∈ processingLock w)
  then (w, Reply AlreadyProcessing)
  else (withLock ({[d]} ∪ processingLock w) w, Next ()).
Proof. unfold acquireLock. unfold_handler. by case_bool_decide. Qed.

Lemma checkExistingDonation_inv d w w' f :
  checkExistingDonation env d w = (w', f) →
  w' = w ∧
  match f with
  | Next _ =>
      findOneSortDesc (isCompletedBy d) completedAt (histories w) = None
  | Reply o =>
      o = AlreadyDonated ∧
      is_Some (findOneSortDesc (isCompletedBy d) completedAt (histories w))
  | Throw => True
  end.
Proof. unfold checkExistingDonation. intros H. handler_cases; eauto. Qed.

Lemma checkExistingDonation_none d w :
  faults env HistoryFindOne = false →
  findOneSortDesc (isCompletedBy d) completedAt (histories w) = None →
  checkExistingDonation env d w = (w, Next ()).
Proof.
  intros Hf Hn. unfold checkExistingDonation. unfold_handler.
  by rewrite Hf, Hn.
Qed.

Lemma findLocation_inv d w w' f :
  findLocation env d w = (w', f) →
  match f with
  | Next kl => w' = w ∧ findOne (hasDonorId d) (locations w) = Some kl
  | Reply o =>
      o = DonorNotFound ∧ w' = unlock d w ∧
      findOne (hasDonorId d) (locations w) = None
  | Throw => w' = w
  end.
Proof. unfold findLocation. intros H. handler_cases; eauto. Qed.

Lemma findLocation_none d w :
  faults env LocationFindOne = false →
  faults env LocationFindDirect = false →
  findOne (hasDonorId d) (locations w) = None →
  findLocation env d w = (unlock d w, Reply DonorNotFound).
Proof.
  intros H1 H2 Hn. unfold findLocation. unfold_handler.
  by rewrite H1, Hn, H2, Hn.
Qed.

Lemma findLocation_some d w kl :
  faults env LocationFindOne = false →
  findOne (hasDonorId d) (locations w) = Some kl →
  findLocation env d w = (w, Next kl).
Proof.
  intros H1 Hs. unfold findLocation. unfold_handler.
  by rewrite H1, Hs.
Qed.

Lemma resolveDonor_inv d l w w' f :
  resolveDonor re env d l w = (w', f) →
  w' = w ∧
  match f with
  | Next donorRecord =>
      ∀ k x, donorRecord = Some (k, x) → donors w !! k = Some x
  | Reply _ => False
  | Throw => True
  end.
Proof.
  unfold resolveDonor. intros H. handler_cases; split; try done;
    intros k x ?; simplify_eq;
    match goal with
    | H : findOne _ _ = Some _ |- _ => by apply findOne_Some in H as [? _]
    end.
Qed.

Lemma newRequest_created bg : created env (newRequest env bg).
Proof. by repeat split. Qed.

Lemma resolveRequest_inv explicit l donorRecord w w' f :
  resolveRequest env explicit l donorRecord w = (w', f) →
  match f with
  | Next (rid, r) =>
      requests w' !! rid = Some r ∧
      (w' = w ∨
       (requests w !! rid = None ∧ created env r ∧ rid = newRequestId env ∧
        w' = withRequests (<[rid := r]> (requests w)) w))
  | Reply _ => False
  | Throw => w' = w
  end.
Proof.
  unfold resolveRequest, createRequest. intros H.
  handler_cases; try done;
    try (split; [|by left]);
    try match goal with
      | H : findOneSortDesc _ _ _ = Some _ |- _ =>
          by apply findOneSortDesc_Some in H as [? _]
      | H : _ <$> _ = Some _ |- _ =>
          by apply fmap_Some in H as (? & ? & ?); simplify_eq
      end;
    try (split; [apply lookup_insert_eq |
                 right; split; [done|]; split; [apply newRequest_created | done]]).
Qed.

Lemma createDonation_inv donation w w' f :
  createDonation env donation w = (w', f) →
  match f with
  | Next stored =>
      stored = donation ∧ histories w !! newDonationId env = None ∧
      w' = withHistories (<[newDonationId env := donation]> (histories w)) w
  | Reply _ => False
  | Throw => w' = w
  end.
Proof. unfold createDonation. intros H. handler_cases; eauto. Qed.

Lemma createDonation_fresh donation w :
  faults env HistoryCreate = false →
  histories w !! newDonationId env = None →
  createDonation env donation w =
  (withHistories (<[newDonationId env := donation]> (histories w)) w,
   Next donation).
Proof.
  intros Hf Hn. unfold createDonation. unfold_handler. by rewrite Hf, Hn.
Qed.

Lemma updateLastDonation_inv d donorRecord w w' f :
  updateLastDonation env d donorRecord w = (w', f) →
  match f with
  | Next _ =>
      ∃ D, w' = withDonors D w ∧
           ∀ k x, donorRecord = Some (k, x) →
                  D = alter (stampDonor env) k (donors w)
  | Reply _ => False
  | Throw => w' = w
  end.
Proof.
  unfold updateLastDonation, saveLastDonation. intros H.
  handler_cases; try done;
    try (eexists; split; [reflexivity | by intros ? ? [= <- <-]]);
    try (exists (donors w'); split; [by destruct w' | done]);
    try (eexists; split; [reflexivity | done]).
Qed.

Lemma updateLastDonation_saved d k x w :
  faults env DonorSave = false →
  updateLastDonation env d (Some (k, x)) w =
  (withDonors (alter (stampDonor env) k (donors w)) w, Next ()).
Proof.
  intros Hf. unfold updateLastDonation, saveLastDonation. unfold_handler.
  by rewrite Hf.
Qed.

Lemma updateRequest_inv d l rid r w w' f :
  updateRequest env d l rid r w = (w', f) →
  match f with
  | Next _ =>
      pastDeadline env r = false ∧
      ∃ r0, requests w !! rid = Some r0 ∧ reservable (token l) r0 = true ∧
            w' = withRequests (<[rid := reserved env r0]> (requests w)) w
  | Reply o =>
      (o = RequestExpired ∧ pastDeadline env r = true ∧
       w' = unlock d (withRequests (alter expire rid (requests w)) w)) ∨
      (o = ReservationConflict ∧ pastDeadline env r = false ∧
       w' = unlock d w ∧
       ∀ r0, requests w !! rid = Some r0 → reservable (token l) r0 = false) ∨
      (o = DatabaseUpdateFailed ∧
       (w' = unlock d w ∨
        ∃ r0, requests w !! rid = Some r0 ∧
              reservable (token l) r0 = true ∧
              w' = unlock d (withRequests (<[rid := increment r0]> (requests w)) w)))
  | Throw => False
  end.
Proof.
  unfold updateRequest, findOneAndUpdate, reserved. intros H.
  handler_cases; try done.
  all: try (split; [done|]; eexists; split; [done|]; split; [done|]).
  all: try (right; right; split; [done|]; by left).
  all: try (right; right; split; [done|]; right; eexists; by repeat split).
  all: try (left; by repeat split).
  all: try (right; left; repeat split; try done; intros; by simplify_eq).
  all: match goal with H : bool_decide _ = _ |- _ => rewrite H end.
  all: unfold withRequests; simpl; by rewrite ?alter_insert_eq.
Qed.

Lemma updateRequest_expired d l rid r w :
  pastDeadline env r = true →
  faults env RequestSaveExpired = false →
  updateRequest env d l rid r w =
  (unlock d (withRequests (alter expire rid (requests w)) w),
   Reply RequestExpired).
Proof.
  intros Hp Hf. unfold updateRequest. unfold_handler. by rewrite Hp, Hf.
Qed.

Lemma updateRequest_reserved d l rid r r0 w :
  pastDeadline env r = false →
  faults env RequestFindOneAndUpdate = false →
  faults env RequestSaveFulfilled = false →
  requests w !! rid = Some r0 →
  reservable (token l) r0 = true →
  updateRequest env d l rid r w =
  (withRequests (<[rid := reserved env r0]> (requests w)) w, Next ()).
Proof.
  intros Hp Hf1 Hf2 Hr0 Hok.
  unfold updateRequest, findOneAndUpdate, reserved. unfold_handler.
  rewrite Hp, Hf1, Hr0, Hok. simpl.
  case_bool_decide; [|done].
  rewrite Hf2. unfold withRequests. simpl. by rewrite alter_insert_eq.
Qed.

Lemma removeFromMap_inv d w w' f :
  removeFromMap env d w = (w', f) →
  f = Next () ∧
  ∃ L, w' = withLocations L w ∧
       (L = locations w ∨
        ∃ k l, findOne (hasDonorId d) (locations w) = Some (k, l) ∧
               L = delete k (locations w)) ∧
       (reliable env →
        ∀ k l, findOne (hasDonorId d) (locations w) = Some (k, l) →
               L = delete k (locations w)).
Proof.
  unfold removeFromMap. intros H.
  handler_cases; split; try done;
    try (exists (locations w'); split; [by destruct w'|]; split; [by left|];
         intros Hrel; rewrite Hrel in *; intros; by simplify_eq);
    try (eexists; split; [reflexivity|]; split; [right; eauto|];
         intros Hrel k' l' ?; by simplify_eq).
Qed.

(** *** The two stages *)

Lemma bind_inv {A B} (m : Handler A) (k : A → Handler B) w w' f :
  (m ≫= k) w = (w', f) →
  (∃ w1 a, m w = (w1, Next a) ∧ k a w1 = (w', f)) ∨
  (∃ o, m w = (w', Reply o) ∧ f = Reply o) ∨
  (m w = (w', Throw) ∧ f = Throw).
Proof.
  unfold mbind, Handler_bind. destruct (m w) as [w1 [a|o|]]; intros H.
  - left. eauto.
  - right. left. simplify_eq. eauto.
  - right. right. by simplify_eq.
Qed.

Lemma resolve_inv body w w1 f :
  resolve re env body w = (w1, f) →
  match f with
  | Next res =>
      let d := resDonorId res in
      truthy (bodyDonorId body) = Some d ∧
      (d ∉ processingLock w) ∧
      findOneSortDesc (isCompletedBy d) completedAt (histories w) = None ∧
      (∃ k, findOne (hasDonorId d) (locations w) = Some (k, resLocation res)) ∧
      (∀ k x, resDonor res = Some (k, x) → donors w !! k = Some x) ∧
      requests w1 !! resRequestId res = Some (resRequest res) ∧
      ∃ R, w1 = withRequests R (locked d w) ∧
           (R = requests w ∨
            (requests w !! resRequestId res = None ∧
             created env (resRequest res) ∧
             resRequestId res = newRequestId env ∧
             R = <[resRequestId res := resRequest res]> (requests w)))
  | Reply o =>
      (o = DonorIdRequired ∧ truthy (bodyDonorId body) = None ∧ w1 = w) ∨
      ∃ d, truthy (bodyDonorId body) = Some d ∧
           ((o = AlreadyProcessing ∧ d ∈ processingLock w ∧ w1 = w) ∨
            (o = AlreadyDonated ∧ (d ∉ processingLock w) ∧ w1 = locked d w ∧
             is_Some (findOneSortDesc (isCompletedBy d) completedAt (histories w))) ∨
            (o = DonorNotFound ∧ (d ∉ processingLock w) ∧
             w1 = unlock d (locked d w) ∧
             findOne (hasDonorId d) (locations w) = None))
  | Throw =>
      ∃ d, truthy (bodyDonorId body) = Some d ∧ (d ∉ processingLock w) ∧
           w1 = locked d w
  end.
Proof.
  unfold resolve. destruct (truthy (bodyDonorId body)) as [d|] eqn:Hd.
  2:{ unfold reply. intros [= <- <-]. by left. }
  intros H.
  apply bind_inv in H as [(w2 & [] & H1 & H) | [(o & H1 & ->) | [H1 ->]]];
    rewrite acquireLock_run in H1; case_bool_decide as Hlock; simplify_eq.
  2:{ right. exists d. split; [done|]. by left. }
  fold (locked d w) in H.
  apply bind_inv in H as [(w2 & [] & H1 & H) | [(o & H1 & ->) | [H1 ->]]];
    apply checkExistingDonation_inv in H1 as [-> Hex]; simpl in Hex.
  2:{ destruct Hex as [-> Hex]. right. exists d. split; [done|].
      right. left. done. }
  2:{ by exists d. }
  apply bind_inv in H as [(w2 & [kl l] & H1 & H) | [(o & H1 & ->) | [H1 ->]]];
    apply findLocation_inv in H1; simpl in H1.
  2:{ destruct H1 as (-> & -> & Hloc). right. exists d. split; [done|].
      right. right. done. }
  2:{ subst w1. by exists d. }
  destruct H1 as [-> Hloc].
  apply bind_inv in H as [(w2 & donorRecord & H1 & H) | [(o & H1 & ->) | [H1 ->]]];
    apply resolveDonor_inv in H1 as [-> Hdonor]; simpl in Hdonor; try done.
  2:{ by exists d. }
  apply bind_inv in H as [(w2 & [rid r] & H1 & H) | [(o & H1 & ->) | [H1 ->]]];
    apply resolveRequest_inv in H1; simpl in H1; try done.
  2:{ subst w1. by exists d. }
  destruct H1 as [Hreq Hnew].
  unfold mret, Handler_ret in H. simplify_eq. simpl.
  repeat (split; [by eauto|]).
  destruct Hnew as [-> | (Hnone & Hcr & -> & ->)].
  - exists (requests w). split; [by destruct w | by left].
  - eexists. split; [reflexivity|]. right. done.
Qed.

Lemma commit_inv body res w w' f :
  commit env body res w = (w', f) →
  let d := resDonorId res in
  let rid := resRequestId res in
  let l := resLocation res in
  let donation :=
    donationOf env d (bodyDonorName body) l (resDonor res) rid (resRequest res) in
  let written :=
    withHistories (<[newDonationId env := donation]> (histories w)) w in
  match f with
  | Next _ => False
  | Throw => w' = w ∨ w' = written
  | Reply o =>
      histories w !! newDonationId env = None ∧
      ∃ D, (∀ k x, resDonor res = Some (k, x) →
                   D = alter (stampDonor env) k (donors w)) ∧
           let w2 := withDonors D written in
           (o = RequestExpired ∧ pastDeadline env (resRequest res) = true ∧
            w' = unlock d (withRequests (alter expire rid (requests w)) w2)) ∨
           (o = ReservationConflict ∧
            pastDeadline env (resRequest res) = false ∧
            w' = unlock d w2 ∧
            ∀ r0, requests w !! rid = Some r0 → reservable (token l) r0 = false) ∨
           (o = DatabaseUpdateFailed ∧
            (w' = unlock d w2 ∨
             ∃ r0, requests w !! rid = Some r0 ∧
                   reservable (token l) r0 = true ∧
                   w' = unlock d (withRequests (<[rid := increment r0]> (requests w)) w2))) ∨
           (o = Completed donation ∧
            pastDeadline env (resRequest res) = false ∧
            ∃ r0 L, requests w !! rid = Some r0 ∧
                    reservable (token l) r0 = true ∧
                    w' = withLocations L
                           (withRequests (<[rid := reserved env r0]> (requests w)) w2) ∧
                    (L = locations w ∨
                     ∃ k l', findOne (hasDonorId d) (locations w) = Some (k, l') ∧
                             L = delete k (locations w)) ∧
                    (reliable env →
                     ∀ k l', findOne (hasDonorId d) (locations w) = Some (k, l') →
                             L = delete k (locations w)))
  end.
Proof.
  unfold commit. intros H. simpl.
  apply bind_inv in H as [(w2 & dn & H1 & H) | [(o & H1 & ->) | [H1 ->]]];
    apply createDonation_inv in H1; simpl in H1; try done.
  2:{ by left. }
  destruct H1 as (-> & Hfresh & ->).
  apply bind_inv in H as [(w3 & [] & H1 & H) | [(o & H1 & ->) | [H1 ->]]];
    apply updateLastDonation_inv in H1; simpl in H1; try done.
  2:{ by right. }
  destruct H1 as (D & -> & HD).
  apply bind_inv in H as [(w4 & [] & H1 & H) | [(o & H1 & ->) | [H1 ->]]];
    apply updateRequest_inv in H1; simpl in H1; try done.
  - destruct H1 as (Hpast & r0 & Hr0 & Hres & ->).
    apply bind_inv in H as [(w5 & [] & H1 & H) | [(o & H1 & ->) | [H1 ->]]];
      apply removeFromMap_inv in H1 as [? (L & -> & HL & HLrel)]; simplify_eq.
    unfold reply in H. simplify_eq.
    split; [done|]. exists D. split; [done|].
    right. right. right. split; [done|]. split; [done|].
    exists r0, L. done.
  - split; [done|]. exists D. split; [done|].
    destruct H1 as [(-> & ? & ->) | [(-> & ? & -> & ?) | (-> & Hfail)]].
    + by left.
    + right. left. done.
    + right. right. left. split; [done|].
      destruct Hfail as [-> | (r0 & ? & ? & ->)]; [by left|].
      right. exists r0. done.
Qed.

Lemma confirmDonation_inv body w w' o :
  confirmDonation re env body w = (w', o) →
  (resolve re env body w = (w', Reply o)) ∨
  (resolve re env body w = (w', Throw) ∧ o = Unhandled) ∨
  ∃ w1 res, resolve re env body w = (w1, Next res) ∧
            (commit env body res w1 = (w', Reply o) ∨
             (commit env body res w1 = (w', Throw) ∧ o = Unhandled)).
Proof.
  unfold confirmDonation, handlerBody.
  destruct ((resolve re env body ≫= commit env body) w) as [w2 f] eqn:H.
  apply bind_inv in H as [(w1 & res & H1 & H) | [(o' & H1 & ->) | [H1 ->]]].
  - destruct f as [[]|o'|]; intros [= <- <-]; right; right;
      exists w1, res; split; auto.
  - intros [= <- <-]. by left.
  - intros [= <- <-]. right. by left.
Qed.

(** *** The request collection across one call *)

Lemma reservable_inv tok r :
  reservable tok r = true →
  status r = active ∧ confirmedUnits r < quantity r ∧
  ∀ t, tokenChecked tok = Some t → t ∈ activeTokens r.
Proof.
  unfold reservable. rewrite !andb_true_iff, !bool_decide_eq_true.
  intros [[Hs Hlt] Htok]. split; [done|]. split; [done|].
  intros t Ht. rewrite Ht in Htok. by apply bool_decide_eq_true in Htok.
Qed.

Lemma reserved_fields r0 :
  confirmedUnits (reserved env r0) = confirmedUnits r0 + 1 ∧
  quantity (reserved env r0) = quantity r0.
Proof. unfold reserved. by case_bool_decide. Qed.

Lemma pastDeadline_inv r :
  pastDeadline env r = true →
  status r = active ∧ ∃ t, requiredBy r = Some t ∧ t < now env.
Proof.
  unfold pastDeadline. rewrite andb_true_iff, bool_decide_eq_true.
  intros [Hs Ht]. split; [done|].
  destruct (requiredBy r) as [t|]; [|done].
  apply bool_decide_eq_true in Ht. eauto.
Qed.

Lemma confirmDonation_ledger body w w' o :
  confirmDonation re env body w = (w', o) →
  requests w' = requests w ∨
  ∃ w1 res,
    resolve re env body w = (w1, Next res) ∧
    ledgerMove env (token (resLocation res)) (resRequestId res)
               (resRequest res) (requests w1) (requests w').
Proof.
  intros H. apply confirmDonation_inv in H
    as [H | [[H _] | (w1 & res & H & Hc)]].
  - left. apply resolve_inv in H. simpl in H.
    destruct H as [(_ & _ & ->) | (d & _ & [(_ & _ & ->) | [(_ & _ & -> & _) | (_ & _ & -> & _)]])];
      done.
  - left. apply resolve_inv in H as (d & _ & _ & ->). done.
  - right. exists w1, res. split; [done|]. unfold ledgerMove.
    destruct Hc as [Hc | [Hc _]]; apply commit_inv in Hc; simpl in Hc.
    + destruct Hc as (_ & D & _ & [(_ & Hp & ->) | [(_ & _ & -> & _) | [(_ & Hf) | (_ & _ & r0 & L & Hr0 & Hres & -> & _)]]]).
      * right. left. done.
      * by left.
      * destruct Hf as [-> | (r0 & Hr0 & Hres & ->)]; [by left|].
        right. right. exists r0. split; [done|]. split; [done|]. by left.
      * right. right. exists r0. split; [done|]. split; [done|]. by right.
    + left. by destruct Hc as [-> | ->].
Qed.

(** A property of single requests that the three writes keep holds
    of the whole collection after a move. *)
Lemma ledgerMove_all (P : BloodRequest → Prop) tok rid r R R' :
  (∀ x, P x → P (expire x)) →
  (∀ x, P x → reservable tok x = true → P (increment x)) →
  (∀ x, P x → reservable tok x = true → P (reserved env x)) →
  ledgerMove env tok rid r R R' →
  (∀ k x, R !! k = Some x → P x) →
  ∀ k x, R' !! k = Some x → P x.
Proof.
  intros He Hi Hr Hmove HR k x Hk.
  destruct Hmove as [-> | [[_ ->] | (r0 & Hr0 & Hres & [-> | ->])]].
  - by eapply HR.
  - apply lookup_alter_Some in Hk as [(-> & y & Hy & ->) | [_ Hk]].
    + apply He. by eapply HR.
    + by eapply HR.
  - apply lookup_insert_Some in Hk as [[-> <-] | [_ Hk]].
    + apply Hi; [by eapply HR | done].
    + by eapply HR.
  - apply lookup_insert_Some in Hk as [[-> <-] | [_ Hk]].
    + apply Hr; [by eapply HR | done].
    + by eapply HR.
Qed.

(** The same for the resolution stage, which can only add the request
    it creates. *)
Lemma resolve_all (P : BloodRequest → Prop) body w w1 res :
  (∀ x, created env x → P x) →
  resolve re env body w = (w1, Next res) →
  (∀ k x, requests w !! k = Some x → P x) →
  ∀ k x, requests w1 !! k = Some x → P x.
Proof.
  intros Hc H HR k x Hk. apply resolve_inv in H. simpl in H.
  destruct H as (_ & _ & _ & _ & _ & _ & R & -> & [-> | (_ & Hcr & _ & ->)]);
    simpl in Hk.
  - by eapply HR.
  - apply lookup_insert_Some in Hk as [[_ <-] | [_ Hk]]; [by apply Hc|].
    by eapply HR.
Qed.

Lemma confirmDonation_all (P : BloodRequest → Prop) body w :
  (∀ x, created env x → P x) →
  (∀ x, P x → P (expire x)) →
  (∀ tok x, P x → reservable tok x = true → P (increment x)) →
  (∀ tok x, P x → reservable tok x = true → P (reserved env x)) →
  (∀ k x, requests w !! k = Some x → P x) →
  ∀ k x, requests (confirmDonation re env body w).1 !! k = Some x → P x.
Proof.
  intros Hc He Hi Hr HR.
  destruct (confirmDonation re env body w) as [w' o] eqn:H. simpl.
  apply confirmDonation_ledger in H as [-> | (w1 & res & H & Hmove)];
    [done|].
  eapply ledgerMove_all; [done | apply Hi | apply Hr | done |].
  by eapply resolve_all.
Qed.

(** *** Running forward *)

Lemma bind_next {A B} (m : Handler A) (k : A → Handler B) w w1 a :
  m w = (w1, Next a) → (m ≫= k) w = k a w1.
Proof. unfold mbind, Handler_bind. by intros ->. Qed.

Lemma bind_reply {A B} (m : Handler A) (k : A → Handler B) w w1 o :
  m w = (w1, Reply o) → (m ≫= k) w = (w1, Reply o).
Proof. unfold mbind, Handler_bind. by intros ->. Qed.

Lemma updateLastDonation_reliable d donorRecord w :
  reliable env →
  ∃ D, updateLastDonation env d donorRecord w = (withDonors D w, Next ()).
Proof.
  intros Hrel. destruct donorRecord as [[k x]|].
  - eexists. by apply updateLastDonation_saved.
  - unfold updateLastDonation, saveLastDonation. unfold_handler.
    rewrite !Hrel.
    destruct (findOne (hasUniqueId d) (donors w)) as [[k x]|].
    + by eexists.
    + exists (donors w). by destruct w.
Qed.

Lemma resolve_not_found body w d :
  truthy (bodyDonorId body) = Some d →
  d ∉ processingLock w →
  findOneSortDesc (isCompletedBy d) completedAt (histories w) = None →
  findOne (hasDonorId d) (locations w) = None →
  reliable env →
  resolve re env body w = (unlock d (locked d w), Reply DonorNotFound).
Proof.
  intros Hd Hlock Hhist Hloc Hrel. unfold resolve. rewrite Hd.
  erewrite bind_next;
    [|by rewrite acquireLock_run, bool_decide_eq_false_2].
  erewrite bind_next; [|by apply checkExistingDonation_none].
  erewrite bind_reply; [done|]. by apply findLocation_none.
Qed.

End Pieces.

Section Claims.

Variable re : string → option (string → bool).

Lemma capped_step env body w :
  capped w → capped (confirmDonation re env body w).1.
Proof.
  unfold capped. intros Hw.
  apply (confirmDonation_all re env (λ x, confirmedUnits x ≤ quantity x));
    try done.
  - intros x (_ & -> & _ & _ & -> & _). lia.
  - intros tok x _ (_ & Hlt & _)%reservable_inv. simpl. lia.
  - intros tok x _ (_ & Hlt & _)%reservable_inv.
    destruct (reserved_fields env x) as [-> ->]. lia.
Qed.

Lemma bounded_step env body w :
  bounded w → bounded (confirmDonation re env body w).1.
Proof.
  unfold bounded. intros Hw.
  apply (confirmDonation_all re env
           (λ x, 0 ≤ confirmedUnits x ≤ quantity x)); try done.
  - intros x (_ & -> & _ & _ & -> & _). lia.
  - intros tok x ? (_ & Hlt & _)%reservable_inv. simpl. lia.
  - intros tok x ? (_ & Hlt & _)%reservable_inv.
    destruct (reserved_fields env x) as [-> ->]. lia.
Qed.

(** Each write keeps every counter within its quantity, in whatever
    order the writes of different calls reach the store. *)
Lemma ledgerStep_capped R R' :
  ledgerStep R R' →
  (∀ k r, R !! k = Some r → confirmedUnits r ≤ quantity r) →
  ∀ k r, R' !! k = Some r → confirmedUnits r ≤ quantity r.
Proof.
  intros Hstep HR k r Hk. destruct Hstep as [e k0 r0 R Hnone Hc | k0 R | tok k0 r0 R Hr0 Hok | e k0 R].
  - apply lookup_insert_Some in Hk as [[_ <-] | [_ Hk]]; [|by eapply HR].
    destruct Hc as (_ & -> & _ & _ & -> & _). lia.
  - apply lookup_alter_Some in Hk as [(_ & y & Hy & ->) | [_ Hk]];
      [|by eapply HR].
    simpl. by eapply HR.
  - apply lookup_insert_Some in Hk as [[_ <-] | [_ Hk]]; [|by eapply HR].
    apply reservable_inv in Hok as (_ & Hlt & _). simpl. lia.
  - apply lookup_alter_Some in Hk as [(_ & y & Hy & ->) | [_ Hk]];
      [|by eapply HR].
    simpl. by eapply HR.
Qed.

Lemma ledgerSteps_capped R R' :
  rtc ledgerStep R R' →
  (∀ k r, R !! k = Some r → confirmedUnits r ≤ quantity r) →
  ∀ k r, R' !! k = Some r → confirmedUnits r ≤ quantity r.
Proof.
  induction 1 as [|R R1 R' Hstep _ IH]; [done|].
  intros HR. apply IH. by eapply ledgerStep_capped.
Qed.

(** What a call does to the request collection is a run of such writes. *)
Lemma confirmDonation_ledgerSteps env body w :
  rtc ledgerStep (requests w) (requests (confirmDonation re env body w).1).
Proof.
  destruct (confirmDonation re env body w) as [w' o] eqn:H. simpl.
  apply confirmDonation_ledger in H as [-> | (w1 & res & Hres & Hmove)];
    [done|].
  apply resolve_inv in Hres. simpl in Hres.
  destruct Hres as (_ & _ & _ & _ & _ & _ & R & -> & HR). simpl in Hmove.
  transitivity R.
  { destruct HR as [-> | (Hnone & Hc & _ & ->)]; [done|].
    apply rtc_once. by eapply step_create. }
  destruct Hmove as [-> | [[_ ->] | (r0 & Hr0 & Hok & [-> | ->])]].
  - done.
  - apply rtc_once, step_expire.
  - apply rtc_once. by eapply step_reserve.
  - eapply rtc_l; [by eapply step_reserve|].
    unfold reserved. case_bool_decide; [|done].
    apply rtc_once.
    rewrite <- (alter_insert_eq R (resRequestId res) (fulfil env) (increment r0)).
    apply step_fulfil.
Qed.

(** C1 (amended). The counter of a request never exceeds its
    quantity: one call keeps [confirmedUnits <= quantity], and keeps
    [0 <= confirmedUnits <= quantity], for every request, and so does
    every sequence of calls; what a call does to the request
    collection is a run of atomic writes each of which keeps
    [confirmedUnits <= quantity], so that writes of overlapping calls,
    in any order, keep it too; and a call changes the counter of a
    stored request only by adding one to the request it resolved,
    which was then active with [confirmedUnits < quantity] and, when
    the location's token is present, non-empty and without the
    [DIRECT_] prefix, held that token among its active tokens. *)
Theorem confirmedUnits_never_exceed_quantity :
  (∀ env body w, capped w → capped (confirmDonation re env body w).1) ∧
  (∀ env body w, bounded w → bounded (confirmDonation re env body w).1) ∧
  (∀ calls w, capped w → capped (confirmDonations re calls w)) ∧
  (∀ calls w, bounded w → bounded (confirmDonations re calls w)) ∧
  (∀ env body w,
     rtc ledgerStep (requests w) (requests (confirmDonation re env body w).1)) ∧
  (∀ w w', rtc ledgerStep (requests w) (requests w') → capped w → capped w') ∧
  (∀ env body w k r r',
     requests w !! k = Some r →
     requests (confirmDonation re env body w).1 !! k = Some r' →
     confirmedUnits r' ≠ confirmedUnits r →
     confirmedUnits r' = confirmedUnits r + 1 ∧
     quantity r' = quantity r ∧
     status r = active ∧
     confirmedUnits r < quantity r ∧
     ∃ w1 res,
       resolve re env body w = (w1, Next res) ∧
       k = resRequestId res ∧
       ∀ t, tokenChecked (token (resLocation res)) = Some t →
            t ∈ activeTokens r).
Proof.
  split; [apply capped_step|]. split; [apply bounded_step|].
  split.
  { intros calls. induction calls as [|[e b] calls IH]; intros w Hw;
      simpl; [done|]. apply IH. by apply capped_step. }
  split.
  { intros calls. induction calls as [|[e b] calls IH]; intros w Hw;
      simpl; [done|]. apply IH. by apply bounded_step. }
  split; [apply confirmDonation_ledgerSteps|].
  split; [intros w w' Hrun Hw; exact (ledgerSteps_capped _ _ Hrun Hw)|].
  intros env body w k r r' Hk Hk' Hne.
  destruct (confirmDonation re env body w) as [w' o] eqn:H. simpl in Hk'.
  apply confirmDonation_ledger in H as [Heq | (w1 & res & Hres & Hmove)].
  { rewrite Heq in Hk'. congruence. }
  pose proof Hres as Hinv. apply resolve_inv in Hinv. simpl in Hinv.
  destruct Hinv as (_ & _ & _ & _ & _ & _ & R & Hw1 & HR).
  assert (requests w1 !! k = Some r) as HRk.
  { subst w1. simpl.
    destruct HR as [-> | (Hnone & _ & _ & ->)]; [done|].
    rewrite lookup_insert_ne; [done|]. congruence. }
  destruct Hmove as [Heq | [[_ Heq] | (r0 & Hr0 & Hok & Heq)]].
  - rewrite Heq in Hk'. congruence.
  - rewrite Heq in Hk'.
    apply lookup_alter_Some in Hk' as [(<- & y & Hy & ->) | [_ Hk']];
      [|congruence].
    rewrite HRk in Hy. injection Hy as <-. done.
  - assert (k = resRequestId res ∧
            (r' = increment r0 ∨ r' = reserved env r0)) as [-> Hr'].
    { destruct Heq as [Heq | Heq]; rewrite Heq in Hk';
        apply lookup_insert_Some in Hk' as [[<- <-] | [_ Hk']];
        try congruence; split; auto. }
    rewrite HRk in Hr0. injection Hr0 as <-.
    apply reservable_inv in Hok as (Hs & Hlt & Htok).
    assert (confirmedUnits r' = confirmedUnits r + 1 ∧
            quantity r' = quantity r) as [? ?].
    { destruct Hr' as [-> | ->]; [done | apply reserved_fields]. }
    repeat (split; [done|]).
    exists w1, res. done.
Qed.

(** The stored copy of a resolved request, in the world the request
    collection is next read from. *)
Lemma resolve_stored env body w w1 res :
  resolve re env body w = (w1, Next res) →
  requests w1 !! resRequestId res = Some (resRequest res) ∧
  processingLock w1 = {[resDonorId res]} ∪ processingLock w ∧
  histories w1 = histories w ∧ locations w1 = locations w ∧
  donors w1 = donors w ∧
  ∀ k r, requests w !! k = Some r → requests w1 !! k = Some r.
Proof.
  intros H. apply resolve_inv in H. simpl in H.
  destruct H as (_ & _ & _ & _ & _ & Hst & R & -> & HR).
  repeat (split; [done|]). simpl.
  destruct HR as [-> | (Hnone & _ & _ & ->)]; [done|].
  intros k r Hk. rewrite lookup_insert_ne; [done|]. congruence.
Qed.

Lemma frozen_step env body w w' o k r :
  confirmDonation re env body w = (w', o) →
  requests w !! k = Some r → status r ≠ active →
  requests w' !! k = Some r.
Proof.
  intros H Hk Hs.
  apply confirmDonation_ledger in H as [-> | (w1 & res & Hres & Hmove)];
    [done|].
  apply resolve_stored in Hres as (Hst & _ & _ & _ & _ & Hkeep).
  apply Hkeep in Hk.
  assert (∀ x, requests w1 !! resRequestId res = Some x →
               status x = active → k ≠ resRequestId res) as Hother.
  { intros x Hx Hact ->. rewrite Hk in Hx. congruence. }
  destruct Hmove as [-> | [[Hp ->] | (r0 & Hr0 & Hok & [-> | ->])]].
  - done.
  - apply pastDeadline_inv in Hp as [Hact _].
    rewrite lookup_alter_ne; [done|]. symmetry. by eapply Hother.
  - apply reservable_inv in Hok as [Hact _].
    rewrite lookup_insert_ne; [done|]. symmetry. by eapply Hother.
  - apply reservable_inv in Hok as [Hact _].
    rewrite lookup_insert_ne; [done|]. symmetry. by eapply Hother.
Qed.

(** What one call does to a stored request: nothing, or, the request
    being active, the expiry save, the increment, or the increment with
    the fulfilment save. *)
Lemma stored_request_moves env body w w' o k r :
  confirmDonation re env body w = (w', o) →
  requests w !! k = Some r →
  ∃ r', requests w' !! k = Some r' ∧
        (r' = r ∨
         (status r = active ∧
          (r' = expire r ∨ r' = increment r ∨ r' = reserved env r))).
Proof.
  intros H Hk.
  apply confirmDonation_ledger in H as [-> | (w1 & res & Hres & Hmove)];
    [exists r; by split; [|left]|].
  apply resolve_stored in Hres as (Hst & _ & _ & _ & _ & Hkeep).
  apply Hkeep in Hk.
  destruct Hmove as [-> | [[Hp ->] | (r0 & Hr0 & Hok & Hmove)]].
  - exists r. split; [done | by left].
  - apply pastDeadline_inv in Hp as [Hact _].
    destruct (decide (resRequestId res = k)) as [<- | Hne].
    + rewrite Hst in Hk. injection Hk as <-.
      exists (expire (resRequest res)).
      rewrite lookup_alter_eq, Hst. split; [done|]. right. auto.
    + exists r. rewrite lookup_alter_ne by done. split; [done | by left].
  - apply reservable_inv in Hok as [Hact _].
    destruct (decide (resRequestId res = k)) as [<- | Hne].
    + rewrite Hr0 in Hk. injection Hk as <-.
      destruct Hmove as [-> | ->]; eexists;
        (split; [apply lookup_insert_eq|]); right; auto.
    + exists r. split; [|by left].
      destruct Hmove as [-> | ->]; by rewrite lookup_insert_ne.
Qed.

Lemma frozen_steps calls w k r :
  requests w !! k = Some r → status r ≠ active →
  requests (confirmDonations re calls w) !! k = Some r.
Proof.
  revert w. induction calls as [|[e b] calls IH]; intros w Hk Hs; simpl;
    [done|].
  apply IH; [|done].
  destruct (confirmDonation re e b w) as [w' o] eqn:H. simpl.
  by eapply frozen_step.
Qed.

Lemma closedClean_step env body w :
  closedClean w → closedClean (confirmDonation re env body w).1.
Proof.
  unfold closedClean. intros Hw.
  apply (confirmDonation_all re env
           (λ x, status x ≠ active → activeTokens x = [])); try done.
  - intros x (_ & _ & Hact & _) Hn. congruence.
  - intros tok x _ (Hact & _)%reservable_inv. unfold reserved.
    case_bool_decide; simpl; [done | congruence].
Qed.

(** What a call leaves of the requests that are not active, and what a
    completed call has done. *)
Lemma closed_requests_frozen env body w w' o :
  confirmDonation re env body w = (w', o) →
  (∀ k r, requests w !! k = Some r → status r ≠ active →
          requests w' !! k = Some r) ∧
  (∀ calls k r, requests w' !! k = Some r → status r ≠ active →
                requests (confirmDonations re calls w') !! k = Some r) ∧
  (closedClean w → closedClean w') ∧
  (∀ k r, requests w !! k = Some r →
          ∃ r', requests w' !! k = Some r' ∧
                (status r' ≠ status r →
                 status r = active ∧
                 (status r' = fulfilled ∨ status r' = expired) ∧
                 activeTokens r' = [])) ∧
  (∀ w1 res, resolve re env body w = (w1, Next res) →
             status (resRequest res) ≠ active →
             ∀ dn, o ≠ Completed dn) ∧
  (∀ dn, o = Completed dn →
         ∃ w1 res r',
           resolve re env body w = (w1, Next res) ∧
           status (resRequest res) = active ∧
           confirmedUnits (resRequest res) < quantity (resRequest res) ∧
           requests w' !! resRequestId res = Some r' ∧
           confirmedUnits r' = confirmedUnits (resRequest res) + 1 ∧
           quantity r' = quantity (resRequest res) ∧
           (confirmedUnits r' = quantity r' →
            status r' = fulfilled ∧ fulfilledAt r' = Some (now env) ∧
            activeTokens r' = []) ∧
           (confirmedUnits r' ≠ quantity r' →
            status r' = active ∧
            fulfilledAt r' = fulfilledAt (resRequest res) ∧
            activeTokens r' = activeTokens (resRequest res))).
Proof.
  intros H.
  assert (∀ dn, o = Completed dn →
            ∃ w1 res r0,
              resolve re env body w = (w1, Next res) ∧
              requests w1 !! resRequestId res = Some r0 ∧
              reservable (token (resLocation res)) r0 = true ∧
              requests w' !! resRequestId res = Some (reserved env r0))
    as Hdone.
  { intros dn ->. apply confirmDonation_inv in H
      as [H | [[_ ?] | (w1 & res & Hres & [Hc | [_ ?]])]]; try done.
    - apply resolve_inv in H. simpl in H.
      destruct H as [(? & _) | (d & _ & [(? & _) | [(? & _) | (? & _)]])];
        done.
    - apply commit_inv in Hc. simpl in Hc.
      destruct Hc as (_ & D & _ & [(? & _) | [(? & _) | [(? & _) | (_ & _ & r0 & L & Hr0 & Hok & -> & _)]]]);
        try done.
      exists w1, res, r0. repeat (split; [done|]). simpl.
      apply lookup_insert_eq. }
  split; [intros k r; by eapply frozen_step|].
  split; [intros calls k r; by apply frozen_steps|].
  split.
  { intros Hw. pose proof (closedClean_step env body w Hw) as Hc.
    by rewrite H in Hc. }
  split.
  { intros k r Hk.
    destruct (stored_request_moves env body w w' o k r H Hk)
      as (r' & Hk' & Hr').
    exists r'. split; [done|]. intros Hne.
    destruct Hr' as [-> | (Hact & [-> | [-> | ->]])]; try done.
    - split; [done|]. split; [by right | done].
    - unfold reserved in *. case_bool_decide; [|done].
      split; [done|]. split; [by left | done]. }
  split.
  { intros w1 res Hres Hs dn ->.
    destruct (Hdone dn eq_refl) as (w2 & res2 & r0 & Hres2 & Hr0 & Hok & _).
    rewrite Hres in Hres2. injection Hres2 as <- <-.
    apply resolve_stored in Hres as [Hst _].
    rewrite Hst in Hr0. injection Hr0 as <-.
    by apply reservable_inv in Hok as [? _]. }
  intros dn Ho.
  destruct (Hdone dn Ho) as (w1 & res & r0 & Hres & Hr0 & Hok & Hr').
  pose proof Hres as [Hst _]%resolve_stored.
  rewrite Hst in Hr0. injection Hr0 as <-.
  apply reservable_inv in Hok as (Hact & Hlt & _).
  exists w1, res, (reserved env (resRequest res)).
  repeat (split; [done|]).
  destruct (reserved_fields env (resRequest res)) as [Hcu Hq].
  split; [done|]. split; [done|].
  rewrite Hcu, Hq. unfold reserved.
  split; intros Hcmp; case_bool_decide; simpl; try done; lia.
Qed.

(** A call whose resolved request the reservation accepts, and whose
    deadline has not passed, completes. *)
Lemma accepted_reservation_completes env body w w1 res :
  resolve re env body w = (w1, Next res) →
  reliable env →
  histories w !! newDonationId env = None →
  pastDeadline env (resRequest res) = false →
  reservable (token (resLocation res)) (resRequest res) = true →
  ∃ w' dn,
    confirmDonation re env body w = (w', Completed dn) ∧
    requests w' !! resRequestId res = Some (reserved env (resRequest res)).
Proof.
  intros Hres Hrel Hfresh Hp Hok.
  pose proof Hres as (Hst & _ & Hhist & _)%resolve_stored.
  set (donation :=
         donationOf env (resDonorId res) (bodyDonorName body)
           (resLocation res) (resDonor res) (resRequestId res)
           (resRequest res)).
  set (written :=
         withHistories (<[newDonationId env := donation]> (histories w1)) w1).
  destruct (updateLastDonation_reliable env (resDonorId res) (resDonor res)
              written Hrel) as [D HD].
  set (reservedWorld :=
         withRequests (<[resRequestId res := reserved env (resRequest res)]>
                         (requests (withDonors D written)))
                      (withDonors D written)).
  destruct (removeFromMap env (resDonorId res) reservedWorld) as [w5 f5] eqn:Hrm.
  pose proof Hrm as [-> (L & -> & _)]%removeFromMap_inv.
  exists (withLocations L reservedWorld), donation. split.
  - unfold confirmDonation, handlerBody.
    rewrite (bind_next _ _ _ _ _ Hres). unfold commit.
    erewrite bind_next;
      [|apply createDonation_fresh; [apply Hrel | by rewrite Hhist]].
    erewrite bind_next; [|apply HD].
    erewrite bind_next;
      [|apply (updateRequest_reserved env _ _ _ _ (resRequest res));
        [done | apply Hrel | apply Hrel | exact Hst | done]].
    erewrite bind_next; [|exact Hrm]. done.
  - simpl. apply lookup_insert_eq.
Qed.

(** C3. A request that is not active stays as it is through a call
    and through every sequence of later calls: the stored document is
    unchanged (status, confirmed units and tokens), closed requests
    keep holding no token, and a call whose resolved request is not
    active never completes, whatever the token.  A call changes the
    status of a stored request only from active, to fulfilled or
    expired, and then leaves it without token.  A call that completes
    has incremented a request that was active and below its quantity,
    and it has closed that request (status fulfilled, fulfilment time
    stamped, tokens cleared) exactly when the incremented counter
    equals the quantity.  And the closing step does fire: a call whose
    resolved request is active, below its quantity and before its
    deadline, with a token the reservation accepts (no database call
    rejecting, the identifier of the history record being free),
    completes, stores the incremented counter, and closes the request
    when that counter equals the quantity, leaving it active with its
    tokens otherwise. *)
Theorem closed_requests_stay_closed env body w w' o :
  confirmDonation re env body w = (w', o) →
  ((∀ k r, requests w !! k = Some r → status r ≠ active →
          requests w' !! k = Some r) ∧
  (∀ calls k r, requests w' !! k = Some r → status r ≠ active →
                requests (confirmDonations re calls w') !! k = Some r) ∧
  (closedClean w → closedClean w') ∧
  (∀ k r, requests w !! k = Some r →
          ∃ r', requests w' !! k = Some r' ∧
                (status r' ≠ status r →
                 status r = active ∧
                 (status r' = fulfilled ∨ status r' = expired) ∧
                 activeTokens r' = [])) ∧
  (∀ w1 res, resolve re env body w = (w1, Next res) →
             status (resRequest res) ≠ active →
             ∀ dn, o ≠ Completed dn) ∧
  (∀ dn, o = Completed dn →
         ∃ w1 res r',
           resolve re env body w = (w1, Next res) ∧
           status (resRequest res) = active ∧
           confirmedUnits (resRequest res) < quantity (resRequest res) ∧
           requests w' !! resRequestId res = Some r' ∧
           confirmedUnits r' = confirmedUnits (resRequest res) + 1 ∧
           quantity r' = quantity (resRequest res) ∧
           (confirmedUnits r' = quantity r' →
            status r' = fulfilled ∧ fulfilledAt r' = Some (now env) ∧
            activeTokens r' = []) ∧
           (confirmedUnits r' ≠ quantity r' →
            status r' = active ∧
            fulfilledAt r' = fulfilledAt (resRequest res) ∧
            activeTokens r' = activeTokens (resRequest res)))) ∧
  (∀ w1 res,
     resolve re env body w = (w1, Next res) →
     reliable env →
     histories w !! newDonationId env = None →
     pastDeadline env (resRequest res) = false →
     reservable (token (resLocation res)) (resRequest res) = true →
     ∃ dn r',
       o = Completed dn ∧
       requests w' !! resRequestId res = Some r' ∧
       confirmedUnits r' = confirmedUnits (resRequest res) + 1 ∧
       quantity r' = quantity (resRequest res) ∧
       (confirmedUnits r' = quantity r' →
        status r' = fulfilled ∧ fulfilledAt r' = Some (now env) ∧
        activeTokens r' = []) ∧
       (confirmedUnits r' ≠ quantity r' →
        status r' = active ∧
        fulfilledAt r' = fulfilledAt (resRequest res) ∧
        activeTokens r' = activeTokens (resRequest res))).
Proof.
  intros H. split; [by apply closed_requests_frozen|].
  intros w1 res Hres Hrel Hfresh Hp Hok.
  destruct (accepted_reservation_completes env body w w1 res Hres Hrel Hfresh
              Hp Hok) as (w2 & dn & Hrun & Hstored).
  rewrite H in Hrun. injection Hrun as <- ->.
  exists dn, (reserved env (resRequest res)). split; [done|]. split; [done|].
  apply reservable_inv in Hok as (Hact & Hlt & _).
  destruct (reserved_fields env (resRequest res)) as [Hcu Hq].
  split; [done|]. split; [done|].
  rewrite Hcu, Hq. unfold reserved.
  split; intros Hcmp; case_bool_decide; simpl; try done; lia.
Qed.

(** The guard across one call, exit by exit. *)
Lemma confirmDonation_lock env body w w' o d :
  truthy (bodyDonorId body) = Some d →
  confirmDonation re env body w = (w', o) →
  (o = AlreadyProcessing ∧ d ∈ processingLock w ∧ w' = w) ∨
  ((d ∉ processingLock w) ∧
   ((keepsGuard o ∧ processingLock w' = {[d]} ∪ processingLock w) ∨
    (releasesGuard o ∧
     processingLock w' = ({[d]} ∪ processingLock w) ∖ {[d]}))).
Proof.
  intros Hd H.
  apply confirmDonation_inv in H
    as [H | [[H ->] | (w1 & res & Hres & Hc)]].
  - apply resolve_inv in H. simpl in H.
    destruct H as [(_ & Hn & _) | (d0 & Hd0 & H)]; [congruence|].
    rewrite Hd in Hd0. injection Hd0 as <-.
    destruct H as [(-> & Hin & ->) | [(-> & Hnin & -> & _) | (-> & Hnin & -> & _)]].
    + by left.
    + right. split; [done|]. by left.
    + right. split; [done|]. by right.
  - apply resolve_inv in H as (d0 & Hd0 & Hnin & ->).
    rewrite Hd in Hd0. injection Hd0 as <-.
    right. split; [done|]. by left.
  - apply resolve_inv in Hres. simpl in Hres.
    destruct Hres as (Hd0 & Hnin & _ & _ & _ & _ & R & -> & _).
    rewrite Hd in Hd0. injection Hd0 as Hd0. subst d.
    right. split; [done|].
    destruct Hc as [Hc | [Hc ->]]; apply commit_inv in Hc; simpl in Hc.
    + destruct Hc as (_ & D & _ & [(-> & _ & ->) | [(-> & _ & -> & _) | [(-> & Hf) | (-> & _ & r0 & L & _ & _ & -> & _)]]]).
      * by right.
      * by right.
      * right. split; [done|]. by destruct Hf as [-> | (r0 & _ & _ & ->)].
      * by left.
    + left. split; [done|]. by destruct Hc as [-> | ->].
Qed.

(** C4 (amended). A call for a donor id held by the guard is refused
    with [AlreadyProcessing] and changes nothing, and no other call is
    refused that way.  The guard keeps the donor id after a completed
    donation and after [AlreadyDonated]; it no longer holds it after
    [DonorNotFound], [RequestExpired], [ReservationConflict] and a
    failed database update of the reservation step.  The entries of
    other donor ids are left as they were. *)
Theorem guard_release_policy env body w w' o d :
  truthy (bodyDonorId body) = Some d →
  confirmDonation re env body w = (w', o) →
  (o = AlreadyProcessing ↔ d ∈ processingLock w) ∧
  (d ∈ processingLock w → w' = w) ∧
  ((∃ dn, o = Completed dn) ∨ o = AlreadyDonated → d ∈ processingLock w') ∧
  (o = DonorNotFound ∨ o = RequestExpired ∨ o = ReservationConflict ∨
   o = DatabaseUpdateFailed → d ∉ processingLock w') ∧
  (∀ d', d' ≠ d → d' ∈ processingLock w' ↔ d' ∈ processingLock w).
Proof.
  intros Hd H.
  destruct (confirmDonation_lock env body w w' o d Hd H)
    as [(-> & Hin & ->) | (Hnin & Hcases)].
  - split; [done|]. split; [done|].
    split; [intros [[dn ?] | ?]; done|].
    split; [intros [? | [? | [? | ?]]]; done|].
    done.
  - assert (o ≠ AlreadyProcessing) as Hne.
    { intros ->. by destruct Hcases as [[? _] | [? _]]. }
    split; [split; [done | by intros ?]|].
    split; [by intros ?|].
    destruct Hcases as [[Hk Hlock] | [Hr Hlock]]; rewrite Hlock.
    + split.
      { intros _. apply elem_of_union. left. by apply elem_of_singleton. }
      split.
      { intros [-> | [-> | [-> | ->]]]; done. }
      intros d' Hd'. rewrite elem_of_union, elem_of_singleton. tauto.
    + split.
      { intros [[dn ->] | ->]; done. }
      split.
      { intros _. rewrite elem_of_difference, elem_of_singleton. tauto. }
      intros d' Hd'.
      rewrite elem_of_difference, elem_of_union, elem_of_singleton. tauto.
Qed.

(** C10. When a call has resolved a registered donor and then ends
    with [RequestExpired] or [ReservationConflict], the stored profile
    of that donor carries the time of the call as its last donation
    date, its other fields being unchanged. *)
Theorem donor_stamped_before_reservation env body w w' o w1 res k x :
  resolve re env body w = (w1, Next res) →
  resDonor res = Some (k, x) →
  confirmDonation re env body w = (w', o) →
  o = RequestExpired ∨ o = ReservationConflict →
  donors w !! k = Some x ∧
  ∃ x', donors w' !! k = Some x' ∧
        lastDonationDate x' = Some (now env) ∧
        uniqueId x' = uniqueId x ∧ name x' = name x ∧ phone x' = phone x ∧
        donorBloodGroup x' = donorBloodGroup x.
Proof.
  intros Hres Hdonor H Ho.
  pose proof Hres as Hinv. apply resolve_inv in Hinv. simpl in Hinv.
  destruct Hinv as (_ & _ & _ & _ & Hreg & _ & R & Hw1 & _).
  specialize (Hreg k x Hdonor). split; [done|].
  exists (stampDonor env x). split; [|done].
  apply confirmDonation_inv in H
    as [H | [[_ ->] | (w2 & res2 & Hres2 & Hc)]].
  - rewrite Hres in H. done.
  - by destruct Ho.
  - rewrite Hres in Hres2. injection Hres2 as <- <-.
    destruct Hc as [Hc | [_ ->]]; [|by destruct Ho].
    apply commit_inv in Hc. simpl in Hc.
    destruct Hc as (_ & D & HD & Hc). rewrite (HD k x Hdonor) in Hc.
    assert (donors w' = alter (stampDonor env) k (donors w1)) as ->.
    { destruct Hc as [(_ & _ & ->) | [(_ & _ & -> & _) | [(-> & _) | (-> & _)]]];
        try done; by destruct Ho. }
    rewrite lookup_alter_eq. subst w1. simpl. by rewrite Hreg.
Qed.

(** The history record is written before the request is touched: every
    exit of the reservation step, refused or not, leaves one new
    completed record behind. *)
Lemma history_precedes_reservation env body w w' o :
  confirmDonation re env body w = (w', o) →
  o = RequestExpired ∨ o = ReservationConflict ∨ o = DatabaseUpdateFailed ∨
  (∃ dn, o = Completed dn) →
  ∃ dn, histories w !! newDonationId env = None ∧
        histories w' = <[newDonationId env := dn]> (histories w) ∧
        dhStatus dn = completed ∧
        ∀ dn', o = Completed dn' → dn' = dn.
Proof.
  intros H Ho.
  apply confirmDonation_inv in H
    as [H | [[_ ->] | (w1 & res & Hres & [Hc | [_ ->]])]].
  - apply resolve_inv in H. simpl in H.
    destruct H as [(-> & _) | (d & _ & [(-> & _) | [(-> & _) | (-> & _)]])];
      destruct Ho as [? | [? | [? | [dn ?]]]]; done.
  - destruct Ho as [? | [? | [? | [dn ?]]]]; done.
  - apply resolve_stored in Hres as (_ & _ & Hhist & _).
    apply commit_inv in Hc. simpl in Hc. rewrite Hhist in Hc.
    destruct Hc as (Hfresh & D & _ & Hc).
    eexists. split; [done|].
    destruct Hc as [(-> & _ & ->) | [(-> & _ & -> & _) | [(-> & Hf) | (-> & _ & r0 & L & _ & _ & -> & _)]]];
      try (destruct Hf as [-> | (r0 & _ & _ & ->)]); simpl;
      (split; [done|]); (split; [done|]); intros dn' ?; by simplify_eq.
  - destruct Ho as [? | [? | [? | [dn ?]]]]; done.
Qed.

(** A completed call in which no database call rejects has deleted the
    location record it consumed. *)
Lemma completed_call_consumes_location env body w w' dn :
  confirmDonation re env body w = (w', Completed dn) →
  reliable env →
  ∃ w1 res k,
    resolve re env body w = (w1, Next res) ∧
    findOne (hasDonorId (resDonorId res)) (locations w) = Some (k, resLocation res) ∧
    locations w' = delete k (locations w).
Proof.
  intros H Hrel.
  apply confirmDonation_inv in H
    as [H | [[_ ?] | (w1 & res & Hres & [Hc | [_ ?]])]]; try done.
  - apply resolve_inv in H. simpl in H.
    destruct H as [(? & _) | (d & _ & [(? & _) | [(? & _) | (? & _)]])]; done.
  - pose proof Hres as Hinv. apply resolve_inv in Hinv. simpl in Hinv.
    destruct Hinv as (_ & _ & _ & [k Hloc] & _).
    pose proof Hres as (_ & _ & _ & Hlocs & _)%resolve_stored.
    apply commit_inv in Hc. simpl in Hc. rewrite Hlocs in Hc.
    destruct Hc as (_ & D & _ & [(? & _) | [(? & _) | [(? & _) | (_ & _ & r0 & L & _ & _ & -> & _ & HL)]]]);
      try done.
    exists w1, res, k. split; [done|]. split; [done|]. simpl.
    by apply (HL Hrel k (resLocation res)).
Qed.

(** C5. When the request a call resolves is still active and its
    deadline lies before the time of the call, the call (no database
    call rejecting, the identifier of the history record being free)
    answers [RequestExpired] and leaves that request stored with
    status expired, no active token, and its counter and quantity as
    they were. *)
Theorem expired_request_is_closed env body w w1 res deadline :
  resolve re env body w = (w1, Next res) →
  status (resRequest res) = active →
  requiredBy (resRequest res) = Some deadline →
  deadline < now env →
  reliable env →
  histories w !! newDonationId env = None →
  ∃ w', confirmDonation re env body w = (w', RequestExpired) ∧
        ∃ r', requests w' !! resRequestId res = Some r' ∧
              status r' = expired ∧ activeTokens r' = [] ∧
              confirmedUnits r' = confirmedUnits (resRequest res) ∧
              quantity r' = quantity (resRequest res).
Proof.
  intros Hres Hact Hreq Hlt Hrel Hfresh.
  pose proof Hres as (Hst & _ & Hhist & _)%resolve_stored.
  assert (pastDeadline env (resRequest res) = true) as Hpast.
  { unfold pastDeadline. rewrite Hreq, !bool_decide_eq_true_2; done. }
  set (written :=
         withHistories
           (<[newDonationId env :=
                donationOf env (resDonorId res) (bodyDonorName body)
                  (resLocation res) (resDonor res) (resRequestId res)
                  (resRequest res)]> (histories w1)) w1).
  destruct (updateLastDonation_reliable env (resDonorId res) (resDonor res)
              written Hrel) as [D HD].
  eexists. split.
  - unfold confirmDonation, handlerBody.
    rewrite (bind_next _ _ _ _ _ Hres). unfold commit.
    erewrite bind_next;
      [|apply createDonation_fresh; [apply Hrel | by rewrite Hhist]].
    erewrite bind_next; [|apply HD].
    erewrite bind_reply; [reflexivity|].
    apply updateRequest_expired; [done | apply Hrel].
  - simpl. rewrite lookup_alter_eq, Hst. simpl. eexists. split; done.
Qed.

(** C6 (amended). For a donor id that passes the guard and has no
    completed donation on record, a call in which no database call
    rejects answers [DonorNotFound] exactly when the location
    collection holds no record with that donor id; the age of a
    record plays no part. *)
Theorem donor_not_found_iff env body w d :
  truthy (bodyDonorId body) = Some d →
  d ∉ processingLock w →
  (∀ k h, histories w !! k = Some h → isCompletedBy d h = false) →
  reliable env →
  (confirmDonation re env body w).2 = DonorNotFound ↔
  ∀ k l, locations w !! k = Some l → donorId l ≠ Some d.
Proof.
  intros Hd Hlock Hhist Hrel. split.
  - destruct (confirmDonation re env body w) as [w' o] eqn:H. simpl.
    intros ->. apply confirmDonation_inv in H
      as [H | [[_ ?] | (w1 & res & _ & [Hc | [_ ?]])]]; try done.
    + apply resolve_inv in H. simpl in H.
      destruct H as [(? & _) | (d0 & Hd0 & [(? & _) | [(? & _) | (_ & _ & _ & Hnone)]])];
        try done.
      rewrite Hd in Hd0. injection Hd0 as <-.
      intros k l Hk Hl. rewrite findOne_None in Hnone.
      specialize (Hnone k l Hk). unfold hasDonorId in Hnone.
      by apply bool_decide_eq_false in Hnone.
    + apply commit_inv in Hc. simpl in Hc.
      destruct Hc as (_ & D & _ & [(? & _) | [(? & _) | [(? & _) | (? & _)]]]);
        done.
  - intros Hnone.
    unfold confirmDonation, handlerBody.
    erewrite bind_reply; [done|].
    apply resolve_not_found; try done.
    + by apply findOneSortDesc_None.
    + apply findOne_None. intros k l Hk. unfold hasDonorId.
      apply bool_decide_eq_false. by eapply Hnone.
Qed.


End Claims.

End MarkDonationFacts.

(** ** The statements on concrete worlds *)

Module ScenarioFacts.

Import Collection MarkDonation Scenarios MarkDonationFacts.

Lemma calm_reliable : reliable calm.
Proof. intros op. reflexivity. Qed.

(** The call run on each scenario, as a pair of its two components. *)
Ltac run_call := vm_compute; reflexivity.

Lemma filterRecentLocations_exact_witness :
  entryAt "a" 6400000 ∈
    LocationFilter.filterRecentLocations 10000000
      [entryAt "a" 6400000; entryAt "b" 6399999; entryAt "c" 10000000]
      (JsNumber.ofZ 1).
Proof.
  apply (proj1 (proj2 (LocationFilterFacts.filterRecentLocations_exact
                         10000000 (JsNumber.ofZ 1)
                         [entryAt "a" 6400000; entryAt "b" 6399999;
                          entryAt "c" 10000000]))
               (entryAt "a" 6400000) 6400000).
  - left.
  - vm_compute. reflexivity.
  - reflexivity.
Defined.

Example filterRecentLocations_boundary :
  LocationFilter.filterRecentLocations_default 10000000
    [entryAt "a" 6400000; entryAt "b" 6399999; entryAt "c" 10000000] =
  [entryAt "a" 6400000; entryAt "c" 10000000].
Proof. vm_compute. reflexivity. Qed.

(** The claim of C9 on every window, refuted: for a window of three
    thousand million hours the cut-off is an Invalid Date; both entries
    are at or after [now - w], and none is returned. *)
Lemma window_beyond_the_date_range :
  let w := 3000000000 in
  LocationFilter.effectiveTime (entryAt "a" 6400000) = Some 6400000 ∧
  LocationFilter.effectiveTime (entryAt "c" 10000000) = Some 10000000 ∧
  10000000 - w * LocationFilter.ONE_HOUR_MS ≤ 6400000 ∧
  LocationFilter.cutoffTime 10000000 (JsNumber.ofZ w) = None ∧
  LocationFilter.filterRecentLocations 10000000
    [entryAt "a" 6400000; entryAt "c" 10000000] (JsNumber.ofZ w) = [].
Proof. repeat split; vm_compute; (reflexivity || discriminate). Qed.

(** A window of half an hour. *)
Example filterRecentLocations_half_hour :
  LocationFilter.cutoffTime 10000000
    (JsNumber.fdiv (JsNumber.ofZ 1) (JsNumber.ofZ 2)) = Some 8200000.
Proof. vm_compute. reflexivity. Qed.

Lemma broadcastNotification_targets_witness :
  (1%nat, NotificationStream.payloadOf forH1) ∈
    NotificationStream.broadcastNotification wards forH1 ∧
  (3%nat, NotificationStream.payloadOf forH1) ∉
    NotificationStream.broadcastNotification wards forH1.
Proof.
  pose proof (proj1 (proj1 (NotificationStreamFacts.broadcastNotification_targets
                              wards forH1) "H1" eq_refl ltac:(discriminate)))
    as H.
  assert (NotificationStream.subscribers wards "H1" = {[1%nat; 2%nat]}) as Hs
    by (vm_compute; reflexivity).
  split.
  - apply H. split; [reflexivity|]. rewrite Hs.
    apply elem_of_union. left. by apply elem_of_singleton.
  - intros [_ Hin]%H. rewrite Hs in Hin.
    apply elem_of_union in Hin as [Hin | Hin];
      apply elem_of_singleton in Hin; discriminate.
Defined.

(** Two connections on H1 and one on H2: both connections of H1 are
    written to, once each, the connection of H2 is not. *)
Example broadcastNotification_two_wards :
  (list_to_set (fst <$> NotificationStream.broadcastNotification wards forH1)
   : gset nat) = {[1%nat; 2%nat]} ∧
  length (NotificationStream.broadcastNotification wards forH1) = 2%nat.
Proof. split; vm_compute; reflexivity. Qed.

Lemma confirmedUnits_never_exceed_quantity_witness :
  bounded (worldWith invited openRequest) ∧
  bounded (confirmDonation exactName calm (callFor "D1")
             (worldWith invited openRequest)).1.
Proof.
  assert (bounded (worldWith invited openRequest)) as Hb.
  { intros k r Hk. unfold worldWith in Hk. cbn [requests] in Hk.
    apply lookup_singleton_Some in Hk as [_ <-]. simpl. lia. }
  split; [exact Hb|].
  apply (proj1 (proj2 (confirmedUnits_never_exceed_quantity exactName))).
  exact Hb.
Defined.

(** The claim of C1 on the token, refuted: with no token on the location
    record the increment is applied, though that token neither carries
    the sentinel nor is among the request's active tokens. *)
Lemma increment_without_token_check :
  let w := worldWith tokenless openRequest in
  let w' := (confirmDonation exactName calm (callFor "D1") w).1 in
  requests w !! "R1" = Some openRequest ∧
  locations w !! "L1" = Some tokenless ∧
  confirmedUnits <$> requests w' !! "R1" = Some (confirmedUnits openRequest + 1) ∧
  ¬ ∃ t, token tokenless = Some t ∧
         (String.prefix "DIRECT_" t = true ∨ t ∈ activeTokens openRequest).
Proof.
  repeat split; try run_call.
  intros (t & Ht & _). discriminate.
Qed.

(** C2, on a closed request: the call is refused with
    [ReservationConflict], the location record stays, and yet a
    completed history record has been written. *)
Theorem refused_reservation_leaves_history :
  let w := worldWith invited closedRequest in
  let r := confirmDonation exactName calm (callFor "D1") w in
  r.2 = ReservationConflict ∧
  histories w = ∅ ∧
  histories r.1 =
    {["DH-1" := donationOf calm "D1" None invited None "R1" closedRequest]} ∧
  dhStatus (donationOf calm "D1" None invited None "R1" closedRequest) = completed ∧
  requests r.1 = requests w ∧
  locations r.1 = locations w.
Proof. repeat split; run_call. Qed.

Lemma closed_requests_stay_closed_witness :
  let w := worldWith invited lastUnitRequest in
  let r := confirmDonation exactName calm (callFor "D1") w in
  ∃ dn r', r.2 = Completed dn ∧
           requests r.1 !! "R1" = Some r' ∧
           confirmedUnits r' = 1 ∧ quantity r' = 1 ∧
           status r' = fulfilled ∧ fulfilledAt r' = Some (now calm) ∧
           activeTokens r' = [].
Proof.
  intros w r.
  destruct (proj2 (closed_requests_stay_closed exactName calm (callFor "D1")
                     w r.1 r.2 ltac:(run_call))
                  (locked "D1" w)
                  (mkResolution "D1" invited None "R1" lastUnitRequest)
                  ltac:(run_call) calm_reliable ltac:(run_call)
                  ltac:(run_call) ltac:(run_call))
    as (dn & r' & Ho & Hr & Hcu & Hq & Hclose & _).
  exists dn, r'. split; [exact Ho|]. split; [exact Hr|].
  split; [exact Hcu|]. split; [exact Hq|].
  apply Hclose. rewrite Hcu, Hq. reflexivity.
Defined.

(** A request that is already fulfilled is left as it is. *)
Example fulfilled_request_left_alone :
  let w := worldWith invited closedRequest in
  let r := confirmDonation exactName calm (callFor "D1") w in
  requests r.1 !! "R1" = Some closedRequest.
Proof. run_call. Qed.

Lemma guard_release_policy_witness :
  let w := worldWith invited lastUnitRequest in
  let r := confirmDonation exactName calm (callFor "D1") w in
  "D1" ∈ processingLock r.1.
Proof.
  intros w r.
  apply (proj1 (proj2 (proj2
           (guard_release_policy exactName calm (callFor "D1") w r.1 r.2
              "D1" ltac:(run_call) ltac:(run_call))))).
  left. eexists. run_call.
Defined.

(** The claim of C4 on [AlreadyDonated], refuted: the guard did not hold
    the donor id before the call and holds it after. *)
Lemma guard_kept_after_AlreadyDonated :
  let r := confirmDonation exactName calm (callFor "D1") worldAfterDonation in
  ("D1" ∉ processingLock worldAfterDonation) ∧
  r.2 = AlreadyDonated ∧
  "D1" ∈ processingLock r.1.
Proof.
  split; [apply not_elem_of_empty|]. split; [run_call|].
  assert (processingLock
            (confirmDonation exactName calm (callFor "D1") worldAfterDonation).1
          = {["D1"]}) as -> by run_call.
  by apply elem_of_singleton.
Qed.

(** An exception that reaches the outer [catch] leaves the donor id in
    the guard: the handler rejects without a response. *)
Example rejected_lookup_keeps_guard :
  let r := confirmDonation exactName stormy (callFor "D1")
             (worldWith invited openRequest) in
  r.2 = Unhandled ∧ processingLock r.1 = {["D1"]}.
Proof. split; run_call. Qed.

(** The last unit of a request: the call completes, the request is
    closed and the location record is gone. *)
Example last_unit_closes_request :
  let r := confirmDonation exactName calm (callFor "D1")
             (worldWith invited lastUnitRequest) in
  r.2 = Completed (donationOf calm "D1" None invited None "R1" lastUnitRequest) ∧
  requests r.1 !! "R1" = Some (fulfil calm (increment lastUnitRequest)) ∧
  locations r.1 = ∅ ∧
  processingLock r.1 = {["D1"]}.
Proof. repeat split; run_call. Qed.

Lemma expired_request_is_closed_witness :
  let w := worldWith invited lateRequest in
  ∃ w', confirmDonation exactName calm (callFor "D1") w = (w', RequestExpired) ∧
        ∃ r', requests w' !! "R1" = Some r' ∧
              status r' = expired ∧ activeTokens r' = [] ∧
              confirmedUnits r' = 0 ∧ quantity r' = 2.
Proof.
  intros w.
  apply (expired_request_is_closed exactName calm (callFor "D1") w
           (locked "D1" w) (mkResolution "D1" invited None "R1" lateRequest)
           9000000).
  - run_call.
  - reflexivity.
  - reflexivity.
  - reflexivity.
  - exact calm_reliable.
  - run_call.
Defined.

Lemma donor_not_found_iff_witness :
  (confirmDonation exactName calm (callFor "D2")
     (worldWith invited openRequest)).2 = DonorNotFound.
Proof.
  apply (donor_not_found_iff exactName calm (callFor "D2")
           (worldWith invited openRequest) "D2").
  - run_call.
  - apply not_elem_of_empty.
  - intros k h Hk. unfold worldWith in Hk. cbn [histories] in Hk.
    by rewrite lookup_empty in Hk.
  - exact calm_reliable.
  - intros k l Hk. unfold worldWith in Hk. cbn [locations] in Hk.
    apply lookup_singleton_Some in Hk as [_ <-]. discriminate.
Defined.

(** The claim of C6 on freshness, refuted: the donor's only location
    record is two hours old, so none is live, and the call goes through
    resolution and reservation to completion. *)
Lemma stale_location_still_resolves :
  let w := worldWith stale lastUnitRequest in
  let r := confirmDonation exactName calm (callFor "D1") w in
  (∀ k l, locations w !! k = Some l → isLive (now calm) k l = false) ∧
  r.2 = Completed (donationOf calm "D1" None stale None "R1" lastUnitRequest) ∧
  r.2 ≠ DonorNotFound.
Proof.
  split.
  { intros k l Hk. unfold worldWith in Hk. cbn [locations] in Hk.
    apply lookup_singleton_Some in Hk as [_ <-]. reflexivity. }
  assert ((confirmDonation exactName calm (callFor "D1")
             (worldWith stale lastUnitRequest)).2 =
          Completed (donationOf calm "D1" None stale None "R1" lastUnitRequest))
    as Hr by run_call.
  split; [exact Hr|]. simpl. rewrite Hr. discriminate.
Qed.



Lemma donor_stamped_before_reservation_witness :
  let w := worldWithAnn invited lateRequest in
  let r := confirmDonation exactName calm (callFor "D1") w in
  donors w !! "A1" = Some ann ∧
  ∃ x', donors r.1 !! "A1" = Some x' ∧
        lastDonationDate x' = Some 10000000 ∧
        uniqueId x' = uniqueId ann ∧ name x' = name ann ∧
        phone x' = phone ann ∧ donorBloodGroup x' = donorBloodGroup ann.
Proof.
  intros w r.
  apply (donor_stamped_before_reservation exactName calm (callFor "D1")
           w r.1 r.2 (locked "D1" w)
           (mkResolution "D1" invited (Some ("A1", ann)) "R1" lateRequest)
           "A1" ann).
  - run_call.
  - reflexivity.
  - run_call.
  - left. run_call.
Defined.

End ScenarioFacts.

(** ** The registry of the notification hub *)

Module NotificationRegistryFacts.

Import NotificationStream NotificationRegistry.

Lemma addClient_lookup h res (clients : gmap string (gset nat)) h' :
  addClient h res clients !! h' =
  if decide (h = h')
  then Some (subscribers clients h ∪ {[res]})
  else clients !! h'.
Proof.
  unfold addClient, subscribers.
  destruct (decide (h = h')) as [<- | Hne].
  - destruct (clients !! h) as [s|] eqn:Hs.
    + by rewrite lookup_alter_eq, Hs.
    + by rewrite lookup_alter_eq, lookup_insert_eq.
  - rewrite lookup_alter_ne by done.
    destruct (clients !! h); [done|]. by rewrite lookup_insert_ne.
Qed.

Lemma removeClient_lookup h res (clients : gmap string (gset nat)) h' :
  removeClient h res clients !! h' =
  if decide (h = h')
  then match clients !! h with
       | Some s => if decide (s ∖ {[res]} = ∅) then None else Some (s ∖ {[res]})
       | None => None
       end
  else clients !! h'.
Proof.
  unfold removeClient.
  destruct (clients !! h) as [s|] eqn:Hs.
  - case_bool_decide as Hsz.
    + apply size_empty_iff, leibniz_equiv in Hsz.
      destruct (decide (h = h')) as [<- | Hne].
      * rewrite lookup_delete_eq. by rewrite decide_True.
      * by rewrite lookup_delete_ne.
    + assert (s ∖ {[res]} ≠ ∅) as Hne'.
      { intros Heq. apply Hsz. rewrite Heq. apply size_empty. }
      destruct (decide (h = h')) as [<- | Hne].
      * rewrite lookup_insert_eq. by rewrite decide_False.
      * by rewrite lookup_insert_ne.
  - destruct (decide (h = h')) as [<- | Hne]; done.
Qed.

Lemma subscribers_addClient h res (clients : gmap string (gset nat)) h' :
  subscribers (addClient h res clients) h' =
  if decide (h = h') then subscribers clients h ∪ {[res]}
  else subscribers clients h'.
Proof.
  unfold subscribers at 1. rewrite addClient_lookup.
  by destruct (decide (h = h')).
Qed.

Lemma subscribers_removeClient h res (clients : gmap string (gset nat)) h' :
  subscribers (removeClient h res clients) h' =
  if decide (h = h') then subscribers clients h ∖ {[res]}
  else subscribers clients h'.
Proof.
  unfold subscribers at 1. rewrite removeClient_lookup.
  destruct (decide (h = h')) as [<- | Hne]; [|done].
  unfold subscribers. destruct (clients !! h) as [s|]; simpl.
  - by destruct (decide (s ∖ {[res]} = ∅)) as [-> | ?].
  - apply set_eq. intros x. rewrite elem_of_difference.
    split; [by intros ?%not_elem_of_empty | by intros [?%not_elem_of_empty _]].
Qed.

(** Who a notification for hospital [h] is written to. *)
Lemma broadcast_targeted (clients : gmap string (gset nat)) n h c p :
  hospitalId n = Some h → h ≠ "" →
  (c, p) ∈ broadcastNotification clients n ↔
  p = payloadOf n ∧ c ∈ subscribers clients h.
Proof.
  intros Hh Hne. unfold broadcastNotification, subscribers.
  rewrite Hh. simpl. rewrite bool_decide_eq_false_2 by done.
  destruct (clients !! h) as [s|]; simpl.
  - case_bool_decide as Hsz.
    + apply size_empty_iff, leibniz_equiv in Hsz. subst s.
      split; [by intros ?%not_elem_of_nil | by intros [_ ?%not_elem_of_empty]].
    + unfold writeAll. rewrite list_elem_of_fmap. split.
      * intros (res & [= -> ->] & Hin). by apply elem_of_elements in Hin.
      * intros [-> Hin]. exists c. by rewrite elem_of_elements.
  - split; [by intros ?%not_elem_of_nil | by intros [_ ?%not_elem_of_empty]].
Qed.

(** X1. Subscribing registers the connection for its hospital and for no
    other, keeps the connections already registered, and makes the next
    notification for that hospital reach it. *)
Theorem subscribe_then_publish (clients : gmap string (gset nat)) h res :
  subscribers (addClient h res clients) h = subscribers clients h ∪ {[res]} ∧
  (∀ h', h' ≠ h → addClient h res clients !! h' = clients !! h') ∧
  ∀ n, hospitalId n = Some h → h ≠ "" →
       (res, payloadOf n) ∈ broadcastNotification (addClient h res clients) n.
Proof.
  split; [by rewrite subscribers_addClient, decide_True|].
  split.
  { intros h' Hne. rewrite addClient_lookup. by rewrite decide_False. }
  intros n Hh Hne. apply (broadcast_targeted _ n h); [done..|].
  split; [done|]. rewrite subscribers_addClient, decide_True by done.
  apply elem_of_union. right. by apply elem_of_singleton.
Qed.

Lemma addClient_noEmptySet h res clients :
  noEmptySet clients → noEmptySet (addClient h res clients).
Proof.
  intros Hw h' s. rewrite addClient_lookup.
  destruct (decide (h = h')); [|apply Hw].
  intros [= <-] Hempty.
  assert (res ∈ subscribers clients h ∪ {[res]}) as Hin.
  { apply elem_of_union. right. by apply elem_of_singleton. }
  rewrite Hempty in Hin. by apply not_elem_of_empty in Hin.
Qed.

Lemma removeClient_noEmptySet h res clients :
  noEmptySet clients → noEmptySet (removeClient h res clients).
Proof.
  intros Hw h' s. rewrite removeClient_lookup.
  destruct (decide (h = h')); [|apply Hw].
  destruct (clients !! h) as [s0|]; [|done].
  destruct (decide (s0 ∖ {[res]} = ∅)); [done|]. by intros [= <-].
Qed.

Lemma hubRun_noEmptySet evs clients :
  noEmptySet clients → noEmptySet (hubRun evs clients).
Proof.
  unfold hubRun. revert clients.
  induction evs as [|[h res | h res] evs IH]; intros clients Hw; simpl;
    [done | apply IH, addClient_noEmptySet, Hw
          | apply IH, removeClient_noEmptySet, Hw].
Qed.

(** X2. Whatever connections open and close, in whatever order, the
    registry never keeps a hospital without connection: every hospital
    [getConnectedClients] lists has at least one. *)
Theorem registry_lists_connected_hospitals evs :
  noEmptySet (hubRun evs ∅) ∧
  ∀ h k, (h, k) ∈ (getConnectedClients (hubRun evs ∅)).2 → (0 < k)%nat.
Proof.
  assert (noEmptySet (hubRun evs ∅)) as Hw.
  { apply hubRun_noEmptySet. intros h s Hs. by rewrite lookup_empty in Hs. }
  split; [done|].
  intros h k Hin. unfold getConnectedClients in Hin. simpl in Hin.
  apply list_elem_of_fmap in Hin as ([h' s] & [= -> ->] & Hin).
  apply elem_of_map_to_list in Hin. simpl.
  destruct (size s) eqn:Hsz; [|lia].
  apply size_empty_iff, leibniz_equiv in Hsz. by apply Hw in Hin.
Qed.

(** X3. Closing a connection undoes its registration: on a registry
    without empty set, registering a connection that was not registered
    for the hospital and then removing it gives the registry back. *)
Theorem removeClient_undoes_addClient clients h res :
  noEmptySet clients →
  res ∉ subscribers clients h →
  removeClient h res (addClient h res clients) = clients.
Proof.
  intros Hw Hnin. apply map_eq. intros h'.
  rewrite removeClient_lookup.
  destruct (decide (h = h')) as [<- | Hne].
  - rewrite addClient_lookup, decide_True by done.
    assert ((subscribers clients h ∪ {[res]}) ∖ {[res]} = subscribers clients h)
      as ->.
    { apply set_eq. intros x.
      rewrite elem_of_difference, elem_of_union, elem_of_singleton.
      split; [intros [[? | ?] ?]; done|]. intros Hx. split; [by left|].
      by intros ->. }
    unfold subscribers in *. destruct (clients !! h) as [s|] eqn:Hs; simpl.
    + rewrite decide_False; [done|]. by eapply Hw.
    + by rewrite decide_True.
  - rewrite addClient_lookup. by rewrite decide_False.
Qed.

(** X4. After [removeClient] a notification for that hospital is no
    longer written to the connection, the other connections receive
    what they received before, and the registrations of the other
    hospitals are untouched. *)
Theorem close_stops_delivery (clients : gmap string (gset nat)) h res n :
  hospitalId n = Some h → h ≠ "" →
  (∀ p, (res, p) ∉ broadcastNotification (removeClient h res clients) n) ∧
  (∀ c p, c ≠ res →
          (c, p) ∈ broadcastNotification (removeClient h res clients) n ↔
          (c, p) ∈ broadcastNotification clients n) ∧
  (∀ h', h' ≠ h → removeClient h res clients !! h' = clients !! h').
Proof.
  intros Hh Hne. split.
  { intros p [_ Hin]%(broadcast_targeted _ n h); [|done..].
    rewrite subscribers_removeClient, decide_True in Hin by done.
    apply elem_of_difference in Hin as [_ Hin]. apply Hin.
    by apply elem_of_singleton. }
  split.
  { intros c p Hc. rewrite !(broadcast_targeted _ n h) by done.
    rewrite subscribers_removeClient, decide_True by done.
    rewrite elem_of_difference, elem_of_singleton. tauto. }
  intros h' Hne'. rewrite removeClient_lookup. by rewrite decide_False.
Qed.

Lemma broadcast_all_length (l : list (string * gset nat)) payload :
  length (l ≫= λ kv, writeAll payload kv.2) =
  sum_list ((λ kv : string * gset nat, size kv.2) <$> l).
Proof.
  induction l as [|[h s] l IH]; [done|].
  change (length (writeAll payload s ++ (l ≫= λ kv, writeAll payload kv.2)) =
          (size s + sum_list ((λ kv : string * gset nat, size kv.2) <$> l))%nat).
  rewrite length_app, IH. f_equal.
  unfold writeAll. by rewrite length_fmap.
Qed.

(** X5. [getConnectedClients] counts what a broadcast to all writes: its
    [size] is the number of hospitals it lists, and the connection
    counts it lists add up to the number of writes of a notification
    that carries no hospital id. *)
Theorem getConnectedClients_counts (clients : gmap string (gset nat)) n :
  (getConnectedClients clients).1 = length (getConnectedClients clients).2 ∧
  (hospitalId n = None →
   length (broadcastNotification clients n) =
   sum_list (snd <$> (getConnectedClients clients).2)).
Proof.
  unfold getConnectedClients. simpl. split.
  - by rewrite length_fmap, length_map_to_list.
  - intros Hh. unfold broadcastNotification. rewrite Hh. simpl.
    rewrite broadcast_all_length. by rewrite <- list_fmap_compose.
Qed.

End NotificationRegistryFacts.

(** ** Recency filter, query and expiry information *)

Module LocationExpiryFacts.

Import JsNumber JsNumberFacts LocationFilter LocationFilterFacts LocationExpiry.

Lemma filterRecentLocations_fixed now ls w :
  (∀ e, e ∈ ls → isRecent now w e = true) →
  filterRecentLocations now ls w = ls.
Proof.
  induction ls as [|x ls IH]; intros Hall; simpl; [done|].
  rewrite (Hall x) by left. f_equal. apply IH. intros e He. apply Hall.
  by right.
Qed.

(** X6. Filtering is idempotent: filtering an already filtered list, at
    the same time and with the same window, returns it as it is. *)
Theorem filterRecentLocations_idempotent now ls w :
  filterRecentLocations now (filterRecentLocations now ls w) w =
  filterRecentLocations now ls w.
Proof.
  apply filterRecentLocations_fixed. intros e He.
  apply filterRecentLocations_elem in He as [_ He].
  by apply isRecent_live.
Qed.

Lemma filterRecentLocations_mono now1 w1 now2 w2 ls :
  (∀ e, isRecent now1 w1 e = true → isRecent now2 w2 e = true) →
  filterRecentLocations now1 ls w1 `sublist_of` filterRecentLocations now2 ls w2.
Proof.
  intros Himp. induction ls as [|x ls IH]; simpl; [constructor|].
  destruct (isRecent now1 w1 x) eqn:H1.
  - rewrite (Himp x H1). by constructor.
  - destruct (isRecent now2 w2 x); [by constructor | done].
Qed.

(** A later cut-off keeps less, against a valid earlier one. *)
Lemma filterRecentLocations_cutoffs now1 w1 now2 w2 c2 ls :
  cutoffTime now2 w2 = Some c2 →
  (∀ c1, cutoffTime now1 w1 = Some c1 → c2 ≤ c1) →
  filterRecentLocations now1 ls w1 `sublist_of` filterRecentLocations now2 ls w2.
Proof.
  intros Hc2 Hle. apply filterRecentLocations_mono. intros e.
  rewrite !isRecent_live. intros (c1 & t & Hc1 & Ht & Hct).
  exists c2, t. repeat (split; [done|]). specialize (Hle c1 Hc1). lia.
Qed.

(** X7. What the filter returns only shrinks as the cut-off date moves
    forward, as long as the earlier cut-off is a valid date: for
    windows of a whole number of hours (the arithmetic staying below
    [2^53] milliseconds) the entries kept for a shorter window are
    among those kept for a longer one whose cut-off is within the
    range of [Date], in the same order, and the entries kept at a later
    time are among those kept earlier; the number of entries filtered
    out is never negative. *)
Theorem filterRecentLocations_monotone ls :
  (∀ now1 w1 now2 w2 c2,
     cutoffTime now2 w2 = Some c2 →
     (∀ c1, cutoffTime now1 w1 = Some c1 → c2 ≤ c1) →
     filterRecentLocations now1 ls w1 `sublist_of`
       filterRecentLocations now2 ls w2) ∧
  (∀ now h1 h2,
     h1 ≤ h2 → safe now →
     safe (h1 * ONE_HOUR_MS) → safe (h2 * ONE_HOUR_MS) →
     safe (now - h1 * ONE_HOUR_MS) →
     Z.abs (now - h2 * ONE_HOUR_MS) ≤ MAX_TIME →
     filterRecentLocations now ls (ofZ h1) `sublist_of`
       filterRecentLocations now ls (ofZ h2)) ∧
  (∀ now1 now2 h,
     now1 ≤ now2 → safe now1 → safe now2 → safe (h * ONE_HOUR_MS) →
     Z.abs (now1 - h * ONE_HOUR_MS) ≤ MAX_TIME →
     safe (now2 - h * ONE_HOUR_MS) →
     filterRecentLocations now2 ls (ofZ h) `sublist_of`
       filterRecentLocations now1 ls (ofZ h)) ∧
  (∀ now w, (length (filterRecentLocations now ls w) ≤ length ls)%nat).
Proof.
  split; [intros; by eapply filterRecentLocations_cutoffs|].
  split.
  { intros now h1 h2 Hh Hn H1 H2 Hc1 Hc2.
    apply (filterRecentLocations_cutoffs _ _ _ _ (now - h2 * ONE_HOUR_MS)).
    - rewrite cutoffTime_hours by (done || by apply safe_time).
      unfold readDate. by rewrite bool_decide_eq_true_2.
    - intros c1. rewrite cutoffTime_hours by done. unfold readDate.
      case_bool_decide; [|done]. intros [= <-]. unfold ONE_HOUR_MS. lia. }
  split.
  { intros now1 now2 h Hn Hn1 Hn2 Hh Hc1 Hc2.
    apply (filterRecentLocations_cutoffs _ _ _ _ (now1 - h * ONE_HOUR_MS)).
    - rewrite cutoffTime_hours by (done || by apply safe_time).
      unfold readDate. by rewrite bool_decide_eq_true_2.
    - intros c. rewrite cutoffTime_hours by done. unfold readDate.
      case_bool_decide; [|done]. intros [= <-]. lia. }
  intros now w. apply sublist_length, filterRecentLocations_sublist.
Qed.


(** [getTimeRemaining] on a valid date and a window of a whole number
    of hours, the expiry time being a valid date. *)
Lemma getTimeRemaining_valid now t h :
  safe t → safe now → safe (h * ONE_HOUR_MS) →
  Z.abs (t + h * ONE_HOUR_MS) ≤ MAX_TIME →
  safe (t + h * ONE_HOUR_MS - now) →
  let left := t + h * ONE_HOUR_MS - now in
  getTimeRemaining now (Some t) (ofZ h) =
  if bool_decide (left ≤ 0) then mkTimeRemaining true (ofZ 0) (ofZ 0) None
  else
    mkTimeRemaining false
      (floor (fdiv (ofZ left) (fmul (ofZ 60) (ofZ 1000))))
      (floor (fdiv (frem (ofZ left) (fmul (ofZ 60) (ofZ 1000))) (ofZ 1000)))
      (Some (ofZ left)).
Proof.
  intros Ht Hn Hh He Hl left. unfold getTimeRemaining.
  rewrite maxAgeMs_hours by done. simpl getTime.
  rewrite add_ofZ, timeClip_ofZ by (done || by apply safe_time).
  rewrite bool_decide_eq_true_2 by done. simpl getTime.
  rewrite sub_ofZ by (done || by apply safe_time).
  rewrite leb_ofZ_0 by done. done.
Qed.

(** The same when the expiry time leaves the range of [Date]. *)
Lemma getTimeRemaining_invalid now t h :
  safe t → safe (h * ONE_HOUR_MS) → safe (t + h * ONE_HOUR_MS) →
  MAX_TIME < Z.abs (t + h * ONE_HOUR_MS) →
  getTimeRemaining now (Some t) (ofZ h) =
  mkTimeRemaining false S754_nan S754_nan (Some S754_nan).
Proof.
  intros Ht Hh Hs He. unfold getTimeRemaining.
  rewrite maxAgeMs_hours by done. simpl getTime.
  rewrite add_ofZ, timeClip_ofZ by done.
  rewrite bool_decide_eq_false_2 by lia. done.
Qed.



(** X10. The filter and [getTimeRemaining] on a window of a whole number
    of hours (the arithmetic staying below [2^53] milliseconds).  When
    the cut-off and the expiry time are valid dates they disagree at
    one instant only: an entry exactly one window old is still kept by
    the filter while [getTimeRemaining] reports it expired; for every
    other timestamp an entry is kept exactly when it is not reported
    expired.  Beyond the range of [Date] they part: with an invalid
    cut-off the entry is not kept, with an invalid expiry time it is
    not reported expired. *)
Theorem filter_and_expiry_boundary now h e t :
  locationTime e = Some t → safe now → safe (h * ONE_HOUR_MS) →
  (Z.abs (now - h * ONE_HOUR_MS) ≤ MAX_TIME →
   Z.abs (t + h * ONE_HOUR_MS) ≤ MAX_TIME →
   safe (t + h * ONE_HOUR_MS - now) →
   (t = now - h * ONE_HOUR_MS →
    isRecent now (ofZ h) e = true ∧
    expired (getTimeRemaining now (Some t) (ofZ h)) = true) ∧
   (t ≠ now - h * ONE_HOUR_MS →
    isRecent now (ofZ h) e =
    negb (expired (getTimeRemaining now (Some t) (ofZ h))))) ∧
  (safe (now - h * ONE_HOUR_MS) → MAX_TIME < Z.abs (now - h * ONE_HOUR_MS) →
   isRecent now (ofZ h) e = false) ∧
  (safe (t + h * ONE_HOUR_MS) → MAX_TIME < Z.abs (t + h * ONE_HOUR_MS) →
   expired (getTimeRemaining now (Some t) (ofZ h)) = false).
Proof.
  intros Ht Hn Hh.
  assert (Z.abs t ≤ MAX_TIME) as Htr.
  { unfold locationTime in Ht. destruct (effectiveTime e) as [t0|]; [|done].
    simpl in Ht. unfold readDate in Ht. case_bool_decide; [|done].
    by injection Ht as <-. }
  split; [|split].
  - intros Hc He Hl.
    assert (isRecent now (ofZ h) e = bool_decide (now - h * ONE_HOUR_MS ≤ t))
      as ->.
    { unfold isRecent. rewrite Ht, cutoffTime_hours by (done || by apply safe_time).
      unfold readDate. by rewrite bool_decide_eq_true_2. }
    rewrite getTimeRemaining_valid by (done || by apply safe_time).
    split.
    + intros ->. rewrite !bool_decide_eq_true_2 by lia. done.
    + intros Hne. repeat case_bool_decide; simpl; try done; lia.
  - intros Hs Hc. unfold isRecent.
    rewrite Ht, cutoffTime_hours by done. unfold readDate.
    by rewrite bool_decide_eq_false_2 by lia.
  - intros Hs He.
    by rewrite getTimeRemaining_invalid by (done || by apply safe_time).
Qed.


End LocationExpiryFacts.

(** ** More on the donation handler *)

Module HandlerFacts.

Import Collection CollectionFacts MarkDonation MarkDonationFacts.

Section Calls.

Variable re : string → option (string → bool).

(** The request a completed call reserved, before and after. *)
Lemma completed_call_request env body w w' dn :
  confirmDonation re env body w = (w', Completed dn) →
  ∃ w1 res,
    resolve re env body w = (w1, Next res) ∧
    bloodRequestId dn = resRequestId res ∧
    reservable (token (resLocation res)) (resRequest res) = true ∧
    requests w' !! resRequestId res = Some (reserved env (resRequest res)) ∧
    (∀ r, requests w !! resRequestId res = Some r → r = resRequest res) ∧
    (requests w !! resRequestId res = None → created env (resRequest res)).
Proof.
  intros H. apply confirmDonation_inv in H
    as [H | [[_ ?] | (w1 & res & Hres & [Hc | [_ ?]])]]; try done.
  - apply resolve_inv in H. simpl in H.
    destruct H as [(? & _) | (d & _ & [(? & _) | [(? & _) | (? & _)]])]; done.
  - exists w1, res. split; [done|].
    pose proof Hres as (Hst & _ & _ & _ & _ & Hkeep)%resolve_stored.
    pose proof Hres as Hinv. apply resolve_inv in Hinv. simpl in Hinv.
    destruct Hinv as (_ & _ & _ & _ & _ & _ & R & HR & Hnew).
    apply commit_inv in Hc. simpl in Hc.
    destruct Hc as (_ & D & _ & [(? & _) | [(? & _) | [(? & _) | (Hdn & _ & r0 & L & Hr0 & Hok & -> & _)]]]);
      try done.
    injection Hdn as ->. rewrite Hst in Hr0. injection Hr0 as <-.
    split; [done|]. split; [done|].
    split; [simpl; apply lookup_insert_eq|].
    split.
    + intros r Hr. apply Hkeep in Hr. rewrite Hst in Hr. by injection Hr.
    + intros Hnone. destruct Hnew as [-> | (_ & Hc & _)]; [|done].
      subst w1. simpl in Hst. congruence.
Qed.

(** A call leaves in the guard whatever donor id it held. *)
Lemma guard_member_kept env body w d :
  d ∈ processingLock w →
  d ∈ processingLock (confirmDonation re env body w).1.
Proof.
  intros Hin. destruct (confirmDonation re env body w) as [w' o] eqn:H.
  simpl. destruct (truthy (bodyDonorId body)) as [d'|] eqn:Hd.
  - destruct (confirmDonation_lock re env body w w' o d' Hd H)
      as [(_ & _ & ->) | (Hnin & [[_ ->] | [_ ->]])]; [done | |].
    + apply elem_of_union. by right.
    + apply elem_of_difference. split; [apply elem_of_union; by right|].
      intros ->%elem_of_singleton. done.
  - apply confirmDonation_inv in H
      as [H | [[H _] | (w1 & res & Hres & _)]].
    + apply resolve_inv in H. simpl in H.
      destruct H as [(_ & _ & ->) | (d0 & Hd0 & _)]; [done | congruence].
    + apply resolve_inv in H as (d0 & Hd0 & _). congruence.
    + apply resolve_inv in Hres. simpl in Hres.
      destruct Hres as (Hd0 & _). congruence.
Qed.

Lemma guard_member_kept_all calls w d :
  d ∈ processingLock w → d ∈ processingLock (confirmDonations re calls w).
Proof.
  revert w. induction calls as [|[e b] calls IH]; intros w Hin; simpl;
    [done|]. by apply IH, guard_member_kept.
Qed.

(** X18. The guard is permanent for the process: once a call for a
    donor id has ended in a completed donation, in [AlreadyDonated] or
    with the handler rejecting, every later call for that donor id,
    whatever calls come in between, is refused with
    [AlreadyProcessing] and changes nothing. *)
Theorem guard_is_permanent env body w w' o d :
  truthy (bodyDonorId body) = Some d →
  confirmDonation re env body w = (w', o) →
  keepsGuard o →
  ∀ calls env' body',
    truthy (bodyDonorId body') = Some d →
    confirmDonation re env' body' (confirmDonations re calls w') =
    (confirmDonations re calls w', AlreadyProcessing).
Proof.
  intros Hd H Hk calls env' body' Hd'.
  assert (d ∈ processingLock w') as Hin.
  { destruct (confirmDonation_lock re env body w w' o d Hd H)
      as [(-> & _) | (_ & [[_ ->] | [Hr _]])]; [done | |].
    - apply elem_of_union. left. by apply elem_of_singleton.
    - by destruct o. }
  apply (guard_member_kept_all calls) in Hin.
  destruct (confirmDonation re env' body' (confirmDonations re calls w'))
    as [w2 o2] eqn:H2.
  destruct (confirmDonation_lock re env' body' _ w2 o2 d Hd' H2)
    as [(-> & _ & ->) | (Hnin & _)]; done.
Qed.

(** X20. A donor id with a completed donation on record that carries a
    completion date is answered [AlreadyDonated] (the guard being free
    and the history lookup not rejecting): nothing is read further,
    nothing is written, and the guard keeps the donor id. *)
Theorem completed_donor_is_refused env body w d k h t :
  truthy (bodyDonorId body) = Some d →
  d ∉ processingLock w →
  histories w !! k = Some h →
  dhDonorId h = d → dhStatus h = completed → completedAt h = Some t →
  faults env HistoryFindOne = false →
  confirmDonation re env body w = (locked d w, AlreadyDonated).
Proof.
  intros Hd Hnin Hk Hid Hst Ht Hf.
  assert (isCompletedBy d h = true) as Hp.
  { unfold isCompletedBy. by rewrite !bool_decide_eq_true_2. }
  destruct (findOneSortDesc (isCompletedBy d) completedAt (histories w))
    as [[k0 h0]|] eqn:Hfind.
  2:{ rewrite findOneSortDesc_None in Hfind. rewrite (Hfind k h Hk) in Hp.
      discriminate. }
  pose proof Hfind as (_ & _ & Hmax)%findOneSortDesc_Some.
  specialize (Hmax k h Hk Hp). rewrite Ht in Hmax.
  destruct (completedAt h0) as [t0|] eqn:Ht0; [|done].
  unfold confirmDonation, handlerBody.
  erewrite bind_reply; [done|].
  unfold resolve. rewrite Hd.
  erewrite bind_next; [|by rewrite acquireLock_run, bool_decide_eq_false_2].
  erewrite bind_reply; [done|].
  unfold checkExistingDonation. unfold_handler. simpl.
  by rewrite Hf, Hfind, Ht0.
Qed.

(** X24. The history check reads the donor id of the call, the record is
    written under the id of the resolved profile: after a completed
    call that resolved a profile stored under another id, a process
    whose guard has been reset does not answer [AlreadyDonated] to the
    same donor id (no completed record under that id existing before). *)
Theorem restart_forgets_profiled_donation env body w w' dn w1 res k x d :
  confirmDonation re env body w = (w', Completed dn) →
  resolve re env body w = (w1, Next res) →
  resDonor res = Some (k, x) →
  truthy (bodyDonorId body) = Some d → k ≠ d →
  (∀ k' h, histories w !! k' = Some h → isCompletedBy d h = false) →
  dhDonorId dn = k ∧
  ∀ env' body',
    truthy (bodyDonorId body') = Some d →
    (confirmDonation re env' body' (withLock ∅ w')).2 ≠ AlreadyDonated.
Proof.
  intros H Hres Hdonor Hd Hne Hnone.
  destruct (history_precedes_reservation re env body w w' _ H)
    as (dn0 & Hfresh & Hhist & _ & Hsame); [by right; right; right; eexists|].
  specialize (Hsame dn eq_refl). subst dn0.
  assert (dhDonorId dn = k) as Hkey.
  { apply confirmDonation_inv in H
      as [H | [[_ ?] | (w2 & res2 & Hres2 & [Hc | [_ ?]])]]; try done.
    - rewrite Hres in H. done.
    - rewrite Hres in Hres2. injection Hres2 as <- <-.
      apply commit_inv in Hc. simpl in Hc.
      destruct Hc as (_ & D & _ & [(? & _) | [(? & _) | [(? & _) | (Hdn & _)]]]);
        try done.
      injection Hdn as ->. simpl. by rewrite Hdonor. }
  split; [done|].
  intros env' body' Hd'.
  destruct (confirmDonation re env' body' (withLock ∅ w')) as [w2 o2] eqn:H2.
  simpl. intros ->.
  apply confirmDonation_inv in H2
    as [H2 | [[_ ?] | (w3 & res3 & _ & [Hc | [_ ?]])]]; try done.
  - apply resolve_inv in H2. simpl in H2.
    destruct H2 as [(? & _) | (d0 & Hd0 & [(? & _) | [(_ & _ & _ & Hsome) | (? & _)]])];
      try done.
    rewrite Hd' in Hd0. injection Hd0 as <-.
    destruct Hsome as [[k0 h0] Hfind].
    apply findOneSortDesc_Some in Hfind as (Hk0 & Hp & _).
    rewrite Hhist in Hk0.
    apply lookup_insert_Some in Hk0 as [[_ <-] | [_ Hk0]].
    + unfold isCompletedBy in Hp. apply andb_true_iff in Hp as [Hp _].
      apply bool_decide_eq_true in Hp. congruence.
    + rewrite (Hnone _ _ Hk0) in Hp. discriminate.
  - apply commit_inv in Hc. simpl in Hc.
    destruct Hc as (_ & D & _ & [(? & _) | [(? & _) | [(? & _) | (? & _)]]]);
      done.
Qed.

Lemma updateLastDonation_donors env d donorRecord w w' f :
  updateLastDonation env d donorRecord w = (w', f) →
  w' = w ∨ ∃ k, w' = withDonors (alter (stampDonor env) k (donors w)) w.
Proof.
  unfold updateLastDonation, saveLastDonation. intros H.
  handler_cases; eauto.
Qed.

(** What the second stage leaves of the three collections it does not
    reserve in. *)
Lemma commit_frames env body res w w' f :
  commit env body res w = (w', f) →
  let donation :=
    donationOf env (resDonorId res) (bodyDonorName body) (resLocation res)
               (resDonor res) (resRequestId res) (resRequest res) in
  (histories w' = histories w ∨
   (histories w !! newDonationId env = None ∧
    histories w' = <[newDonationId env := donation]> (histories w))) ∧
  (donors w' = donors w ∨
   ∃ k, donors w' = alter (stampDonor env) k (donors w)) ∧
  (locations w' = locations w ∨
   ((∃ dn, f = Reply (Completed dn)) ∧
    ∃ k l, findOne (hasDonorId (resDonorId res)) (locations w) = Some (k, l) ∧
           locations w' = delete k (locations w))).
Proof.
  unfold commit. intros H. simpl.
  apply bind_inv in H as [(w2 & dn & H1 & H) | [(o & H1 & ->) | [H1 ->]]];
    apply createDonation_inv in H1; simpl in H1; try done.
  2:{ subst w'. repeat split; by left. }
  destruct H1 as (-> & Hfresh & ->).
  apply bind_inv in H as [(w3 & [] & H1 & H) | [(o & H1 & ->) | [H1 ->]]].
  2:{ by apply updateLastDonation_inv in H1. }
  2:{ apply updateLastDonation_inv in H1. simpl in H1. subst w'. simpl.
      split; [by right|]. split; by left. }
  assert (histories w3 = <[newDonationId env :=
            donationOf env (resDonorId res) (bodyDonorName body)
              (resLocation res) (resDonor res) (resRequestId res)
              (resRequest res)]> (histories w) ∧
          locations w3 = locations w ∧
          (donors w3 = donors w ∨
           ∃ k, donors w3 = alter (stampDonor env) k (donors w)))
    as (Hh3 & Hl3 & Hd3).
  { apply updateLastDonation_donors in H1 as [-> | [k ->]]; simpl;
      (split; [done|]); (split; [done|]); [by left | right; by exists k]. }
  clear H1.
  apply bind_inv in H as [(w4 & [] & H1 & H) | [(o & H1 & ->) | [H1 ->]]];
    apply updateRequest_inv in H1; simpl in H1; try done.
  - destruct H1 as (_ & r0 & _ & _ & ->).
    apply bind_inv in H as [(w5 & [] & H1 & H) | [(o & H1 & ->) | [H1 ->]]];
      apply removeFromMap_inv in H1 as [? (L & -> & HL & _)]; simplify_eq.
    unfold reply in H. simplify_eq. simpl in *.
    split; [right; by rewrite Hh3|]. split; [done|].
    rewrite Hl3 in HL. destruct HL as [-> | (k & l & Hk & ->)]; [by left|].
    right. split; [by eexists|]. by exists k, l.
  - assert (histories w' = histories w3 ∧ donors w' = donors w3 ∧
            locations w' = locations w3) as (-> & -> & ->).
    { destruct H1 as [(_ & _ & ->) | [(_ & _ & -> & _) | (_ & [-> | (r0 & _ & _ & ->)])]];
        done. }
    split; [right; by rewrite Hh3|]. split; [done|]. left. done.
Qed.

(** The first stage writes to the guard and the request collection only. *)
Lemma resolve_frames env body w w1 f :
  resolve re env body w = (w1, f) →
  histories w1 = histories w ∧ donors w1 = donors w ∧
  locations w1 = locations w.
Proof.
  intros H. apply resolve_inv in H. destruct f as [res|o|]; simpl in H.
  - by destruct H as (_ & _ & _ & _ & _ & _ & R & -> & _).
  - by destruct H as [(_ & _ & ->) | (d & _ & [(_ & _ & ->) | [(_ & _ & -> & _) | (_ & _ & -> & _)]])].
  - by destruct H as (d & _ & _ & ->).
Qed.

(** The three collections across one call. *)
Lemma confirmDonation_frames env body w w' o :
  confirmDonation re env body w = (w', o) →
  (histories w' = histories w ∨
   (histories w !! newDonationId env = None ∧
    ∃ dn, histories w' = <[newDonationId env := dn]> (histories w) ∧
          dhStatus dn = completed ∧ completedAt dn = Some (now env))) ∧
  (donors w' = donors w ∨
   ∃ k, donors w' = alter (stampDonor env) k (donors w)) ∧
  (locations w' = locations w ∨
   ((∃ dn, o = Completed dn) ∧
    ∃ d k l, truthy (bodyDonorId body) = Some d ∧
             findOne (hasDonorId d) (locations w) = Some (k, l) ∧
             locations w' = delete k (locations w))).
Proof.
  intros H. apply confirmDonation_inv in H
    as [H | [[H _] | (w1 & res & Hres & Hc)]].
  - apply resolve_frames in H as (-> & -> & ->).
    split; [by left|]. split; by left.
  - apply resolve_frames in H as (-> & -> & ->).
    split; [by left|]. split; by left.
  - pose proof Hres as (Hh & Hd & Hl)%resolve_frames.
    pose proof Hres as Hinv. apply resolve_inv in Hinv. simpl in Hinv.
    destruct Hinv as (Hd0 & _).
    assert (∃ f, commit env body res w1 = (w', f) ∧
                 ((∃ dn, f = Reply (Completed dn)) → ∃ dn, o = Completed dn))
      as (f & Hcf & Hfo).
    { destruct Hc as [Hc | [Hc ->]]; eexists; (split; [exact Hc|]).
      - intros [dn [= ->]]. by eexists.
      - by intros [dn ?]. }
    apply commit_frames in Hcf. simpl in Hcf.
    rewrite Hh, Hd, Hl in Hcf. destruct Hcf as (Hhist & Hdon & Hloc).
    split.
    { destruct Hhist as [-> | (Hfresh & ->)]; [by left|].
      right. split; [done|]. by eexists. }
    split; [done|].
    destruct Hloc as [-> | (Hdn & k & l & Hk & ->)]; [by left|].
    right. split; [by apply Hfo|]. by exists (resDonorId res), k, l.
Qed.

(** X19. The history collection is append-only under the handler: a call
    changes and removes no record; it adds at most one, under the id
    minted for it, with status completed and the time of the call as
    completion date. *)
Theorem history_is_append_only env body w w' o :
  confirmDonation re env body w = (w', o) →
  (∀ k h, histories w !! k = Some h → histories w' !! k = Some h) ∧
  (histories w' = histories w ∨
   (histories w !! newDonationId env = None ∧
    ∃ dn, histories w' = <[newDonationId env := dn]> (histories w) ∧
          dhStatus dn = completed ∧ completedAt dn = Some (now env))).
Proof.
  intros H. apply confirmDonation_frames in H as (Hhist & _).
  split; [|done].
  intros k h Hk. destruct Hhist as [-> | (Hfresh & dn & -> & _)]; [done|].
  rewrite lookup_insert_ne; [done|]. congruence.
Qed.

(** X21. A call that does not complete leaves the location collection
    as it is; a call that completes removes at most one record, and
    that record carries the donor id of the call. *)
Theorem only_the_consumed_location_is_deleted env body w w' o :
  confirmDonation re env body w = (w', o) →
  ((∀ dn, o ≠ Completed dn) → locations w' = locations w) ∧
  (locations w' = locations w ∨
   ∃ d k l, truthy (bodyDonorId body) = Some d ∧
            locations w !! k = Some l ∧ donorId l = Some d ∧
            locations w' = delete k (locations w)).
Proof.
  intros H. apply confirmDonation_frames in H as (_ & _ & Hloc).
  split.
  - intros Hno. destruct Hloc as [-> | ([dn ->] & _)]; [done|].
    by destruct (Hno dn).
  - destruct Hloc as [-> | (_ & d & k & l & Hd & Hk & ->)]; [by left|].
    right. exists d, k, l. apply findOne_Some in Hk as [Hk Hp].
    unfold hasDonorId in Hp. apply bool_decide_eq_true in Hp. done.
Qed.

(** X22. Of the donor collection a call changes at most one profile, and
    of that profile only the last donation date, which it sets to the
    time of the call; no profile is added or removed. *)
Theorem donor_profiles_only_get_stamped env body w w' o :
  confirmDonation re env body w = (w', o) →
  (donors w' = donors w ∨
   ∃ k, donors w' = alter (stampDonor env) k (donors w)) ∧
  ∀ k, (donors w !! k = None → donors w' !! k = None) ∧
       ∀ x, donors w !! k = Some x →
            ∃ x', donors w' !! k = Some x' ∧
                  uniqueId x' = uniqueId x ∧ name x' = name x ∧
                  phone x' = phone x ∧
                  donorBloodGroup x' = donorBloodGroup x ∧
                  (lastDonationDate x' = lastDonationDate x ∨
                   lastDonationDate x' = Some (now env)).
Proof.
  intros H. apply confirmDonation_frames in H as (_ & Hdon & _).
  split; [done|]. intros k. split.
  - intros Hk. destruct Hdon as [-> | [k0 ->]]; [done|].
    by apply lookup_alter_None.
  - intros x Hk. destruct Hdon as [-> | [k0 ->]].
    + exists x. repeat (split; [done|]). by left.
    + destruct (decide (k0 = k)) as [-> | Hne].
      * exists (stampDonor env x). rewrite lookup_alter_eq, Hk.
        repeat (split; [done|]). by right.
      * exists x. rewrite lookup_alter_ne by done.
        repeat (split; [done|]). by left.
Qed.

Lemma bind_throw {A B} (m : Handler A) (k : A → Handler B) w w1 :
  m w = (w1, Throw) → (m ≫= k) w = (w1, Throw).
Proof. unfold mbind, Handler_bind. by intros ->. Qed.

(** X23. The location's user name is compiled as a pattern: when no
    profile is found by id or by phone and the user name is not a valid
    pattern, the call rejects before anything is written, and the guard
    keeps the donor id. *)
Theorem invalid_name_pattern_rejects env body w d k l u :
  truthy (bodyDonorId body) = Some d →
  d ∉ processingLock w →
  (∀ k' h, histories w !! k' = Some h → isCompletedBy d h = false) →
  findOne (hasDonorId d) (locations w) = Some (k, l) →
  findOne (hasUniqueId d) (donors w) = None →
  (∀ m, truthy (mobileNumber l) = Some m →
        findOne (hasPhone m) (donors w) = None) →
  truthy (userName l) = Some u →
  re (trim u) = None →
  reliable env →
  confirmDonation re env body w = (locked d w, Unhandled).
Proof.
  intros Hd Hnin Hhist Hloc Hid Hphone Hu Hre Hrel.
  assert (resolve re env body w = (locked d w, Throw)) as Hres.
  { unfold resolve. rewrite Hd.
    erewrite bind_next;
      [|by rewrite acquireLock_run, bool_decide_eq_false_2].
    erewrite bind_next;
      [|apply checkExistingDonation_none;
        [apply Hrel | by apply findOneSortDesc_None]].
    erewrite bind_next; [|apply findLocation_some; [apply Hrel | exact Hloc]].
    simpl. erewrite bind_throw; [done|].
    unfold resolveDonor. unfold_handler. rewrite !Hrel.
    unfold locked. simpl. rewrite Hid.
    destruct (truthy (mobileNumber l)) as [m|] eqn:Hm; simpl;
      [rewrite (Hphone m eq_refl)|]; by rewrite Hu, Hre. }
  unfold confirmDonation, handlerBody.
  by rewrite (bind_throw _ _ _ _ Hres).
Qed.

End Calls.

End HandlerFacts.

(** ** The change-stream watcher *)

Module LocationWatcherFacts.

Import Collection CollectionFacts MarkDonation MarkDonationFacts HandlerFacts.
Import LocationWatcher.

Lemma isClosed_false r :
  isClosed r = false ↔
  status r ≠ fulfilled ∧ status r ≠ cancelled ∧ confirmedUnits r < quantity r.
Proof.
  unfold isClosed. rewrite !orb_false_iff, !bool_decide_eq_false.
  split; [intros [[? ?] ?] | intros (? & ? & ?)]; repeat split; try done; lia.
Qed.

(** X12. The watcher never notifies for a location whose request is
    unknown or closed: a write happens only when the location names a
    stored request that is neither fulfilled nor cancelled and still
    has units to confirm. *)
Theorem watcher_needs_open_request rejects w clients l :
  onChange rejects w clients l ≠ [] →
  ∃ rid r, requestId l = Some rid ∧ requests w !! rid = Some r ∧
           status r ≠ fulfilled ∧ status r ≠ cancelled ∧
           confirmedUnits r < quantity r.
Proof.
  unfold onChange. intros H.
  destruct (rejects WatchRequestFind); [done|].
  destruct (requestId l) as [rid|] eqn:Hrid; [|done]. simpl in H.
  destruct (requests w !! rid) as [r|] eqn:Hr; [|done].
  destruct (isClosed r) eqn:Hc; [done|].
  apply isClosed_false in Hc. by exists rid, r.
Qed.

(** X13. For a location that names an open request (expired ones
    included: the watcher does not read the deadline), and no lookup
    rejecting, the notification is written to the connections of the
    request's hospital and to no other, with the donor found by the
    location's phone number when there is one. *)
Theorem watcher_notifies_the_hospital rejects w clients l rid r :
  requestId l = Some rid →
  requests w !! rid = Some r →
  status r ≠ fulfilled → status r ≠ cancelled →
  confirmedUnits r < quantity r →
  (∀ op, rejects op = false) →
  hospitalId r ≠ "" →
  let donor :=
    match truthy (mobileNumber l) with
    | Some m => findOne (matchesPhone m) (donors w)
    | None => None
    end in
  ∀ c p,
    (c, p) ∈ onChange rejects w clients l ↔
    p = NotificationStream.payloadOf (ephemeralNotification l r donor) ∧
    c ∈ NotificationStream.subscribers clients (hospitalId r).
Proof.
  intros Hrid Hr Hf Hc Hlt Hrej Hh donor c p. subst donor.
  unfold onChange. rewrite !Hrej, Hrid. simpl. rewrite Hr.
  assert (isClosed r = false) as -> by by apply isClosed_false.
  destruct (truthy (mobileNumber l));
    by apply NotificationRegistryFacts.broadcast_targeted.
Qed.

(** X14. After a call that completed, the watcher is silent on every
    later location for the request of that donation when the call took
    its last unit or had created it; when units remain (and no lookup
    rejects) it still notifies the request's hospital. *)
Theorem watcher_after_completed_call re env body w w' dn rejects clients l :
  confirmDonation re env body w = (w', Completed dn) →
  requestId l = Some (bloodRequestId dn) →
  (∀ r, requests w !! bloodRequestId dn = Some r →
        confirmedUnits r + 1 = quantity r →
        onChange rejects w' clients l = []) ∧
  (requests w !! bloodRequestId dn = None →
   onChange rejects w' clients l = []) ∧
  (∀ r, requests w !! bloodRequestId dn = Some r →
        confirmedUnits r + 1 < quantity r →
        (∀ op, rejects op = false) → hospitalId r ≠ "" →
        ∀ c, c ∈ NotificationStream.subscribers clients (hospitalId r) →
             ∃ p, (c, p) ∈ onChange rejects w' clients l).
Proof.
  intros H Hrid.
  apply completed_call_request in H
    as (w1 & res & _ & Hdn & Hok & Hafter & Hbefore & Hnew).
  rewrite Hdn in *.
  apply reservable_inv in Hok as (Hact & Hlt & _).
  assert (∀ r', requests w' !! resRequestId res = Some r' →
                isClosed r' = true → onChange rejects w' clients l = [])
    as Hsilent.
  { intros r' Hr' Hc. unfold onChange.
    destruct (rejects WatchRequestFind); [done|].
    rewrite Hrid. simpl. by rewrite Hr', Hc. }
  split; [|split].
  - intros r Hr Hlast. apply Hbefore in Hr. subst r.
    apply (Hsilent _ Hafter). unfold reserved.
    rewrite bool_decide_eq_true_2 by lia. done.
  - intros Hnone. destruct (Hnew Hnone) as (_ & Hq & _ & _ & Hcu & _).
    apply (Hsilent _ Hafter). unfold reserved.
    rewrite bool_decide_eq_true_2 by lia. done.
  - intros r Hr Hmore Hrej Hh c Hc. apply Hbefore in Hr. subst r.
    assert (reserved env (resRequest res) = increment (resRequest res)) as Heq.
    { unfold reserved. by rewrite bool_decide_eq_false_2 by lia. }
    rewrite Heq in Hafter.
    unfold onChange. rewrite !Hrej, Hrid. simpl. rewrite Hafter.
    assert (isClosed (increment (resRequest res)) = false) as ->.
    { apply isClosed_false. simpl. rewrite Hact. repeat split; [done..|lia]. }
    destruct (truthy (mobileNumber l)); eexists;
      apply (NotificationRegistryFacts.broadcast_targeted _ _ (hospitalId (resRequest res)));
      try done.
Qed.

End LocationWatcherFacts.

(** ** The read routes of the donation router *)

Module DonationRoutesFacts.

Import Collection CollectionFacts MarkDonation MarkDonationFacts.
Import DonationRoutes.

Global Instance notEarlier_total : Total notEarlier.
Proof.
  intros a b. unfold notEarlier.
  destruct (key_lt (completedAt a.2) (completedAt b.2)) eqn:E; [|by left].
  right. by apply key_lt_false_of_true.
Qed.

Global Instance notEarlier_trans : Transitive notEarlier.
Proof.
  intros a b c Hab Hbc. unfold notEarlier in *.
  destruct (completedAt a.2) as [x|], (completedAt b.2) as [y|],
           (completedAt c.2) as [z|]; simpl in *; try done.
  apply bool_decide_eq_false in Hab, Hbc. apply bool_decide_eq_false. lia.
Qed.

(** X15. [verify-location] and [mark-donation] agree on who is on the
    map: with no database call rejecting, [verify-location] answers 404
    exactly when no location record carries the donor id, which is
    exactly when [mark-donation] (guard free, no completed donation on
    record) answers that the donor was not found; otherwise it returns
    a stored record of that donor id. *)
Theorem verifyLocation_agrees_with_handler re env rejects body w d :
  (∀ op, rejects op = false) →
  truthy (bodyDonorId body) = Some d →
  d ∉ processingLock w →
  (∀ k h, histories w !! k = Some h → isCompletedBy d h = false) →
  reliable env →
  (verifyLocation rejects d w = NotOnMap ↔
   ∀ k l, locations w !! k = Some l → donorId l ≠ Some d) ∧
  (verifyLocation rejects d w = NotOnMap ↔
   (confirmDonation re env body w).2 = DonorNotFound) ∧
  (∀ l donor, verifyLocation rejects d w = OnMap l donor →
              ∃ k, locations w !! k = Some l ∧ donorId l = Some d).
Proof.
  intros Hrej Hd Hnin Hhist Hrel.
  assert (verifyLocation rejects d w =
          match findOne (hasDonorId d) (locations w) with
          | Some (_, l) => OnMap l (snd <$> findOne (hasUniqueId d) (donors w))
          | None => NotOnMap
          end) as Hv.
  { unfold verifyLocation. rewrite !Hrej.
    by destruct (findOne (hasDonorId d) (locations w)) as [[k l]|]. }
  assert (findOne (hasDonorId d) (locations w) = None ↔
          ∀ k l, locations w !! k = Some l → donorId l ≠ Some d) as Hnone.
  { rewrite findOne_None. unfold hasDonorId.
    split; intros H k l Hk; specialize (H k l Hk);
      [by apply bool_decide_eq_false in H | by apply bool_decide_eq_false]. }
  assert (verifyLocation rejects d w = NotOnMap ↔
          findOne (hasDonorId d) (locations w) = None) as Hiff.
  { rewrite Hv. by destruct (findOne (hasDonorId d) (locations w)) as [[k l]|]. }
  split; [by rewrite Hiff|]. split.
  - rewrite Hiff. split.
    + intros Hn. unfold confirmDonation, handlerBody.
      erewrite bind_reply; [done|].
      apply resolve_not_found; try done. by apply findOneSortDesc_None.
    + destruct (confirmDonation re env body w) as [w' o] eqn:H. simpl.
      intros ->. apply confirmDonation_inv in H
        as [H | [[_ ?] | (w1 & res & _ & [Hc | [_ ?]])]]; try done.
      * apply resolve_inv in H. simpl in H.
        destruct H as [(? & _) | (d0 & Hd0 & [(? & _) | [(? & _) | (_ & _ & _ & Hn)]])];
          try done.
        rewrite Hd in Hd0. by injection Hd0 as <-.
      * apply commit_inv in Hc. simpl in Hc.
        destruct Hc as (_ & D & _ & [(? & _) | [(? & _) | [(? & _) | (? & _)]]]);
          done.
  - intros l donor. rewrite Hv.
    destruct (findOne (hasDonorId d) (locations w)) as [[k l0]|] eqn:Hf;
      [|done].
    intros [= <- _]. apply findOne_Some in Hf as [Hk Hp].
    exists k. split; [done|]. unfold hasDonorId in Hp.
    by apply bool_decide_eq_true in Hp.
Qed.

(** X16. [recent-donations] returns the fifty most recent completed
    donations, most recent first: at most fifty records, each stored
    and completed, none twice, in descending order of completion date;
    every completed record is returned unless fifty are, and a
    completed record left out is not more recent than any returned. *)
Theorem recentDonations_most_recent_first w l :
  recentDonations false w = Some l →
  (length l ≤ 50)%nat ∧
  (∀ k h, (k, h) ∈ l → histories w !! k = Some h ∧ dhStatus h = completed) ∧
  NoDup l ∧
  StronglySorted notEarlier l ∧
  (∀ k h, histories w !! k = Some h → dhStatus h = completed →
          (k, h) ∈ l ∨
          (length l = 50%nat ∧ ∀ a, a ∈ l → notEarlier a (k, h))).
Proof.
  unfold recentDonations. intros [= <-].
  set (found := filter (λ kv : string * DonationHistory, dhStatus kv.2 = completed)
                       (map_to_list (histories w))).
  set (sorted := merge_sort notEarlier found).
  assert (sorted ≡ₚ found) as Hperm by apply merge_sort_Permutation.
  assert (StronglySorted notEarlier sorted) as Hsorted
    by (apply StronglySorted_merge_sort; apply _).
  assert (∀ k h, (k, h) ∈ sorted ↔
                 histories w !! k = Some h ∧ dhStatus h = completed) as Hin.
  { intros k h. rewrite Hperm. unfold found.
    rewrite list_elem_of_filter, elem_of_map_to_list. simpl. tauto. }
  assert (NoDup sorted) as Hnd.
  { rewrite Hperm. apply NoDup_filter, NoDup_map_to_list. }
  split; [rewrite length_take; lia|].
  split.
  { intros k h Hk. apply Hin. eapply elem_of_sublist; [exact Hk|].
    apply sublist_take. }
  split; [exact (sublist_NoDup _ _ Hnd (sublist_take sorted 50))|].
  split.
  { rewrite <- (take_drop 50 sorted) in Hsorted.
    by apply StronglySorted_app_1_l in Hsorted. }
  intros k h Hk Hc.
  assert ((k, h) ∈ sorted) as Hs by by apply Hin.
  rewrite <- (take_drop 50 sorted) in Hs.
  apply elem_of_app in Hs as [Hs | Hs]; [by left|]. right.
  split.
  - rewrite length_take. apply list_elem_of_lookup in Hs as [i Hi].
    apply lookup_lt_Some in Hi. rewrite length_drop in Hi. lia.
  - intros a Ha. rewrite <- (take_drop 50 sorted) in Hsorted.
    by eapply StronglySorted_app_1_elem_of.
Qed.

End DonationRoutesFacts.

(** ** Sharing a location *)

Module DonorResponseFacts.

Import Collection CollectionFacts MarkDonation MarkDonationFacts.
Import DonorResponse.

Lemma alreadyFulfilled_false r :
  alreadyFulfilled r = false ↔ status r ≠ fulfilled ∧ status r ≠ cancelled.
Proof.
  unfold alreadyFulfilled. by rewrite orb_false_iff, !bool_decide_eq_false.
Qed.

Lemma prefix_append s t : String.prefix s (s +:+ t) = true.
Proof.
  induction s as [|a s IH].
  - by destruct t.
  - change (String a s +:+ t) with (String a (s +:+ t)).
    cbn [String.prefix]. by destruct (ascii_dec a a).
Qed.

Lemma directToken_unchecked rid d :
  tokenChecked (Some (directToken rid d)) = None.
Proof.
  unfold tokenChecked, truthy, directToken.
  rewrite bool_decide_eq_false_2 by (by cbv [String.append]).
  by rewrite prefix_append.
Qed.

(** What each answer of [/donor-location] says of the call. *)
Lemma shareLocation_inv rn env body w w' o :
  shareLocation rn env body w = (w', o) →
  match o with
  | SharedAs k l =>
      ∃ rid d la ln r,
        truthy (shareRequestId body) = Some rid ∧
        truthy (shareDonorId body) = Some d ∧
        truthyNum (lat body) = Some la ∧ truthyNum (lng body) = Some ln ∧
        requests w !! rid = Some r ∧ alreadyFulfilled r = false ∧
        k = insertedId env ∧ locations w !! k = None ∧
        l = directLocation rn env rid d la ln (donorInfoOf env d w) ∧
        w' = insertLocation k l w
  | _ => w' = w
  end.
Proof.
  unfold shareLocation. intros H.
  repeat case_match; simplify_eq; try done.
  by eexists _, _, _, _, _.
Qed.

(** X25. [/donor-location] writes at most one document: an answer other
    than success leaves the database as it is; a success has inserted
    one location under a fresh id, for a stored request that is neither
    fulfilled nor cancelled, carrying the request id and the donor id of
    the call, the time of the call and the token made of the two ids,
    and has touched nothing else. *)
Theorem shareLocation_writes_one_location rn env body w w' o :
  shareLocation rn env body w = (w', o) →
  ((∀ k l, o ≠ SharedAs k l) → w' = w) ∧
  (∀ k l, o = SharedAs k l →
     k = insertedId env ∧ locations w !! k = None ∧
     locations w' = <[k := l]> (locations w) ∧
     requests w' = requests w ∧ donors w' = donors w ∧
     histories w' = histories w ∧ processingLock w' = processingLock w ∧
     ∃ rid d r,
       truthy (shareRequestId body) = Some rid ∧
       truthy (shareDonorId body) = Some d ∧
       requests w !! rid = Some r ∧
       status r ≠ fulfilled ∧ status r ≠ cancelled ∧
       requestId l = Some rid ∧ donorId l = Some d ∧
       token l = Some (directToken rid d) ∧
       timestamp l = Some (shareNow env)).
Proof.
  intros H. apply shareLocation_inv in H. split.
  - intros Hno. destruct o; try done. by destruct (Hno locationId l).
  - intros k l ->.
    destruct H as (rid & d & la & ln & r & Hrid & Hd & _ & _ & Hr & Hst & -> &
                   Hfresh & -> & ->).
    apply alreadyFulfilled_false in Hst as [? ?].
    repeat (split; [done|]). by exists rid, d, r.
Qed.

(** X26. A location shared through [/donor-location] is never checked
    against the active tokens of a request: its token carries the
    [DIRECT_] sentinel, so the reservation of [mark-donation] accepts
    it for every active request with a unit left, whatever tokens the
    request lists. *)
Theorem direct_share_skips_token_check rn env body w w' k l :
  shareLocation rn env body w = (w', SharedAs k l) →
  tokenChecked (token l) = None ∧
  ∀ r, reservable (token l) r = true ↔
       status r = active ∧ confirmedUnits r < quantity r.
Proof.
  intros H. apply shareLocation_inv in H
    as (rid & d & la & ln & r0 & _ & _ & _ & _ & _ & _ & _ & _ & -> & _).
  assert (tokenChecked (token (directLocation rn env rid d la ln
                                 (donorInfoOf env d w))) = None) as Ht
    by apply directToken_unchecked.
  split; [done|]. intros r. unfold reservable. rewrite Ht.
  rewrite andb_true_r, andb_true_iff, !bool_decide_eq_true. done.
Qed.

(** X27. A donor who shared a location is on the map: after a successful
    [/donor-location], [verify-location] finds the donor id (no lookup
    rejecting), [mark-donation] for that donor id never answers that the
    donor was not found, and the watcher, run on the inserted document,
    notifies the connections of the request's hospital when the request
    has a unit left. *)
Theorem shared_donor_is_on_the_map re rn env sb w w' k l d :
  shareLocation rn env sb w = (w', SharedAs k l) →
  truthy (shareDonorId sb) = Some d →
  (∀ rej, (∀ op, rej op = false) →
          DonationRoutes.verifyLocation rej d w' ≠ DonationRoutes.NotOnMap) ∧
  (∀ env' body, truthy (bodyDonorId body) = Some d →
                (confirmDonation re env' body w').2 ≠ DonorNotFound) ∧
  (∀ rid r, requestId l = Some rid → requests w !! rid = Some r →
            confirmedUnits r < quantity r → hospitalId r ≠ "" →
            ∀ rej, (∀ op, rej op = false) →
            ∀ clients c,
              c ∈ NotificationStream.subscribers clients (hospitalId r) →
              ∃ p, (c, p) ∈ LocationWatcher.onChange rej w' clients l).
Proof.
  intros H Hd. apply shareLocation_inv in H
    as (rid & d0 & la & ln & r0 & Hrid & Hd0 & _ & _ & Hr0 & Hst & -> &
        Hfresh & -> & ->).
  rewrite Hd in Hd0. injection Hd0 as <-.
  set (l := directLocation rn env rid d la ln (donorInfoOf env d w)).
  assert (is_Some (findOne (hasDonorId d)
                     (locations (insertLocation (insertedId env) l w))))
    as [[k0 l0] Hfound].
  { apply (findOne_is_Some _ _ (insertedId env) l).
    - simpl. apply lookup_insert_eq.
    - unfold hasDonorId. by apply bool_decide_eq_true. }
  split; [|split].
  - intros rej Hrej. unfold DonationRoutes.verifyLocation.
    rewrite !Hrej, Hfound. done.
  - intros env' body Hb.
    destruct (confirmDonation re env' body _) as [w2 o2] eqn:Hc. simpl.
    intros ->. apply confirmDonation_inv in Hc
      as [Hc | [[_ ?] | (w1 & res & _ & [Hc | [_ ?]])]]; try done.
    + apply resolve_inv in Hc. simpl in Hc.
      destruct Hc as [(? & _) | (d0 & Hd0 & [(? & _) | [(? & _) | (_ & _ & _ & Hn)]])];
        try done.
      rewrite Hb in Hd0. injection Hd0 as <-. simpl in Hfound. congruence.
    + apply commit_inv in Hc. simpl in Hc.
      destruct Hc as (_ & D & _ & [(? & _) | [(? & _) | [(? & _) | (? & _)]]]);
        done.
  - intros rid' r Hl Hr Hlt Hh rej Hrej clients c Hc.
    injection Hl as <-. rewrite Hr in Hr0. injection Hr0 as <-.
    apply alreadyFulfilled_false in Hst as [Hf Hcan].
    assert (requestId l ≫= (λ j, requests (insertLocation (insertedId env) l w) !! j)
            = Some r) as Hreq by exact Hr.
    unfold LocationWatcher.onChange. rewrite !Hrej, Hreq.
    assert (LocationWatcher.isClosed r = false) as ->
      by by apply LocationWatcherFacts.isClosed_false.
    destruct (truthy (mobileNumber l)); eexists;
      apply (NotificationRegistryFacts.broadcast_targeted _ _ (hospitalId r));
      try done.
Qed.

(** What each answer of [POST /r/:token/respond] says of the call. *)
Lemma respond_inv rn env tok la ln addr s s' o :
  respond rn env tok la ln addr s = (s', o) →
  match o with
  | Recorded k l =>
      ∃ tk t r x,
        findOne (unusedToken tok) (responseTokens s) = Some (tk, t) ∧
        requests (world s) !! rtRequestId t = Some r ∧
        alreadyFulfilled r = false ∧
        donors (world s) !! rtDonorId t = Some x ∧
        k = insertedId env ∧ locations (world s) !! k = None ∧
        l = responseLocation rn env tok t x la ln addr ∧
        s' = mkStore (alter markUsed tk (responseTokens s))
                     (insertLocation k l (world s))
  | RespondFailed =>
      s' = s ∨
      (rejects env TokenSave = true ∧
       ∃ tk t x,
         findOne (unusedToken tok) (responseTokens s) = Some (tk, t) ∧
         donors (world s) !! rtDonorId t = Some x ∧
         locations (world s) !! insertedId env = None ∧
         s' = mkStore (responseTokens s)
                (insertLocation (insertedId env)
                   (responseLocation rn env tok t x la ln addr) (world s)))
  | _ => s' = s
  end.
Proof.
  unfold respond. intros H.
  repeat case_match; simplify_eq; try done; try (by left).
  - right. split; [done|]. by eexists _, _, _.
  - by eexists _, _, _, _.
Qed.

(** X28. [POST /r/:token/respond] writes in this order, the location and
    then the token: an answer other than success or failure leaves the
    database as it is; a success has inserted one location, with the
    ids and the string of an unused token, for a stored request that is
    neither fulfilled nor cancelled, and has marked that token used,
    changing nothing else; a failure has written nothing, unless it is
    the token's save that rejected: then the location is inserted and
    the token is as it was. *)
Theorem respond_writes_location_then_token rn env tok la ln addr s s' o :
  respond rn env tok la ln addr s = (s', o) →
  ((∀ k l, o ≠ Recorded k l) → o ≠ RespondFailed → s' = s) ∧
  (∀ k l, o = Recorded k l →
     ∃ tk t r,
       responseTokens s !! tk = Some t ∧ rtToken t = tok ∧ isUsed t = false ∧
       requests (world s) !! rtRequestId t = Some r ∧
       status r ≠ fulfilled ∧ status r ≠ cancelled ∧
       k = insertedId env ∧ locations (world s) !! k = None ∧
       donorId l = Some (rtDonorId t) ∧ requestId l = Some (rtRequestId t) ∧
       token l = Some tok ∧ timestamp l = Some (shareNow env) ∧
       responseTokens s' = <[tk := markUsed t]> (responseTokens s) ∧
       world s' = insertLocation k l (world s)) ∧
  (o = RespondFailed →
   s' = s ∨
   (rejects env TokenSave = true ∧
    responseTokens s' = responseTokens s ∧
    locations (world s) !! insertedId env = None ∧
    ∃ l, world s' = insertLocation (insertedId env) l (world s) ∧
         token l = Some tok)).
Proof.
  intros H. apply respond_inv in H. split; [|split].
  - intros Hno Hnf. destruct o; try done. by destruct (Hno locationId l).
  - intros k l ->.
    destruct H as (tk & t & r & x & Hfind & Hr & Hst & _ & -> & Hfresh & -> & ->).
    apply findOne_Some in Hfind as [Htk Hp].
    unfold unusedToken in Hp. apply andb_true_iff in Hp as [Hp1 Hp2].
    apply bool_decide_eq_true in Hp1. apply negb_true_iff in Hp2.
    apply alreadyFulfilled_false in Hst as [? ?].
    exists tk, t, r. repeat (split; [done|]). split; [|done].
    simpl. apply map_eq. intros j.
    destruct (decide (tk = j)) as [<- | Hne].
    + by rewrite lookup_alter_eq, lookup_insert_eq, Htk.
    + by rewrite lookup_alter_ne, lookup_insert_ne.
  - intros ->. destruct H as [-> | (Hsave & tk & t & x & _ & _ & Hfresh & ->)];
      [by left|].
    right. repeat (split; [done|]). by eexists.
Qed.

Lemma markUsed_spent tok tk s w' :
  spent tok s → spent tok (mkStore (alter markUsed tk (responseTokens s)) w').
Proof.
  intros Hs k t. simpl. destruct (decide (tk = k)) as [<- | Hne].
  - rewrite lookup_alter_eq. destruct (responseTokens s !! tk); [|done].
    by intros [= <-].
  - rewrite lookup_alter_ne by done. apply Hs.
Qed.

Lemma respond_spent rn env tok0 tok la ln addr s :
  spent tok0 s → spent tok0 (respond rn env tok la ln addr s).1.
Proof.
  intros Hs. destruct (respond rn env tok la ln addr s) as [s' o] eqn:H.
  apply respond_inv in H. simpl. destruct o; subst; try done.
  - destruct H as (tk & t & r & x & _ & _ & _ & _ & _ & _ & _ & ->).
    by apply markUsed_spent.
  - destruct H as [-> | (_ & tk & t & x & _ & _ & _ & ->)]; done.
Qed.

Lemma respondAll_spent rn tok calls s :
  spent tok s → spent tok (respondAll rn calls s).
Proof.
  unfold respondAll. revert s.
  induction calls as [|c calls IH]; intros s Hs; simpl; [done|].
  by apply IH, respond_spent.
Qed.

Lemma spent_findOne tok s :
  spent tok s → findOne (unusedToken tok) (responseTokens s) = None.
Proof.
  intros Hs. apply findOne_None. intros k t Hk. unfold unusedToken.
  destruct (decide (rtToken t = tok)) as [Ht | Ht].
  - by rewrite (Hs k t Hk Ht), andb_false_r.
  - by rewrite bool_decide_eq_false_2.
Qed.

(** X29. A token is used once: after a response was recorded for a
    token (no two stored tokens carrying its string), every later call
    with that token, whatever calls come in between, is answered
    [InvalidLink] (or fails on its first lookup) and writes nothing;
    [GET /r/:token] answers that the link is invalid. *)
Theorem token_is_single_use rn env tok la ln addr s s' k l :
  distinctTokens s →
  respond rn env tok la ln addr s = (s', Recorded k l) →
  ∀ calls c,
    callToken c = tok →
    let s2 := respondAll rn calls s' in
    respondTo rn c s2 =
      (s2, if rejects (callEnv c) TokenFindOne then RespondFailed
           else InvalidLink) ∧
    ∀ env', rejects env' ViewTokenFind = false →
            viewToken env' tok s2 = LinkInvalid.
Proof.
  intros Hdist H calls c Hc s2.
  assert (spent tok s') as Hs.
  { apply respond_inv in H
      as (tk & t & r & x & Hfind & _ & _ & _ & _ & _ & _ & ->).
    apply findOne_Some in Hfind as [Htk Hp].
    unfold unusedToken in Hp. apply andb_true_iff in Hp as [Hp _].
    apply bool_decide_eq_true in Hp.
    intros j u. simpl. destruct (decide (tk = j)) as [<- | Hne].
    - rewrite lookup_alter_eq, Htk. by intros [= <-].
    - rewrite lookup_alter_ne by done. intros Hj Hu.
      destruct Hne. apply (Hdist tk j t u Htk Hj). congruence. }
  apply (respondAll_spent rn tok calls) in Hs. fold s2 in Hs.
  apply spent_findOne in Hs. split.
  - unfold respondTo, respond. rewrite Hc, Hs.
    by destruct (rejects (callEnv c) TokenFindOne).
  - intros env' Hrej. unfold viewToken. by rewrite Hrej, Hs.
Qed.

(** X30. The page and the submission read the same token and request,
    but not the same test: with no lookup rejecting, the link is
    invalid for the one exactly when it is for the other, and so for a
    missing request; a submission refused as fulfilled was shown as
    fulfilled; a request shown as fulfilled is still accepted by the
    submission exactly when its status is neither fulfilled nor
    cancelled and its units are all confirmed. *)
Theorem view_and_respond_agree rn env tok la ln addr s :
  (∀ op, rejects env op = false) →
  let o := (respond rn env tok la ln addr s).2 in
  let v := viewToken env tok s in
  (v = LinkInvalid ↔ o = InvalidLink) ∧
  (v = LinkRequestGone ↔ o = RequestMissing) ∧
  (∀ t r d f, v = LinkDetails t r d f →
     t = tok ∧
     (o = RequestClosed → f = true) ∧
     (f = true ∧ o ≠ RequestClosed ↔
      status r ≠ fulfilled ∧ status r ≠ cancelled ∧
      quantity r ≤ confirmedUnits r) ∧
     (f = false → d = None → o = DonorMissing)).
Proof.
  intros Hrej o v. subst o v. unfold viewToken, respond. rewrite !Hrej.
  destruct (findOne (unusedToken tok) (responseTokens s)) as [[tk t]|] eqn:Hfind;
    [|by repeat split].
  apply findOne_Some in Hfind as [_ Hp].
  unfold unusedToken in Hp. apply andb_true_iff in Hp as [Hp _].
  apply bool_decide_eq_true in Hp.
  destruct (requests (world s) !! rtRequestId t) as [r|]; [|by repeat split].
  assert (∀ o' : Responded,
            alreadyFulfilled r = false → o' ≠ RequestClosed →
            (if alreadyFulfilled r then (s, RequestClosed) else (s, o')).2
            ≠ RequestClosed) as Hskip.
  { intros o' -> Ho'. done. }
  unfold isFulfilled, alreadyFulfilled.
  destruct (decide (status r = fulfilled)) as [Hf | Hf];
    destruct (decide (status r = cancelled)) as [Hc | Hc];
    rewrite ?(bool_decide_eq_true_2 _ Hf), ?(bool_decide_eq_false_2 _ Hf),
            ?(bool_decide_eq_true_2 _ Hc), ?(bool_decide_eq_false_2 _ Hc);
    simpl.
  1-3: split; [done|]; split; [done|]; intros t0 r0 d f [= <- <- <- <-];
       split; [done|]; split; [done|]; split; [|done];
       split; [intros [_ ?]; done | intros (? & ? & _); done].
  split; [by repeat case_match|]. split; [by repeat case_match|].
  intros t0 r0 d f [= <- <- <- <-]. split; [done|].
  split; [by repeat case_match|]. split.
  - rewrite bool_decide_eq_true. split; [by intros [? _]|].
    intros (_ & _ & ?). split; [done|]. by repeat case_match.
  - intros _ ->. done.
Qed.

End DonorResponseFacts.

(** ** The additional statements on concrete worlds *)

Module MoreScenarioFacts.

Import Collection MarkDonation Scenarios MoreScenarios.
Import JsNumber NotificationStream NotificationRegistry LocationFilter.
Import LocationExpiry.
Import LocationWatcher DonationRoutes DonorResponse.

Ltac run_call := vm_compute; reflexivity.

(** A comparison of two integer constants. *)
Ltac in_range := vm_compute; (reflexivity || discriminate).

(** A decidable statement on concrete data, by evaluation. *)
Ltac by_evaluation :=
  match goal with
  | |- ?P =>
      let d := constr:(_ : Decision P) in
      apply (@bool_decide_unpack P d); vm_compute; exact I
  end.

Lemma wards_noEmptySet : noEmptySet wards.
Proof.
  unfold wards.
  repeat apply NotificationRegistryFacts.addClient_noEmptySet.
  intros h s Hs. by rewrite lookup_empty in Hs.
Qed.

Lemma calmAgain_reliable : reliable calmAgain.
Proof. intros op. reflexivity. Qed.

(** White space beyond ASCII is removed from the location's number
    before it is compared with the stored one. *)
Example phone_with_wide_spaces :
  stripSpaces spacedPhone = "987654" ∧
  resolveDonor exactName calm "D1" spacedLocation worldWithBea =
  (worldWithBea, Next (Some ("B1", bea))).
Proof. split; vm_compute; reflexivity. Qed.

Lemma removeClient_undoes_addClient_witness :
  removeClient "H1" 7%nat (addClient "H1" 7%nat wards) = wards.
Proof.
  apply (NotificationRegistryFacts.removeClient_undoes_addClient wards "H1" 7%nat).
  - exact wards_noEmptySet.
  - by_evaluation.
Defined.

Lemma close_stops_delivery_witness :
  removeClient "H1" 1%nat wards !! "H2" = wards !! "H2".
Proof.
  apply (proj2 (proj2 (NotificationRegistryFacts.close_stops_delivery
                         wards "H1" 1%nat forH1 eq_refl ltac:(discriminate)))).
  discriminate.
Defined.


Lemma filter_and_expiry_boundary_witness :
  isRecent 10000000 (ofZ 1) (entryAt "a" 6400000) = true ∧
  expired (getTimeRemaining 10000000 (Some 6400000) (ofZ 1)) = true.
Proof.
  apply (proj1 (proj1 (LocationExpiryFacts.filter_and_expiry_boundary
                         10000000 1 (entryAt "a" 6400000) 6400000
                         eq_refl ltac:(in_range) ltac:(in_range))
                      ltac:(in_range) ltac:(in_range) ltac:(in_range))).
  reflexivity.
Defined.

(** Monotony in the window needs the cut-off of the longer window to
    be a valid date: one hour keeps two entries, three thousand million
    hours keep none. *)
Example longer_window_keeps_nothing :
  filterRecentLocations 10000000
    [entryAt "a" 6400000; entryAt "c" 10000000] (ofZ 1) =
  [entryAt "a" 6400000; entryAt "c" 10000000] ∧
  filterRecentLocations 10000000
    [entryAt "a" 6400000; entryAt "c" 10000000] (ofZ 3000000000) = [].
Proof. split; vm_compute; reflexivity. Qed.

(** The expiry information one minute and a half before the end of the
    hour, and for a window that leaves the range of [Date]. *)
Example addExpiryInfo_last_minutes :
  let info := (addExpiryInfo 10000000 (entryAt "a" 6490000) (ofZ 1)).2 in
  expiresAt info = Some 10090000 ∧
  minutes (timeRemaining info) = ofZ 1 ∧
  seconds (timeRemaining info) = ofZ 30 ∧
  totalMs (timeRemaining info) = Some (ofZ 90000) ∧
  isExpiringSoon info = true.
Proof. repeat split; vm_compute; reflexivity. Qed.

Example addExpiryInfo_beyond_the_range :
  let info :=
    (addExpiryInfo 10000000 (entryAt "a" 6490000) (ofZ 3000000000)).2 in
  expiresAt info = None ∧
  expired (timeRemaining info) = false ∧
  minutes (timeRemaining info) = S754_nan ∧
  isExpiringSoon info = false.
Proof. repeat split; vm_compute; reflexivity. Qed.

Lemma watcher_needs_open_request_witness :
  ∃ rid r, requestId invited = Some rid ∧
           requests (worldWith invited openRequest) !! rid = Some r ∧
           status r ≠ fulfilled ∧ status r ≠ cancelled ∧
           confirmedUnits r < quantity r.
Proof.
  apply (LocationWatcherFacts.watcher_needs_open_request
           steady (worldWith invited openRequest) wards invited).
  vm_compute. discriminate.
Defined.

Lemma watcher_notifies_the_hospital_witness :
  (1%nat, payloadOf (ephemeralNotification invited openRequest None)) ∈
    onChange steady (worldWith invited openRequest) wards invited.
Proof.
  pose proof (LocationWatcherFacts.watcher_notifies_the_hospital
                steady (worldWith invited openRequest) wards invited
                "R1" openRequest eq_refl ltac:(run_call)
                ltac:(discriminate) ltac:(discriminate) ltac:(reflexivity)
                ltac:(intros op; reflexivity) ltac:(discriminate)) as H.
  cbv zeta in H. apply H. split; [reflexivity | by_evaluation].
Defined.

Lemma watcher_after_completed_call_witness :
  let w := worldWith invited lastUnitRequest in
  let r := confirmDonation exactName calm (callFor "D1") w in
  onChange steady r.1 wards invited = [].
Proof.
  intros w r.
  apply (proj1 (LocationWatcherFacts.watcher_after_completed_call
                  exactName calm (callFor "D1") w r.1
                  (donationOf calm "D1" None invited None "R1" lastUnitRequest)
                  steady wards invited ltac:(run_call) eq_refl)
               lastUnitRequest).
  - run_call.
  - reflexivity.
Defined.

Lemma verifyLocation_agrees_with_handler_witness :
  ∃ k, locations (worldWith invited openRequest) !! k = Some invited ∧
       donorId invited = Some "D1".
Proof.
  apply (proj2 (proj2 (DonationRoutesFacts.verifyLocation_agrees_with_handler
                         exactName calm steadyRead (callFor "D1")
                         (worldWith invited openRequest) "D1"
                         ltac:(intros op; reflexivity) eq_refl
                         ltac:(apply not_elem_of_empty)
                         ltac:(intros k h Hk; unfold worldWith in Hk;
                               cbn [histories] in Hk;
                               by rewrite lookup_empty in Hk)
                         ScenarioFacts.calm_reliable))
               invited None).
  run_call.
Defined.

Lemma recentDonations_most_recent_first_witness :
  StronglySorted notEarlier [("DH-9", laterDonation); ("DH-0", priorDonation)].
Proof.
  apply (DonationRoutesFacts.recentDonations_most_recent_first worldHistories).
  run_call.
Defined.

Lemma guard_is_permanent_witness :
  let w := worldWith invited openRequest in
  let r := confirmDonation exactName calm (callFor "D1") w in
  confirmDonation exactName calmAgain (callFor "D1") r.1 =
  (r.1, AlreadyProcessing).
Proof.
  intros w r.
  apply (HandlerFacts.guard_is_permanent exactName calm (callFor "D1") w
           r.1 r.2 "D1" eq_refl ltac:(run_call) ltac:(vm_compute; exact I)
           [] calmAgain (callFor "D1") eq_refl).
Defined.

Lemma history_is_append_only_witness :
  let r := confirmDonation exactName calm (callFor "D2") worldSecond in
  histories r.1 !! "DH-0" = Some priorDonation.
Proof.
  intros r.
  apply (proj1 (HandlerFacts.history_is_append_only exactName calm
                  (callFor "D2") worldSecond r.1 r.2 ltac:(run_call))).
  run_call.
Defined.

Lemma completed_donor_is_refused_witness :
  confirmDonation exactName calm (callFor "D1") worldAfterDonation =
  (locked "D1" worldAfterDonation, AlreadyDonated).
Proof.
  apply (HandlerFacts.completed_donor_is_refused exactName calm (callFor "D1")
           worldAfterDonation "D1" "DH-0" priorDonation 1000);
    try reflexivity.
  apply not_elem_of_empty.
Defined.

Lemma only_the_consumed_location_is_deleted_witness :
  let r := confirmDonation exactName calm (callFor "D1") worldSecond in
  locations r.1 = locations worldSecond.
Proof.
  intros r.
  apply (proj1 (HandlerFacts.only_the_consumed_location_is_deleted exactName
                  calm (callFor "D1") worldSecond r.1 r.2 ltac:(run_call))).
  intros dn. vm_compute. discriminate.
Defined.

Lemma donor_profiles_only_get_stamped_witness :
  let r := confirmDonation exactName calm (callFor "D2") worldSecond in
  ∃ x', donors r.1 !! "A1" = Some x' ∧
        uniqueId x' = uniqueId ann ∧ name x' = name ann ∧
        phone x' = phone ann ∧ donorBloodGroup x' = donorBloodGroup ann ∧
        (lastDonationDate x' = lastDonationDate ann ∨
         lastDonationDate x' = Some (now calm)).
Proof.
  intros r.
  apply (proj2 (proj2 (HandlerFacts.donor_profiles_only_get_stamped exactName
                         calm (callFor "D2") worldSecond r.1 r.2
                         ltac:(run_call)) "A1")).
  run_call.
Defined.

Lemma invalid_name_pattern_rejects_witness :
  confirmDonation strictName calm (callFor "D1") (worldWith oddName openRequest) =
  (locked "D1" (worldWith oddName openRequest), Unhandled).
Proof.
  apply (HandlerFacts.invalid_name_pattern_rejects strictName calm
           (callFor "D1") (worldWith oddName openRequest) "D1" "L1" oddName "(").
  - reflexivity.
  - apply not_elem_of_empty.
  - intros k h Hk. unfold worldWith in Hk. cbn [histories] in Hk.
    by rewrite lookup_empty in Hk.
  - run_call.
  - run_call.
  - intros m Hm. discriminate Hm.
  - reflexivity.
  - reflexivity.
  - exact ScenarioFacts.calm_reliable.
Defined.

Lemma restart_forgets_profiled_donation_witness :
  let r := confirmDonation exactName calm (callFor "D2") worldSecond in
  dhDonorId (donationOf calm "D2" None secondDonor (Some ("A1", ann)) "R1"
                        openRequest) = "A1" ∧
  (confirmDonation exactName calmAgain (callFor "D2") (withLock ∅ r.1)).2
  ≠ AlreadyDonated.
Proof.
  intros r.
  destruct (HandlerFacts.restart_forgets_profiled_donation exactName calm
              (callFor "D2") worldSecond r.1
              (donationOf calm "D2" None secondDonor (Some ("A1", ann)) "R1"
                          openRequest)
              (locked "D2" worldSecond)
              (mkResolution "D2" secondDonor (Some ("A1", ann)) "R1" openRequest)
              "A1" ann "D2"
              ltac:(run_call) ltac:(run_call) eq_refl eq_refl
              ltac:(discriminate)
              ltac:(intros k h Hk; unfold worldSecond in Hk;
                    cbn [histories] in Hk;
                    apply lookup_singleton_Some in Hk as [_ <-];
                    reflexivity))
    as [H1 H2].
  split; [exact H1|]. apply (H2 calmAgain (callFor "D2") eq_refl).
Defined.

Lemma shareLocation_writes_one_location_witness :
  let r := shareLocation noRoll counter fromThePage
             (worldWith invited openRequest) in
  locations r.1 = <["L9" := sharedDirectly]> (locations (worldWith invited openRequest)).
Proof.
  intros r.
  destruct (proj2 (DonorResponseFacts.shareLocation_writes_one_location
                     noRoll counter fromThePage (worldWith invited openRequest)
                     r.1 r.2 ltac:(run_call))
                  "L9" sharedDirectly ltac:(run_call))
    as (_ & _ & H & _).
  exact H.
Defined.

Lemma direct_share_skips_token_check_witness :
  reservable (token sharedDirectly) openRequest = true.
Proof.
  apply (proj2 (DonorResponseFacts.direct_share_skips_token_check
                  noRoll counter fromThePage (worldWith invited openRequest)
                  (insertLocation "L9" sharedDirectly
                     (worldWith invited openRequest))
                  "L9" sharedDirectly ltac:(run_call))
               openRequest).
  split; [reflexivity | reflexivity].
Defined.

Lemma shared_donor_is_on_the_map_witness :
  ∃ p, (1%nat, p) ∈
       onChange steady
         (insertLocation "L9" sharedDirectly (worldWith invited openRequest))
         wards sharedDirectly.
Proof.
  apply (proj2 (proj2 (DonorResponseFacts.shared_donor_is_on_the_map
                         exactName noRoll counter fromThePage
                         (worldWith invited openRequest)
                         (insertLocation "L9" sharedDirectly
                            (worldWith invited openRequest))
                         "L9" sharedDirectly "D7" ltac:(run_call) eq_refl))
               "R1" openRequest eq_refl ltac:(run_call) ltac:(reflexivity)
               ltac:(discriminate) steady ltac:(intros op; reflexivity)
               wards 1%nat).
  by_evaluation.
Defined.

Lemma respond_writes_location_then_token_witness :
  let r := respond noRoll counter "T1" (Some 12) (Some 77) None (desk "A1") in
  ∃ tk t, responseTokens r.1 = <[tk := markUsed t]> (responseTokens (desk "A1")) ∧
          world r.1 = insertLocation "L9" sharedByLink (world (desk "A1")).
Proof.
  intros r.
  destruct (proj1 (proj2 (DonorResponseFacts.respond_writes_location_then_token
                            noRoll counter "T1" (Some 12) (Some 77) None
                            (desk "A1") r.1 r.2 ltac:(run_call)))
                  "L9" sharedByLink ltac:(run_call))
    as (tk & t & r0 & _ & _ & _ & _ & _ & _ & _ & _ & _ & _ & _ & _ & H1 & H2).
  exists tk, t. split; [exact H1 | exact H2].
Defined.

Lemma desk_distinctTokens d : distinctTokens (desk d).
Proof.
  intros k1 k2 t1 t2 H1 H2 _. unfold desk in H1, H2.
  cbn [responseTokens] in H1, H2.
  apply lookup_singleton_Some in H1 as [<- _].
  by apply lookup_singleton_Some in H2 as [<- _].
Qed.

Lemma token_is_single_use_witness :
  let r := respond noRoll counter "T1" (Some 12) (Some 77) None (desk "A1") in
  respondTo noRoll again r.1 = (r.1, InvalidLink).
Proof.
  intros r.
  apply (proj1 (DonorResponseFacts.token_is_single_use noRoll counter "T1"
                  (Some 12) (Some 77) None (desk "A1") r.1 "L9" sharedByLink
                  (desk_distinctTokens "A1") ltac:(run_call)
                  [] again eq_refl)).
Defined.

Lemma view_and_respond_agree_witness :
  (respond noRoll counter "T1" None None None (desk "A2")).2 = DonorMissing.
Proof.
  pose proof (DonorResponseFacts.view_and_respond_agree noRoll counter "T1"
                None None None (desk "A2") ltac:(intros op; reflexivity)) as H.
  cbv zeta in H. destruct H as (_ & _ & H).
  destruct (H "T1" openRequest None false ltac:(run_call)) as (_ & _ & _ & H').
  by apply H'.
Defined.

End MoreScenarioFacts.
